(** * CPify (Pypify): path resolution, asset cache and playback transport

    A shallow embedding of the core of [main.py]:

    - [Paths]: [resolve_media_path] and [_serialize_media_path] over a
      model of [pathlib] pure POSIX paths, a file system given as the
      list of the path strings that exist, and the canonical paths the
      system finds when it follows symbolic links;
    - [Assets]: the [Song] dataclass and [Song.ensure_assets];
    - [Transport]: the [PypifyApp] playback state, the mixer and its
      end-of-track event, and the transport methods.

    Python floats are modelled as exact rationals ([Q]); rounding is not
    modelled.  Strings are byte strings: [lower], [casefold] and [strip]
    act on the ASCII range. *)

From Stdlib Require Import ZArith QArith Bool Lia Lqa.
From Stdlib Require Ascii String.
From stdpp Require Import base list strings relations.
Import Ascii.AsciiSyntax.
Delimit Scope char_scope with char.
Abbreviation ascii := Ascii.ascii.

Local Open Scope Z_scope.
Local Open Scope nat_scope.
Local Open Scope stdpp_scope.

(** ** Python results: a value or a raised exception *)

Inductive Exn : Type :=
| FileNotFoundError
| RuntimeError_home        (* pathlib: could not determine home directory *)
| DecodeError              (* the decoder cannot open or read the source *)
| NoAudioTrack             (* RuntimeError("No audio track found in ...") *)
| PygameError              (* pygame.error from the mixer *)
| IndexError.

Inductive result (A : Type) : Type :=
| Ok (a : A)
| Raise (e : Exn).
Arguments Ok {A} a.
Arguments Raise {A} e.

Global Instance Exn_eq_dec : EqDecision Exn.
Proof. solve_decision. Defined.

(** ** Strings *)

Module Str.

Definition nat_of (c : ascii) : nat := Ascii.nat_of_ascii c.

(** [str.lower] / [str.casefold], ASCII range. *)
Definition lower_ascii (c : ascii) : ascii :=
  if (65 <=? nat_of c) && (nat_of c <=? 90)
  then Ascii.ascii_of_nat (nat_of c + 32) else c.

Fixpoint lower (s : string) : string :=
  match s with
  | EmptyString => EmptyString
  | String c s' => String (lower_ascii c) (lower s')
  end.

(** [str.isspace] on one character: TAB, LF, VT, FF, CR, FS, GS, RS, US
    and the space. *)
Definition isspace (c : ascii) : bool :=
  ((9 <=? nat_of c) && (nat_of c <=? 13))
  || ((28 <=? nat_of c) && (nat_of c <=? 32)).

Fixpoint lstrip (s : string) : string :=
  match s with
  | EmptyString => EmptyString
  | String c s' => if isspace c then lstrip s' else s
  end.

Definition rstrip (s : string) : string :=
  String.rev (lstrip (String.rev s)).

(** [str.strip()] *)
Definition strip (s : string) : string := rstrip (lstrip s).

(** Truthiness of a Python string. *)
Definition truthy (s : string) : bool :=
  match s with EmptyString => false | _ => true end.

Fixpoint all_space (s : string) : bool :=
  match s with
  | EmptyString => true
  | String c s' => isspace c && all_space s'
  end.

(** [s.split(sep)] for a one-character separator. *)
Fixpoint split (sep : ascii) (s : string) : list string :=
  match s with
  | EmptyString => [EmptyString]
  | String c s' =>
      if Ascii.eqb c sep then EmptyString :: split sep s'
      else match split sep s' with
           | [] => [String c EmptyString]
           | w :: ws => String c w :: ws
           end
  end.

(** [sep.join(parts)] *)
Fixpoint join (sep : string) (l : list string) : string :=
  match l with
  | [] => EmptyString
  | [x] => x
  | x :: l' => x +:+ sep +:+ join sep l'
  end.

Fixpoint has_char (c : ascii) (s : string) : bool :=
  match s with
  | EmptyString => false
  | String d s' => Ascii.eqb d c || has_char c s'
  end.

Fixpoint prefix (p s : string) : bool :=
  match p, s with
  | EmptyString, _ => true
  | String a p', String b s' => Ascii.eqb a b && prefix p' s'
  | String _ _, EmptyString => false
  end.

(** [needle in hay] *)
Fixpoint contains (needle hay : string) : bool :=
  prefix needle hay ||
  match hay with
  | EmptyString => false
  | String _ hay' => contains needle hay'
  end.

Definition starts_with_char (c : ascii) (s : string) : bool :=
  match s with
  | String d _ => Ascii.eqb d c
  | EmptyString => false
  end.

End Str.

(** ** pathlib: pure POSIX paths

    A path is its anchor (absolute or not) and its segments; [Path(s)]
    drops empty and ["."] segments and keeps [".."].  The UNC-like
    spelling with exactly two leading slashes is not distinguished from
    one slash.  A file is known to the file system by the lexical normal
    form of its path ([abspath]); a symbolic link that exists is listed
    under its own name.  [Path.resolve(strict=False)] follows the
    symbolic links: its result is given by the environment
    ([realpath]), and is the lexical normal form on a file system
    without links ([link_free]). *)

Module Paths.

Record Path : Type := MkPath { absolute : bool; parts : list string }.

Global Instance Path_eq_dec : EqDecision Path.
Proof. solve_decision. Defined.

Definition kept_segment (seg : string) : bool :=
  negb (String.eqb seg "") && negb (String.eqb seg ".").

(** [Path(s)] *)
Definition Path_of_str (s : string) : Path :=
  MkPath (Str.starts_with_char "/"%char s)
         (List.filter kept_segment (Str.split "/"%char s)).

(** [str(p)] *)
Definition str (p : Path) : string :=
  if absolute p then "/" +:+ Str.join "/" (parts p)
  else match parts p with
       | [] => "."
       | _ => Str.join "/" (parts p)
       end.

(** [p / q] *)
Definition joinpath (p q : Path) : Path :=
  if absolute q then q else MkPath (absolute p) (parts p ++ parts q).

Infix "//" := joinpath (at level 40, left associativity).

(** [p.name] *)
Definition name (p : Path) : string := List.last (parts p) "".

(** The process environment the module-level constants are computed
    from: [DATA_ROOT] (the library root), [APP_ROOT] (the install root),
    the home directory of ["~"] and ["~user"] ([None]: it cannot be
    determined), the working directory, and the canonical path
    [os.path.realpath] finds for an absolute path when it follows the
    symbolic links of the disk. *)
Record Env : Type := MkEnv {
  DATA_ROOT : Path;
  APP_ROOT : Path;
  homedir : string -> option Path;
  cwd : Path;
  realpath : Path -> Path
}.

Definition DATA_PATH (env : Env) : Path := DATA_ROOT env // Path_of_str "song_data.json".
Definition CACHE_DIR (env : Env) : Path := DATA_ROOT env // Path_of_str ".cache".
Definition SONGS_DIR (env : Env) : Path := DATA_ROOT env // Path_of_str "songs".
Definition DEFAULT_DATA_PATH (env : Env) : Path := APP_ROOT env // Path_of_str "song_data.json".
Definition DEFAULT_SONGS_DIR (env : Env) : Path := APP_ROOT env // Path_of_str "songs".

(** [p.expanduser()] *)
Definition expanduser (env : Env) (p : Path) : result Path :=
  if absolute p then Ok p
  else match parts p with
       | seg :: rest =>
           if Str.starts_with_char "~"%char seg then
             match homedir env seg with
             | Some h => Ok (MkPath (absolute h) (parts h ++ rest))
             | None => Raise RuntimeError_home
             end
           else Ok p
       | [] => Ok p
       end.

Fixpoint collapse (acc segs : list string) : list string :=
  match segs with
  | [] => acc
  | seg :: segs' =>
      if String.eqb seg ".." then collapse (removelast acc) segs'
      else collapse (acc ++ [seg]) segs'
  end.

(** [os.path.abspath(p)]: the working directory in front of a relative
    path and the lexical collapse of [".."]. *)
Definition abspath (env : Env) (p : Path) : Path :=
  MkPath true (collapse [] (parts (if absolute p then p else cwd env // p))).

(** [p.resolve(strict=False)]: the working directory in front of a
    relative path, and the canonical path of the result. *)
Definition resolve (env : Env) (p : Path) : Path :=
  realpath env (if absolute p then p else cwd env // p).

(** The lexical normal form of an absolute path. *)
Definition lexical (p : Path) : Path := MkPath true (collapse [] (parts p)).

(** No symbolic link is met on any path: the canonical path is the
    lexical normal form. *)
Definition link_free (env : Env) : Prop :=
  forall p, realpath env p = lexical p.

Fixpoint strip_prefix (pre l : list string) : option (list string) :=
  match pre, l with
  | [], _ => Some l
  | a :: pre', b :: l' => if String.eqb a b then strip_prefix pre' l' else None
  | _ :: _, [] => None
  end.

(** [p.relative_to(base)]; [None] stands for the [ValueError]. *)
Definition relative_to (p base : Path) : option Path :=
  if Bool.eqb (absolute p) (absolute base)
  then match strip_prefix (parts base) (parts p) with
       | Some rest => Some (MkPath false rest)
       | None => None
       end
  else None.

(** The files and directories that exist, by the text of the lexical
    normal form of their path. *)
Definition FS : Type := list string.

(** [p.exists()] *)
Definition exists_ (env : Env) (fs : FS) (p : Path) : bool :=
  existsb (String.eqb (str (abspath env p))) fs.

(** The closure [add_candidate] of [resolve_media_path], on the pair
    ([search_order], [seen]). *)
Definition add_candidate (st : list Path * list string) (candidate : Path)
  : list Path * list string :=
  let key := str candidate in
  if Str.truthy key && negb (existsb (String.eqb key) st.2)
  then (st.1 ++ [candidate], key :: st.2)
  else st.

Definition search_order (env : Env) (path_value : string) (raw : Path) : list Path :=
  let st0 : list Path * list string := ([], []) in
  (if Str.truthy (Str.strip path_value) then
     let st1 :=
       if absolute raw then add_candidate st0 raw
       else
         let s1 := add_candidate st0 (SONGS_DIR env // raw) in
         let s2 :=
           match parts raw with
           | first :: rest =>
               if String.eqb (Str.lower first) "songs" then
                 let stripped :=
                   if Nat.ltb 1 (length (parts raw)) then MkPath false rest
                   else MkPath false [] in
                 match parts stripped with
                 | _ :: _ => add_candidate s1 (SONGS_DIR env // stripped)
                 | [] => s1
                 end
               else s1
           | [] => s1
           end in
         let s3 := add_candidate s2 (APP_ROOT env // raw) in
         add_candidate s3 (DEFAULT_SONGS_DIR env // raw) in
     let filename := name raw in
     if Str.truthy filename then
       add_candidate
         (add_candidate st1 (SONGS_DIR env // Path_of_str filename))
         (DEFAULT_SONGS_DIR env // Path_of_str filename)
     else st1
   else add_candidate st0 (SONGS_DIR env)).1.

(** The [for candidate in search_order] loop. *)
Fixpoint first_existing (env : Env) (fs : FS) (l : list Path) : option Path :=
  match l with
  | [] => None
  | candidate :: l' =>
      let resolved :=
        match expanduser env candidate with
        | Ok r => r
        | Raise _ => candidate
        end in
      if exists_ env fs resolved then Some resolved
      else first_existing env fs l'
  end.

Definition resolve_media_path (env : Env) (fs : FS) (path_value : string)
  : result Path :=
  match expanduser env (Path_of_str path_value) with
  | Raise e => Raise e
  | Ok raw =>
      match first_existing env fs (search_order env path_value raw) with
      | Some resolved => Ok resolved
      | None =>
          if absolute raw then Ok raw
          else if Str.truthy (name raw)
               then Ok (SONGS_DIR env // Path_of_str (name raw))
               else Ok (SONGS_DIR env)
      end
  end.

Definition _serialize_media_path (env : Env) (path : Path) : string :=
  let candidate :=
    match expanduser env path with
    | Ok c => c
    | Raise _ => path
    end in
  match relative_to (resolve env candidate) (resolve env (SONGS_DIR env)) with
  | Some relative => str (Path_of_str "songs" // relative)
  | None => str candidate
  end.

(** A path that [expanduser] leaves alone. *)
Definition tilde_free (p : Path) : bool :=
  absolute p ||
  match parts p with
  | seg :: _ => negb (Str.starts_with_char "~"%char seg)
  | [] => true
  end.

(** A segment as [Path(s)] produces them, other than [".."]. *)
Definition plain_segment (seg : string) : bool :=
  kept_segment seg && negb (String.eqb seg "..") && negb (Str.has_char "/"%char seg).

End Paths.

(** ** Rationals as Python floats *)

Module PyNum.

Definition Qltb (a b : Q) : bool := negb (Qle_bool b a).

(** [max(a, b)] and [min(a, b)] of two floats: Python keeps the first
    argument unless the second is strictly larger (smaller). *)
Definition py_max (a b : Q) : Q := if Qltb a b then b else a.
Definition py_min (a b : Q) : Q := if Qltb b a then b else a.

(** [int(x)]: towards zero. *)
Definition py_int (x : Q) : Z := Z.quot (Qnum x) (Z.pos (Qden x)).

End PyNum.

(** ** The [Song] dataclass and its asset cache *)

Module Assets.
Import PyNum.

Abbreviation Path := Paths.Path.

(** [str.isalnum] on one character, ASCII range. *)
Definition isalnum (c : ascii) : bool :=
  let n := Str.nat_of c in
  ((48 <=? n) && (n <=? 57)) || ((65 <=? n) && (n <=? 90))
  || ((97 <=? n) && (n <=? 122)).

Fixpoint slug_chars (s : string) : string :=
  match s with
  | EmptyString => EmptyString
  | String ch s' =>
      String (if isalnum ch then ch else "-"%char) (slug_chars s')
  end.

Fixpoint lstrip_char (c : ascii) (s : string) : string :=
  match s with
  | EmptyString => EmptyString
  | String d s' => if Ascii.eqb d c then lstrip_char c s' else s
  end.

(** [s.strip(c)] for a one-character set. *)
Definition strip_char (c : ascii) (s : string) : string :=
  String.rev (lstrip_char c (String.rev (lstrip_char c s))).

Definition slugify (value : string) : string :=
  let slug := strip_char "-"%char (slug_chars (Str.lower value)) in
  let slug := Str.join "-" (List.filter Str.truthy (Str.split "-"%char slug)) in
  if Str.truthy slug then slug else "song".

Fixpoint index_of_char (c : ascii) (s : string) : option nat :=
  match s with
  | EmptyString => None
  | String d s' =>
      if Ascii.eqb d c then Some 0
      else match index_of_char c s' with
           | Some i => Some (S i)
           | None => None
           end
  end.

(** [p.stem]: the name without its last suffix. *)
Definition stem (p : Path) : string :=
  let n := Paths.name p in
  match index_of_char "."%char (String.rev n) with
  | Some k =>
      let i := String.length n - 1 - k in
      if Nat.ltb 0 i && Nat.ltb 0 k then String.substring 0 i n else n
  | None => n
  end.

Record Song : Type := MkSong {
  name : string;
  artist : string;
  video_path : Path;
  cache_key : string;
  thumbnail_path : Path;
  audio_path : Path;
  search_key : string;
  _thumbnail_surface : option nat;       (* the loaded surface object, if any *)
  _scaled_cache : list (Z * Z * nat);    (* size -> scaled surface object *)
  loop_enabled : bool;
  duration : Q;
  video_size : Z * Z;
  assets_prepared : bool
}.

Definition set_duration (d : Q) (s : Song) : Song :=
  MkSong (name s) (artist s) (video_path s) (cache_key s) (thumbnail_path s)
    (audio_path s) (search_key s) (_thumbnail_surface s) (_scaled_cache s)
    (loop_enabled s) d (video_size s) (assets_prepared s).

Definition set_video_size (sz : Z * Z) (s : Song) : Song :=
  MkSong (name s) (artist s) (video_path s) (cache_key s) (thumbnail_path s)
    (audio_path s) (search_key s) (_thumbnail_surface s) (_scaled_cache s)
    (loop_enabled s) (duration s) sz (assets_prepared s).

Definition clear_thumbnail (s : Song) : Song :=
  MkSong (name s) (artist s) (video_path s) (cache_key s) (thumbnail_path s)
    (audio_path s) (search_key s) None [] (loop_enabled s) (duration s)
    (video_size s) (assets_prepared s).

Definition set_assets_prepared (b : bool) (s : Song) : Song :=
  MkSong (name s) (artist s) (video_path s) (cache_key s) (thumbnail_path s)
    (audio_path s) (search_key s) (_thumbnail_surface s) (_scaled_cache s)
    (loop_enabled s) (duration s) (video_size s) b.

Definition set_loop_enabled (b : bool) (s : Song) : Song :=
  MkSong (name s) (artist s) (video_path s) (cache_key s) (thumbnail_path s)
    (audio_path s) (search_key s) (_thumbnail_surface s) (_scaled_cache s)
    b (duration s) (video_size s) (assets_prepared s).

(** [Song(name, artist, video_path)]: the generated [__init__] followed by
    [__post_init__]. *)
Definition Song_init (env : Paths.Env) (fs : Paths.FS)
    (name artist : string) (video_path : Path) : result Song :=
  match Paths.expanduser env video_path with
  | Raise e => Raise e
  | Ok video_path =>
      if negb (Paths.exists_ env fs video_path) then Raise FileNotFoundError
      else
        let base := slugify artist +:+ "-" +:+ slugify name in
        let cache_key := if Str.truthy base then base else slugify (stem video_path) in
        Ok (MkSong name artist video_path cache_key
              (Paths.joinpath (Paths.CACHE_DIR env) (Paths.Path_of_str (cache_key +:+ ".jpg")))
              (Paths.joinpath (Paths.CACHE_DIR env) (Paths.Path_of_str (cache_key +:+ ".ogg")))
              (Str.lower name) None [] false 0%Q (0%Z, 0%Z) false)
  end.

(** The derived fields as [__post_init__] sets them; no method assigns
    them afterwards. *)
Definition derived_cache_key (s : Song) : string :=
  let base := slugify (artist s) +:+ "-" +:+ slugify (name s) in
  if Str.truthy base then base else slugify (stem (video_path s)).

Definition post_init_fields (env : Paths.Env) (s : Song) : Prop :=
  cache_key s = derived_cache_key s
  /\ thumbnail_path s
     = Paths.joinpath (Paths.CACHE_DIR env) (Paths.Path_of_str (cache_key s +:+ ".jpg"))
  /\ audio_path s
     = Paths.joinpath (Paths.CACHE_DIR env) (Paths.Path_of_str (cache_key s +:+ ".ogg")).

(** The dataclass [__eq__]: field by field.  Surfaces compare by
    identity, the scaled cache as a dictionary. *)
Definition dict_eqb (d1 d2 : list (Z * Z * nat)) : bool :=
  forallb (fun kv => existsb (fun kv' => bool_decide (kv = kv')) d2) d1
  && forallb (fun kv => existsb (fun kv' => bool_decide (kv = kv')) d1) d2.

Definition Song_eqb (a b : Song) : bool :=
  String.eqb (name a) (name b)
  && String.eqb (artist a) (artist b)
  && bool_decide (video_path a = video_path b)
  && String.eqb (cache_key a) (cache_key b)
  && bool_decide (thumbnail_path a = thumbnail_path b)
  && bool_decide (audio_path a = audio_path b)
  && String.eqb (search_key a) (search_key b)
  && bool_decide (_thumbnail_surface a = _thumbnail_surface b)
  && dict_eqb (_scaled_cache a) (_scaled_cache b)
  && Bool.eqb (loop_enabled a) (loop_enabled b)
  && Qeq_bool (duration a) (duration b)
  && bool_decide (video_size a = video_size b)
  && Bool.eqb (assets_prepared a) (assets_prepared b).

(** What the decoder ([VideoFileClip]) reports about a source video. *)
Record Clip : Type := MkClip {
  clip_duration : option Q;     (* [None]: no or a false [duration] attribute *)
  clip_size : option (Z * Z);   (* [None]: no or an empty [size] *)
  clip_audio : bool;            (* [clip.audio is not None] *)
  clip_frame_ok : Q -> bool     (* [save_frame] at that time succeeds *)
}.

(** [None]: the decoder cannot open the source. *)
Definition Decoder : Type := Path -> option Clip.

Inductive Effect : Type :=
| OpenClip (source : Path)
| SaveFrame (target : Path) (t : Q)
| WriteAudio (target : Path).

(** The file a path denotes. *)
Definition fs_key (env : Paths.Env) (p : Path) : string :=
  Paths.str (Paths.abspath env p).

Definition write_file (env : Paths.Env) (fs : Paths.FS) (p : Path) : Paths.FS :=
  fs_key env p :: fs.

(** [p.mkdir(parents=True, exist_ok=True)] *)
Definition mkdir (env : Paths.Env) (fs : Paths.FS) (p : Path) : Paths.FS :=
  if Paths.exists_ env fs p then fs else write_file env fs p.

(** The state a call leaves behind, whether it returns or raises. *)
Record Outcome : Type := MkOutcome {
  out_song : Song;
  out_fs : Paths.FS;
  out_log : list Effect;
  out_exn : option Exn
}.

Definition frame_time_of (clip_duration : Q) : Q :=
  if Qltb 0 clip_duration then
    let midpoint := (clip_duration / 2)%Q in
    let safe_tail := py_max 0 (clip_duration - (4 # 100))%Q in
    py_max 0 (py_min midpoint safe_tail)
  else 0%Q.

Definition ensure_assets (env : Paths.Env) (dec : Decoder) (fs : Paths.FS)
    (self : Song) : Outcome :=
  let fs := mkdir env fs (Paths.CACHE_DIR env) in
  let needs_thumb := negb (Paths.exists_ env fs (thumbnail_path self)) in
  let needs_audio := negb (Paths.exists_ env fs (audio_path self)) in
  let force_thumb_refresh := negb (assets_prepared self) in
  if negb needs_thumb && negb needs_audio && negb force_thumb_refresh
     && Qltb 0 (duration self)
  then MkOutcome self fs [] None
  else
    match dec (video_path self) with
    | None => MkOutcome self fs [OpenClip (video_path self)] (Some DecodeError)
    | Some clip =>
        let log := [OpenClip (video_path self)] in
        let clip_duration := default 0%Q (clip_duration clip) in
        let self := set_duration clip_duration self in
        let self :=
          match clip_size clip with
          | Some sz => set_video_size sz self
          | None => self
          end in
        let frame_time := frame_time_of clip_duration in
        if (needs_thumb || force_thumb_refresh)
           && negb (clip_frame_ok clip frame_time)
        then MkOutcome self fs log (Some DecodeError)
        else
          let '(self, fs, log) :=
            if needs_thumb || force_thumb_refresh
            then (clear_thumbnail self,
                  write_file env fs (thumbnail_path self),
                  log ++ [SaveFrame (thumbnail_path self) frame_time])
            else (self, fs, log) in
          if needs_audio && negb (clip_audio clip)
          then MkOutcome self fs log (Some NoAudioTrack)
          else
            let '(fs, log) :=
              if needs_audio
              then (write_file env fs (audio_path self),
                    log ++ [WriteAudio (audio_path self)])
              else (fs, log) in
            let self :=
              if Qle_bool (duration self) 0 then set_duration 1%Q self
              else self in
            MkOutcome (set_assets_prepared true self) fs log None
    end.

(** The tests [ensure_assets] makes, named. *)
Definition thumb_wanted (env : Paths.Env) (fs : Paths.FS) (self : Song) : bool :=
  negb (Paths.exists_ env (mkdir env fs (Paths.CACHE_DIR env)) (thumbnail_path self))
  || negb (assets_prepared self).

Definition audio_wanted (env : Paths.Env) (fs : Paths.FS) (self : Song) : bool :=
  negb (Paths.exists_ env (mkdir env fs (Paths.CACHE_DIR env)) (audio_path self)).

Definition up_to_date (env : Paths.Env) (fs : Paths.FS) (self : Song) : bool :=
  let fs := mkdir env fs (Paths.CACHE_DIR env) in
  Paths.exists_ env fs (thumbnail_path self)
  && Paths.exists_ env fs (audio_path self)
  && assets_prepared self
  && Qltb 0 (duration self).

(** The song once the clip's duration and size are read. *)
Definition measured (clip : Clip) (self : Song) : Song :=
  let self := set_duration (default 0%Q (clip_duration clip)) self in
  match clip_size clip with
  | Some sz => set_video_size sz self
  | None => self
  end.

(** The fields no method of the transport assigns after construction,
    and the loop flag, which only the loop control toggles. *)
Definition stable_fields (s s' : Song) : Prop :=
  name s' = name s /\ artist s' = artist s /\ video_path s' = video_path s
  /\ cache_key s' = cache_key s /\ thumbnail_path s' = thumbnail_path s
  /\ audio_path s' = audio_path s /\ search_key s' = search_key s
  /\ loop_enabled s' = loop_enabled s.

Definition audio_writes (log : list Effect) : nat :=
  length (List.filter (fun e => match e with WriteAudio _ => true | _ => false end) log).

End Assets.

(** ** The playback transport ([PypifyApp])

    The application state holds the song objects by reference: the lists
    ([songs], [filtered_songs], [shuffle_queue], ...) and [current_song]
    share them, so a mutation made by [ensure_assets] or a loop toggle is
    seen through every list.  The mixer and the pygame event queue are part
    of the state; what the decoder and the audio device accept is given by
    the [World].  The layout of the cards ([_layout_cards]) is on-screen
    rendering and is left out. *)

Module Transport.
Import PyNum.

Abbreviation Song := Assets.Song.
Definition SongRef : Type := nat.
Definition PAGE_SIZE : Z := 5.

(** What the program cannot decide: the environment of the process, the
    decoder, and which files the audio device loads and plays. *)
Record World : Type := MkWorld {
  env : Paths.Env;
  decoder : Assets.Decoder;
  can_load : Paths.Path -> bool;
  can_play : Paths.Path -> Q -> bool
}.

(** [pygame.mixer.music] *)
Record Mixer : Type := MkMixer {
  music_loaded : option Paths.Path;
  music_playing : bool;       (* a stream was started and has not ended *)
  music_paused : bool;
  endevent_enabled : bool;    (* [set_endevent(MUSIC_END_EVENT)] is in force *)
  music_volume : Q
}.

Definition mixer_set_music_loaded (v : option Paths.Path) (m : Mixer) : Mixer :=
  MkMixer v (music_playing m) (music_paused m) (endevent_enabled m) (music_volume m).

Definition mixer_set_music_playing (v : bool) (m : Mixer) : Mixer :=
  MkMixer (music_loaded m) v (music_paused m) (endevent_enabled m) (music_volume m).

Definition mixer_set_music_paused (v : bool) (m : Mixer) : Mixer :=
  MkMixer (music_loaded m) (music_playing m) v (endevent_enabled m) (music_volume m).

Definition mixer_set_endevent_enabled (v : bool) (m : Mixer) : Mixer :=
  MkMixer (music_loaded m) (music_playing m) (music_paused m) v (music_volume m).

Definition mixer_set_music_volume (v : Q) (m : Mixer) : Mixer :=
  MkMixer (music_loaded m) (music_playing m) (music_paused m) (endevent_enabled m) v.

(** [VideoSession] *)
Record VideoSession : Type := MkVideoSession {
  vs_clip : option Paths.Path;           (* the open decode handle *)
  vs_song : option SongRef;
  vs_cached_surface : option Q;
  vs_last_timestamp : Q
}.

Record App : Type := MkApp {
  heap : SongRef -> Song;   (* the song objects, by reference *)
  fs : Paths.FS;   (* the files that exist *)
  mixer : Mixer;   (* pygame.mixer.music *)
  pending_end_events : nat;   (* MUSIC_END_EVENT entries in the pygame event queue *)
  clock : Z;   (* pygame.time.get_ticks(), in milliseconds *)
  rng : list nat;   (* the draws random.shuffle will make *)
  songs : list SongRef;
  filtered_songs : list SongRef;
  display_songs : list SongRef;
  visible_song_limit : Z;
  video_session : VideoSession;
  current_song : option SongRef;
  is_paused : bool;
  play_start_ticks : Z;
  play_start_position : Q;
  shuffle_active : bool;
  shuffle_queue : list SongRef;
  search_query : string;
  volume : Q;
  video_fullscreen : bool;
  dragging_progress_card : option SongRef;   (* the song of the dragged card *)
  dragging_fullscreen_progress : bool;
  suppress_end_event : bool
}.

Definition set_heap (v : SongRef -> Song) (a : App) : App :=
  MkApp v (fs a) (mixer a) (pending_end_events a) (clock a) (rng a)
    (songs a) (filtered_songs a) (display_songs a) (visible_song_limit a)
    (video_session a) (current_song a) (is_paused a) (play_start_ticks a)
    (play_start_position a) (shuffle_active a) (shuffle_queue a)
    (search_query a) (volume a) (video_fullscreen a)
    (dragging_progress_card a) (dragging_fullscreen_progress a)
    (suppress_end_event a).

Definition set_fs (v : Paths.FS) (a : App) : App :=
  MkApp (heap a) v (mixer a) (pending_end_events a) (clock a) (rng a)
    (songs a) (filtered_songs a) (display_songs a) (visible_song_limit a)
    (video_session a) (current_song a) (is_paused a) (play_start_ticks a)
    (play_start_position a) (shuffle_active a) (shuffle_queue a)
    (search_query a) (volume a) (video_fullscreen a)
    (dragging_progress_card a) (dragging_fullscreen_progress a)
    (suppress_end_event a).

Definition set_mixer (v : Mixer) (a : App) : App :=
  MkApp (heap a) (fs a) v (pending_end_events a) (clock a) (rng a) (songs a)
    (filtered_songs a) (display_songs a) (visible_song_limit a)
    (video_session a) (current_song a) (is_paused a) (play_start_ticks a)
    (play_start_position a) (shuffle_active a) (shuffle_queue a)
    (search_query a) (volume a) (video_fullscreen a)
    (dragging_progress_card a) (dragging_fullscreen_progress a)
    (suppress_end_event a).

Definition set_pending_end_events (v : nat) (a : App) : App :=
  MkApp (heap a) (fs a) (mixer a) v (clock a) (rng a) (songs a)
    (filtered_songs a) (display_songs a) (visible_song_limit a)
    (video_session a) (current_song a) (is_paused a) (play_start_ticks a)
    (play_start_position a) (shuffle_active a) (shuffle_queue a)
    (search_query a) (volume a) (video_fullscreen a)
    (dragging_progress_card a) (dragging_fullscreen_progress a)
    (suppress_end_event a).

Definition set_clock (v : Z) (a : App) : App :=
  MkApp (heap a) (fs a) (mixer a) (pending_end_events a) v (rng a) (songs a)
    (filtered_songs a) (display_songs a) (visible_song_limit a)
    (video_session a) (current_song a) (is_paused a) (play_start_ticks a)
    (play_start_position a) (shuffle_active a) (shuffle_queue a)
    (search_query a) (volume a) (video_fullscreen a)
    (dragging_progress_card a) (dragging_fullscreen_progress a)
    (suppress_end_event a).

Definition set_rng (v : list nat) (a : App) : App :=
  MkApp (heap a) (fs a) (mixer a) (pending_end_events a) (clock a) v
    (songs a) (filtered_songs a) (display_songs a) (visible_song_limit a)
    (video_session a) (current_song a) (is_paused a) (play_start_ticks a)
    (play_start_position a) (shuffle_active a) (shuffle_queue a)
    (search_query a) (volume a) (video_fullscreen a)
    (dragging_progress_card a) (dragging_fullscreen_progress a)
    (suppress_end_event a).

Definition set_songs (v : list SongRef) (a : App) : App :=
  MkApp (heap a) (fs a) (mixer a) (pending_end_events a) (clock a) (rng a) v
    (filtered_songs a) (display_songs a) (visible_song_limit a)
    (video_session a) (current_song a) (is_paused a) (play_start_ticks a)
    (play_start_position a) (shuffle_active a) (shuffle_queue a)
    (search_query a) (volume a) (video_fullscreen a)
    (dragging_progress_card a) (dragging_fullscreen_progress a)
    (suppress_end_event a).

Definition set_filtered_songs (v : list SongRef) (a : App) : App :=
  MkApp (heap a) (fs a) (mixer a) (pending_end_events a) (clock a) (rng a)
    (songs a) v (display_songs a) (visible_song_limit a) (video_session a)
    (current_song a) (is_paused a) (play_start_ticks a)
    (play_start_position a) (shuffle_active a) (shuffle_queue a)
    (search_query a) (volume a) (video_fullscreen a)
    (dragging_progress_card a) (dragging_fullscreen_progress a)
    (suppress_end_event a).

Definition set_display_songs (v : list SongRef) (a : App) : App :=
  MkApp (heap a) (fs a) (mixer a) (pending_end_events a) (clock a) (rng a)
    (songs a) (filtered_songs a) v (visible_song_limit a) (video_session a)
    (current_song a) (is_paused a) (play_start_ticks a)
    (play_start_position a) (shuffle_active a) (shuffle_queue a)
    (search_query a) (volume a) (video_fullscreen a)
    (dragging_progress_card a) (dragging_fullscreen_progress a)
    (suppress_end_event a).

Definition set_visible_song_limit (v : Z) (a : App) : App :=
  MkApp (heap a) (fs a) (mixer a) (pending_end_events a) (clock a) (rng a)
    (songs a) (filtered_songs a) (display_songs a) v (video_session a)
    (current_song a) (is_paused a) (play_start_ticks a)
    (play_start_position a) (shuffle_active a) (shuffle_queue a)
    (search_query a) (volume a) (video_fullscreen a)
    (dragging_progress_card a) (dragging_fullscreen_progress a)
    (suppress_end_event a).

Definition set_video_session (v : VideoSession) (a : App) : App :=
  MkApp (heap a) (fs a) (mixer a) (pending_end_events a) (clock a) (rng a)
    (songs a) (filtered_songs a) (display_songs a) (visible_song_limit a) v
    (current_song a) (is_paused a) (play_start_ticks a)
    (play_start_position a) (shuffle_active a) (shuffle_queue a)
    (search_query a) (volume a) (video_fullscreen a)
    (dragging_progress_card a) (dragging_fullscreen_progress a)
    (suppress_end_event a).

Definition set_current_song (v : option SongRef) (a : App) : App :=
  MkApp (heap a) (fs a) (mixer a) (pending_end_events a) (clock a) (rng a)
    (songs a) (filtered_songs a) (display_songs a) (visible_song_limit a)
    (video_session a) v (is_paused a) (play_start_ticks a)
    (play_start_position a) (shuffle_active a) (shuffle_queue a)
    (search_query a) (volume a) (video_fullscreen a)
    (dragging_progress_card a) (dragging_fullscreen_progress a)
    (suppress_end_event a).

Definition set_is_paused (v : bool) (a : App) : App :=
  MkApp (heap a) (fs a) (mixer a) (pending_end_events a) (clock a) (rng a)
    (songs a) (filtered_songs a) (display_songs a) (visible_song_limit a)
    (video_session a) (current_song a) v (play_start_ticks a)
    (play_start_position a) (shuffle_active a) (shuffle_queue a)
    (search_query a) (volume a) (video_fullscreen a)
    (dragging_progress_card a) (dragging_fullscreen_progress a)
    (suppress_end_event a).

Definition set_play_start_ticks (v : Z) (a : App) : App :=
  MkApp (heap a) (fs a) (mixer a) (pending_end_events a) (clock a) (rng a)
    (songs a) (filtered_songs a) (display_songs a) (visible_song_limit a)
    (video_session a) (current_song a) (is_paused a) v
    (play_start_position a) (shuffle_active a) (shuffle_queue a)
    (search_query a) (volume a) (video_fullscreen a)
    (dragging_progress_card a) (dragging_fullscreen_progress a)
    (suppress_end_event a).

Definition set_play_start_position (v : Q) (a : App) : App :=
  MkApp (heap a) (fs a) (mixer a) (pending_end_events a) (clock a) (rng a)
    (songs a) (filtered_songs a) (display_songs a) (visible_song_limit a)
    (video_session a) (current_song a) (is_paused a) (play_start_ticks a) v
    (shuffle_active a) (shuffle_queue a) (search_query a) (volume a)
    (video_fullscreen a) (dragging_progress_card a)
    (dragging_fullscreen_progress a) (suppress_end_event a).

Definition set_shuffle_active (v : bool) (a : App) : App :=
  MkApp (heap a) (fs a) (mixer a) (pending_end_events a) (clock a) (rng a)
    (songs a) (filtered_songs a) (display_songs a) (visible_song_limit a)
    (video_session a) (current_song a) (is_paused a) (play_start_ticks a)
    (play_start_position a) v (shuffle_queue a) (search_query a) (volume a)
    (video_fullscreen a) (dragging_progress_card a)
    (dragging_fullscreen_progress a) (suppress_end_event a).

Definition set_shuffle_queue (v : list SongRef) (a : App) : App :=
  MkApp (heap a) (fs a) (mixer a) (pending_end_events a) (clock a) (rng a)
    (songs a) (filtered_songs a) (display_songs a) (visible_song_limit a)
    (video_session a) (current_song a) (is_paused a) (play_start_ticks a)
    (play_start_position a) (shuffle_active a) v (search_query a) (volume a)
    (video_fullscreen a) (dragging_progress_card a)
    (dragging_fullscreen_progress a) (suppress_end_event a).

Definition set_search_query (v : string) (a : App) : App :=
  MkApp (heap a) (fs a) (mixer a) (pending_end_events a) (clock a) (rng a)
    (songs a) (filtered_songs a) (display_songs a) (visible_song_limit a)
    (video_session a) (current_song a) (is_paused a) (play_start_ticks a)
    (play_start_position a) (shuffle_active a) (shuffle_queue a) v
    (volume a) (video_fullscreen a) (dragging_progress_card a)
    (dragging_fullscreen_progress a) (suppress_end_event a).

Definition set_volume (v : Q) (a : App) : App :=
  MkApp (heap a) (fs a) (mixer a) (pending_end_events a) (clock a) (rng a)
    (songs a) (filtered_songs a) (display_songs a) (visible_song_limit a)
    (video_session a) (current_song a) (is_paused a) (play_start_ticks a)
    (play_start_position a) (shuffle_active a) (shuffle_queue a)
    (search_query a) v (video_fullscreen a) (dragging_progress_card a)
    (dragging_fullscreen_progress a) (suppress_end_event a).

Definition set_video_fullscreen (v : bool) (a : App) : App :=
  MkApp (heap a) (fs a) (mixer a) (pending_end_events a) (clock a) (rng a)
    (songs a) (filtered_songs a) (display_songs a) (visible_song_limit a)
    (video_session a) (current_song a) (is_paused a) (play_start_ticks a)
    (play_start_position a) (shuffle_active a) (shuffle_queue a)
    (search_query a) (volume a) v (dragging_progress_card a)
    (dragging_fullscreen_progress a) (suppress_end_event a).

Definition set_dragging_progress_card (v : option SongRef) (a : App) : App :=
  MkApp (heap a) (fs a) (mixer a) (pending_end_events a) (clock a) (rng a)
    (songs a) (filtered_songs a) (display_songs a) (visible_song_limit a)
    (video_session a) (current_song a) (is_paused a) (play_start_ticks a)
    (play_start_position a) (shuffle_active a) (shuffle_queue a)
    (search_query a) (volume a) (video_fullscreen a) v
    (dragging_fullscreen_progress a) (suppress_end_event a).

Definition set_dragging_fullscreen_progress (v : bool) (a : App) : App :=
  MkApp (heap a) (fs a) (mixer a) (pending_end_events a) (clock a) (rng a)
    (songs a) (filtered_songs a) (display_songs a) (visible_song_limit a)
    (video_session a) (current_song a) (is_paused a) (play_start_ticks a)
    (play_start_position a) (shuffle_active a) (shuffle_queue a)
    (search_query a) (volume a) (video_fullscreen a)
    (dragging_progress_card a) v (suppress_end_event a).

Definition set_suppress_end_event (v : bool) (a : App) : App :=
  MkApp (heap a) (fs a) (mixer a) (pending_end_events a) (clock a) (rng a)
    (songs a) (filtered_songs a) (display_songs a) (visible_song_limit a)
    (video_session a) (current_song a) (is_paused a) (play_start_ticks a)
    (play_start_position a) (shuffle_active a) (shuffle_queue a)
    (search_query a) (volume a) (video_fullscreen a)
    (dragging_progress_card a) (dragging_fullscreen_progress a) v.

(** *** Computations that may raise *)

Definition M (A : Type) : Type := App -> result A * App.

Definition ret {A} (x : A) : M A := fun a => (Ok x, a).

Definition raise {A} (e : Exn) : M A := fun a => (Raise e, a).

Definition bind {A B} (m : M A) (k : A -> M B) : M B :=
  fun a =>
    match m a with
    | (Ok x, a') => k x a'
    | (Raise e, a') => (Raise e, a')
    end.

Definition modify (f : App -> App) : M unit := fun a => (Ok tt, f a).

Definition gets {A} (f : App -> A) : M A := fun a => (Ok (f a), a).

Notation "x <- m ;; k" := (bind m (fun x => k))
  (at level 100, m at next level, right associativity).
Notation "m ;;; k" := (bind m (fun _ => k))
  (at level 100, right associativity).

(** [try: m  except Exception: pass] *)
Definition try_except_pass (m : M unit) : M unit :=
  fun a => (Ok tt, (m a).2).

(** [try: m  except pygame.error: ...]: [false] when the handler ran. *)
Definition try_except_pygame (m : M unit) : M bool :=
  fun a =>
    match m a with
    | (Ok _, a') => (Ok true, a')
    | (Raise PygameError, a') => (Ok false, a')
    | (Raise e, a') => (Raise e, a')
    end.

Definition when (b : bool) (m : M unit) : M unit := if b then m else ret tt.

(** *** Songs by reference *)

Definition update_song (r : SongRef) (s : Song) (a : App) : App :=
  set_heap (fun r' => if Nat.eqb r' r then s else heap a r') a.

(** [x == y] on two song objects: the same object, or equal fields. *)
Definition song_eq (h : SongRef -> Song) (x y : SongRef) : bool :=
  Nat.eqb x y || Assets.Song_eqb (h x) (h y).

(** [x == y] where [x] may be [None]. *)
Definition opt_song_eq (h : SongRef -> Song) (x : option SongRef) (y : SongRef) : bool :=
  match x with
  | Some x => song_eq h x y
  | None => false
  end.

(** [song in collection] *)
Definition song_in (h : SongRef -> Song) (song : SongRef) (l : list SongRef) : bool :=
  existsb (fun item => song_eq h item song) l.

(** [item for item in collection if item != song] *)
Definition without_song (h : SongRef -> Song) (song : SongRef) (l : list SongRef)
  : list SongRef :=
  List.filter (fun item => negb (song_eq h item song)) l.

(** [collection.index(song)]; [None] stands for the [ValueError]. *)
Fixpoint song_index (h : SongRef -> Song) (song : SongRef) (l : list SongRef) : option nat :=
  match l with
  | [] => None
  | item :: l' =>
      if song_eq h item song then Some 0
      else match song_index h song l' with
           | Some i => Some (S i)
           | None => None
           end
  end.

(** [song.ensure_assets()] on the shared object. *)
Definition song_ensure_assets (w : World) (song : SongRef) : M unit :=
  fun a =>
    let o := Assets.ensure_assets (env w) (decoder w) (fs a) (heap a song) in
    let a' := set_fs (Assets.out_fs o) (update_song song (Assets.out_song o) a) in
    match Assets.out_exn o with
    | None => (Ok tt, a')
    | Some e => (Raise e, a')
    end.

(** *** The mixer and the event queue *)

Definition on_mixer (f : Mixer -> Mixer) : M unit :=
  modify (fun a => set_mixer (f (mixer a)) a).

(** [pygame.mixer.music.get_busy()]: playing and not paused. *)
Definition get_busy (m : Mixer) : bool := music_playing m && negb (music_paused m).

(** [set_endevent(MUSIC_END_EVENT)] and [set_endevent()] *)
Definition music_set_endevent (enabled : bool) : M unit :=
  on_mixer (mixer_set_endevent_enabled enabled).

(** [pygame.mixer.music.stop()]: halting a stream posts the end event,
    when one is set. *)
Definition music_stop : M unit :=
  modify (fun a =>
    let m := mixer a in
    let posted := if music_playing m && endevent_enabled m then 1 else 0 in
    set_mixer (mixer_set_music_paused false (mixer_set_music_playing false m))
      (set_pending_end_events (posted + pending_end_events a) a)).

(** [pygame.event.clear(MUSIC_END_EVENT)]: the end events still in the
    queue are discarded.  [pending_end_events] counts those only: an
    event that [pygame.event.get()] has already handed to the loop of
    [run] is not in the queue any more. *)
Definition event_clear_music_end : M unit := modify (set_pending_end_events 0).

Definition music_load (w : World) (file : Paths.Path) : M unit :=
  if can_load w file
  then on_mixer (fun m => mixer_set_music_loaded (Some file)
                            (mixer_set_music_paused false
                               (mixer_set_music_playing false m)))
  else raise PygameError.

(** [pygame.mixer.music.play(loops=0, start=start)] *)
Definition music_play (w : World) (start : Q) : M unit :=
  fun a =>
    match music_loaded (mixer a) with
    | Some file =>
        if can_play w file start
        then on_mixer (fun m => mixer_set_music_paused false
                                  (mixer_set_music_playing true m)) a
        else raise PygameError a
    | None => raise PygameError a
    end.

Definition music_pause : M unit := on_mixer (mixer_set_music_paused true).
Definition music_unpause : M unit := on_mixer (mixer_set_music_paused false).
(** The volume the mixer keeps when it is given [v]: a number of steps
    of 1/128, [int(v * 128)], 128 at most; a negative number of steps
    leaves the volume [old] it had. *)
Definition mixer_volume (v old : Q) : Q :=
  let steps := py_int (v * 128) in
  if (steps <? 0)%Z then old else (inject_Z (Z.min steps 128) / 128)%Q.

(** [pygame.mixer.music.set_volume(v)] *)
Definition music_set_volume (v : Q) : M unit :=
  on_mixer (fun m => mixer_set_music_volume (mixer_volume v (music_volume m)) m).

(** The device finishes the track on its own: the end event is posted. *)
Definition track_finished (a : App) : App :=
  let m := mixer a in
  if get_busy m then
    let posted := if endevent_enabled m then 1 else 0 in
    set_mixer (mixer_set_music_playing false m)
      (set_pending_end_events (posted + pending_end_events a) a)
  else a.

(** *** The video session *)

Definition unloaded : VideoSession := MkVideoSession None None None (-1)%Q.

Definition video_unload : M unit := modify (set_video_session unloaded).

Definition video_load (w : World) (song : SongRef) : M unit :=
  fun a =>
    let vs := video_session a in
    if opt_song_eq (heap a) (vs_song vs) song && bool_decide (vs_clip vs <> None)
    then (Ok tt, a)
    else
      (video_unload ;;;
       fun a =>
         match decoder w (Assets.video_path (heap a song)) with
         | Some _ =>
             (Ok tt, set_video_session
                       (MkVideoSession (Some (Assets.video_path (heap a song)))
                          (Some song) None (-1)%Q) a)
         | None => (Raise DecodeError, a)
         end) a.

(** *** The library views *)

Definition _search_base (a : App) : list SongRef :=
  let query := Str.strip (Str.lower (search_query a)) in
  if negb (Str.truthy query) then songs a
  else List.filter (fun song => Str.contains query (Assets.search_key (heap a song)))
         (songs a).

Fixpoint _prepare_visible_assets_loop (w : World) (l : list SongRef) : M unit :=
  match l with
  | [] => ret tt
  | song :: l' =>
      try_except_pass (song_ensure_assets w song) ;;;
      _prepare_visible_assets_loop w l'
  end.

Definition _prepare_visible_assets (w : World) : M unit :=
  fun a => _prepare_visible_assets_loop w (display_songs a) a.

Definition _refresh_display_songs (w : World) : M unit :=
  modify (fun a =>
    if (visible_song_limit a <=? 0)%Z then set_display_songs [] a
    else
      let limit := Z.min (visible_song_limit a) (Z.of_nat (length (filtered_songs a))) in
      set_display_songs (take (Z.to_nat limit) (filtered_songs a)) a) ;;;
  _prepare_visible_assets w.

Definition _apply_search (w : World) (reset_visible : bool) : M unit :=
  modify (fun a =>
    let base := _search_base a in
    let a := set_shuffle_active false a in
    let a := set_shuffle_queue [] a in
    let a := set_filtered_songs base a in
    if reset_visible || (visible_song_limit a <=? 0)%Z then
      set_visible_song_limit
        (match filtered_songs a with
         | [] => 0%Z
         | _ => Z.min PAGE_SIZE (Z.of_nat (length (filtered_songs a)))
         end) a
    else
      set_visible_song_limit
        (Z.min (Z.max (visible_song_limit a) PAGE_SIZE)
           (Z.of_nat (length (filtered_songs a)))) a) ;;;
  _refresh_display_songs w.

Definition _ensure_song_visible (w : World) (song : SongRef) : M unit :=
  fun a =>
    match song_index (heap a) song (filtered_songs a) with
    | None => (Ok tt, a)
    | Some index =>
        if (Z.of_nat index <? visible_song_limit a)%Z then (Ok tt, a)
        else
          let new_limit := (Z.of_nat index + 1)%Z in
          let remainder := (new_limit mod PAGE_SIZE)%Z in
          let new_limit :=
            if (remainder =? 0)%Z then new_limit
            else (new_limit + (PAGE_SIZE - remainder))%Z in
          _refresh_display_songs w
            (set_visible_song_limit
               (Z.min new_limit (Z.of_nat (length (filtered_songs a)))) a)
    end.

(** *** The playback clock *)

Definition elapsed_seconds (a : App) : Q :=
  (inject_Z (clock a - play_start_ticks a) / inject_Z 1000)%Q.

Definition _current_playback_time (a : App) : Q :=
  match current_song a with
  | None => 0%Q
  | Some song =>
      if is_paused a
      then py_min (play_start_position a) (Assets.duration (heap a song))
      else py_min (Assets.duration (heap a song))
             (play_start_position a + elapsed_seconds a)%Q
  end.

Definition _clamp_song_position (song : Song) (position : Q) : Q :=
  if Qle_bool (Assets.duration song) 0 then 0%Q
  else
    let upper_bound := py_max 0 (Assets.duration song - (5 # 100))%Q in
    py_max 0 (py_min position upper_bound).

(** *** Transport *)

(** [_start_song] once the assets are ensured: the [try] block on the
    device and what follows it.  The call is one step of the model: the
    stream that [play] starts does not reach its end before the call
    returns. *)
Definition _start_song_device (w : World) (song : SongRef) (clamped_position : Q)
    (play_immediately : bool) : M unit :=
  completed <- try_except_pygame
    (busy <- gets (fun a => get_busy (mixer a)) ;;
     when busy (modify (set_suppress_end_event true)) ;;;
     music_set_endevent false ;;;
     music_stop ;;;
     event_clear_music_end ;;;
     music_set_endevent true ;;;
     audio_path <- gets (fun a => Assets.audio_path (heap a song)) ;;
     music_load w audio_path ;;;
     music_play w clamped_position) ;;
  if negb completed then ret tt
  else
    volume <- gets volume ;;
    music_set_volume volume ;;;
    modify (set_current_song (Some song)) ;;;
    modify (set_play_start_position clamped_position) ;;;
    modify (fun a => set_play_start_ticks (clock a) a) ;;;
    (if play_immediately then modify (set_is_paused false)
     else modify (set_is_paused true) ;;; music_pause) ;;;
    modify (fun a =>
      if song_in (heap a) song (shuffle_queue a)
      then set_shuffle_queue (without_song (heap a) song (shuffle_queue a)) a
      else a) ;;;
    try_except_pass (video_load w song) ;;;
    modify (set_suppress_end_event false).

Definition _start_song (w : World) (song : SongRef) (start_position : Q)
    (play_immediately : bool) : M unit :=
  clamped_position <- gets (fun a => _clamp_song_position (heap a song) start_position) ;;
  audio_exists <- gets (fun a => Paths.exists_ (env w) (fs a) (Assets.audio_path (heap a song))) ;;
  when (negb audio_exists) (song_ensure_assets w song) ;;;
  _start_song_device w song clamped_position play_immediately.

(** [ratio * (song.duration if song.duration > 0 else 0.0)] after
    [ratio = max(0.0, min(1.0, ratio))]. *)
Definition seek_target (song : Song) (ratio : Q) : Q :=
  let ratio := py_max 0 (py_min 1 ratio) in
  (ratio * (if Qltb 0 (Assets.duration song) then Assets.duration song else 0))%Q.

Definition seek_song (w : World) (song : SongRef) (ratio : Q) : M unit :=
  target_position <- gets (fun a => seek_target (heap a song) ratio) ;;
  modify (fun a =>
    if negb (opt_song_eq (heap a) (current_song a) song)
    then set_shuffle_queue [] (set_shuffle_active false a) else a) ;;;
  was_paused <- gets (fun a =>
    if opt_song_eq (heap a) (current_song a) song then is_paused a else false) ;;
  _start_song w song target_position (negb was_paused).

Definition play_song (w : World) (song : SongRef) (preserve_queue : bool) : M unit :=
  when (negb preserve_queue)
    (modify (fun a => set_shuffle_queue [] (set_shuffle_active false a))) ;;;
  _ensure_song_visible w song ;;;
  _start_song w song 0%Q true ;;;
  modify (fun a => set_dragging_fullscreen_progress false
                     (set_dragging_progress_card None a)).

Definition _toggle_song_pause (w : World) (song : SongRef) : M unit :=
  fun a =>
    if negb (opt_song_eq (heap a) (current_song a) song) then
      (modify (fun a => set_shuffle_queue [] (set_shuffle_active false a)) ;;;
       play_song w song false) a
    else if is_paused a then
      (music_unpause ;;;
       modify (fun a => set_play_start_ticks (clock a) a) ;;;
       modify (set_is_paused false)) a
    else
      (modify (fun a =>
         match current_song a with
         | Some current =>
             set_play_start_position
               (py_min (Assets.duration (heap a current))
                  (play_start_position a + elapsed_seconds a)%Q) a
         | None => a
         end) ;;;
       music_pause ;;;
       modify (set_is_paused true)) a.

Definition stop_song : M unit :=
  busy <- gets (fun a => get_busy (mixer a)) ;;
  when busy (modify (set_suppress_end_event true)) ;;;
  music_set_endevent false ;;;
  music_stop ;;;
  event_clear_music_end ;;;
  music_set_endevent true ;;;
  modify (set_is_paused false) ;;;
  modify (set_current_song None) ;;;
  modify (set_play_start_ticks 0%Z) ;;;
  modify (set_play_start_position 0%Q) ;;;
  modify (set_shuffle_active false) ;;;
  modify (set_shuffle_queue []) ;;;
  video_unload ;;;
  modify (set_video_fullscreen false) ;;;
  modify (set_suppress_end_event false).

(** [x[i], x[j] = x[j], x[i]] *)
Definition swap (i j : nat) (x : list SongRef) : list SongRef :=
  match x !! i, x !! j with
  | Some xi, Some xj => <[j:=xi]> (<[i:=xj]> x)
  | _, _ => x
  end.

(** The loop of [random.shuffle]: for [i] from [len(x) - 1] down to 1,
    swap [x[i]] with [x[randbelow(i + 1)]]. *)
Fixpoint shuffle_loop (i : nat) (draws : list nat) (x : list SongRef)
  : list SongRef * list nat :=
  match i with
  | 0 => (x, draws)
  | S i' =>
      let j := (hd 0 draws) mod (S i) in
      shuffle_loop i' (tl draws) (swap i j x)
  end.

Definition random_shuffle (x : list SongRef) : M (list SongRef) :=
  fun a =>
    let (order, draws) := shuffle_loop (length x - 1) (rng a) x in
    (Ok order, set_rng draws a).

Definition start_shuffle (w : World) : M unit :=
  base <- gets _search_base ;;
  match base with
  | [] => ret tt
  | _ =>
      order <- random_shuffle base ;;
      modify (set_shuffle_active true) ;;;
      modify (set_shuffle_queue (drop 1 order)) ;;;
      modify (set_filtered_songs order) ;;;
      modify (set_visible_song_limit (Z.min PAGE_SIZE (Z.of_nat (length order)))) ;;;
      _refresh_display_songs w ;;;
      match order with
      | first :: _ => play_song w first true
      | [] => raise IndexError
      end
  end.

Definition play_next_song (w : World) : M unit :=
  fun a =>
    match filtered_songs a with
    | [] => stop_song a
    | first :: _ =>
        match current_song a with
        | None => play_song w first true a
        | Some current =>
            match song_index (heap a) current (filtered_songs a) with
            | None => play_song w first true a
            | Some idx =>
                let next_idx := S idx in
                if Nat.leb (length (filtered_songs a)) next_idx
                   && negb (shuffle_active a)
                then stop_song a
                else
                  let next_idx :=
                    if Nat.leb (length (filtered_songs a)) next_idx then 0 else next_idx in
                  match filtered_songs a !! next_idx with
                  | Some next => play_song w next true a
                  | None => stop_song a
                  end
            end
        end
    end.

(** What an end-of-track signal does once it is not suppressed. *)
Definition song_end_transition (w : World) : M unit :=
  fun a =>
    let looping :=
      match current_song a with
      | Some current => Assets.loop_enabled (heap a current)
      | None => false
      end in
    match current_song a, looping with
    | Some current, true => play_song w current true a
    | _, _ =>
        match shuffle_queue a with
        | next_song :: rest =>
            (modify (set_shuffle_queue rest) ;;; play_song w next_song true) a
        | [] =>
            (when (shuffle_active a)
               (modify (set_shuffle_active false) ;;; _apply_search w false) ;;;
             play_next_song w) a
        end
    end.

Definition _handle_song_end (w : World) : M unit :=
  fun a =>
    if suppress_end_event a
    then (Ok tt, set_suppress_end_event false a)
    else song_end_transition w a.

(** The event loop takes one [MUSIC_END_EVENT] from the queue. *)
Definition deliver_end_event (w : World) : M unit :=
  fun a =>
    match pending_end_events a with
    | S n => _handle_song_end w (set_pending_end_events n a)
    | 0 => (Ok tt, a)
    end.

Definition toggle_loop (song : SongRef) : M unit :=
  modify (fun a =>
    update_song song
      (Assets.set_loop_enabled (negb (Assets.loop_enabled (heap a song))) (heap a song)) a).

(** The decoder can derive the assets of a song: it opens the source,
    finds an audio stream and saves the representative frame. *)
Definition can_prepare (w : World) (s : Song) : bool :=
  match decoder w (Assets.video_path s) with
  | Some clip =>
      Assets.clip_audio clip
      && Assets.clip_frame_ok clip
           (Assets.frame_time_of (default 0%Q (Assets.clip_duration clip)))
  | None => false
  end.

(** A song can be started: its audio derivative exists or can be
    derived, and the device loads it and plays it from the clamped
    position. *)
Definition ready_to_play (w : World) (a : App) (song : SongRef) (start_position : Q) : bool :=
  (Paths.exists_ (env w) (fs a) (Assets.audio_path (heap a song))
   || can_prepare w (heap a song))
  && can_load w (Assets.audio_path (heap a song))
  && can_play w (Assets.audio_path (heap a song))
       (_clamp_song_position (heap a song) start_position).

(** The state [_start_song] leaves when it gets through, [a] being the
    state once the assets are ensured: [song] is the current song,
    anchored at the clamped position; the suppression flag is down and
    no end event is pending. *)
Definition started (a : App) (song : SongRef) (clamped : Q)
    (play_immediately : bool) (a' : App) : Prop :=
  current_song a' = Some song
  /\ play_start_position a' = clamped
  /\ play_start_ticks a' = clock a
  /\ is_paused a' = negb play_immediately
  /\ suppress_end_event a' = false
  /\ pending_end_events a' = 0
  /\ music_playing (mixer a') = true
  /\ music_paused (mixer a') = negb play_immediately
  /\ music_loaded (mixer a') = Some (Assets.audio_path (heap a song))
  /\ shuffle_queue a'
     = (if song_in (heap a) song (shuffle_queue a)
        then without_song (heap a) song (shuffle_queue a)
        else shuffle_queue a)
  /\ heap a' = heap a /\ fs a' = fs a /\ clock a' = clock a
  /\ songs a' = songs a /\ filtered_songs a' = filtered_songs a
  /\ display_songs a' = display_songs a
  /\ visible_song_limit a' = visible_song_limit a
  /\ shuffle_active a' = shuffle_active a
  /\ search_query a' = search_query a /\ rng a' = rng a.

(** What identifies a library entry: two different songs of a list of
    distinct entries are never equal, whatever has been measured. *)
Definition entry_key (s : Song) : string * string * Paths.Path :=
  (Assets.name s, Assets.artist s, Assets.video_path s).

Definition distinct_entries (h : SongRef -> Song) (l : list SongRef) : Prop :=
  NoDup (List.map (fun r => entry_key (h r)) l).

(** The state [stop_song] leaves. *)
Definition stopped (a a' : App) : Prop :=
  current_song a' = None
  /\ is_paused a' = false
  /\ play_start_ticks a' = 0%Z
  /\ play_start_position a' = 0%Q
  /\ shuffle_active a' = false
  /\ shuffle_queue a' = []
  /\ suppress_end_event a' = false
  /\ pending_end_events a' = 0
  /\ music_playing (mixer a') = false
  /\ endevent_enabled (mixer a') = true
  /\ video_session a' = unloaded
  /\ heap a' = heap a /\ fs a' = fs a /\ clock a' = clock a
  /\ songs a' = songs a /\ filtered_songs a' = filtered_songs a.

(** What preparing assets may change between [a] and [a']: the measured
    fields of the songs, the files (which only appear), and the page of
    displayed songs at most. *)
Definition assets_refreshed (w : World) (a a' : App) : Prop :=
  (forall r, Assets.stable_fields (heap a r) (heap a' r))
  /\ (forall p, Paths.exists_ (env w) (fs a) p = true ->
                Paths.exists_ (env w) (fs a') p = true)
  /\ mixer a' = mixer a /\ pending_end_events a' = pending_end_events a
  /\ clock a' = clock a /\ rng a' = rng a /\ songs a' = songs a
  /\ filtered_songs a' = filtered_songs a
  /\ video_session a' = video_session a
  /\ current_song a' = current_song a /\ is_paused a' = is_paused a
  /\ play_start_ticks a' = play_start_ticks a
  /\ play_start_position a' = play_start_position a
  /\ shuffle_active a' = shuffle_active a
  /\ shuffle_queue a' = shuffle_queue a
  /\ search_query a' = search_query a /\ volume a' = volume a
  /\ video_fullscreen a' = video_fullscreen a
  /\ dragging_progress_card a' = dragging_progress_card a
  /\ dragging_fullscreen_progress a' = dragging_fullscreen_progress a
  /\ suppress_end_event a' = suppress_end_event a.

(** The state [play_song] leaves when the song starts: it plays from
    position 0; the queue is the one kept (or cleared), less the song
    itself. *)
Definition played (w : World) (a : App) (song : SongRef)
    (preserve_queue : bool) (a' : App) : Prop :=
  current_song a' = Some song
  /\ play_start_position a' = 0%Q
  /\ play_start_ticks a' = clock a
  /\ is_paused a' = false
  /\ suppress_end_event a' = false
  /\ pending_end_events a' = 0
  /\ music_playing (mixer a') = true
  /\ music_paused (mixer a') = false
  /\ music_loaded (mixer a') = Some (Assets.audio_path (heap a song))
  /\ shuffle_queue a'
     = (let kept := if preserve_queue then shuffle_queue a else [] in
        if song_in (heap a') song kept
        then without_song (heap a') song kept else kept)
  /\ shuffle_active a' = preserve_queue && shuffle_active a
  /\ (forall r, Assets.stable_fields (heap a r) (heap a' r))
  /\ (forall p, Paths.exists_ (env w) (fs a) p = true ->
                Paths.exists_ (env w) (fs a') p = true)
  /\ clock a' = clock a /\ songs a' = songs a
  /\ filtered_songs a' = filtered_songs a
  /\ search_query a' = search_query a /\ rng a' = rng a.

(** *** Runs of the transport

    One step is one call the event loop makes into the transport, on a
    song of the library where the call takes one, or the passing of
    time, or the device finishing its track. *)
Inductive transport_step (w : World) (a : App) : App -> Prop :=
| step_play_song song :
    song ∈ songs a -> transport_step w a (play_song w song false a).2
| step_toggle_song_pause song :
    song ∈ songs a -> transport_step w a (_toggle_song_pause w song a).2
| step_seek_song song ratio :
    song ∈ songs a -> transport_step w a (seek_song w song ratio a).2
| step_stop_song : transport_step w a (stop_song a).2
| step_play_next_song : transport_step w a (play_next_song w a).2
| step_start_shuffle : transport_step w a (start_shuffle w a).2
| step_handle_song_end : transport_step w a (deliver_end_event w a).2
| step_toggle_loop song : transport_step w a (toggle_loop song a).2
| step_search query reset_visible :
    transport_step w a (_apply_search w reset_visible (set_search_query query a)).2
| step_clock t : (clock a <= t)%Z -> transport_step w a (set_clock t a)
| step_track_finished : transport_step w a (track_finished a).

(** The audio device loads and plays every file. *)
Definition device_accepts (w : World) : Prop :=
  forall file start, can_load w file = true /\ can_play w file start = true.

(** A library in order: its songs are distinct entries whose audio
    derivatives exist or can be derived, and the views, the queue and
    the current song are taken from it. *)
Definition library_ok (w : World) (a : App) : Prop :=
  distinct_entries (heap a) (songs a)
  /\ (forall r, r ∈ songs a ->
        Paths.exists_ (env w) (fs a) (Assets.audio_path (heap a r))
        || can_prepare w (heap a r) = true)
  /\ filtered_songs a ⊆ songs a
  /\ shuffle_queue a ⊆ songs a
  /\ (forall c, current_song a = Some c -> c ∈ songs a).

(** What a step keeps of the library: the list of songs, the entry and
    the audio derivative of each song, and the files there are. *)
Definition library_kept (w : World) (a a' : App) : Prop :=
  songs a' = songs a
  /\ (forall r, entry_key (heap a' r) = entry_key (heap a r)
                /\ Assets.audio_path (heap a' r) = Assets.audio_path (heap a r))
  /\ (forall p, Paths.exists_ (env w) (fs a) p = true ->
                Paths.exists_ (env w) (fs a') p = true).

(** A step that keeps the library, takes its views and its queue from
    it, and leaves the current song out of the queue. *)
Definition advances (w : World) (a a' : App) : Prop :=
  library_kept w a a'
  /\ filtered_songs a' ⊆ songs a
  /\ shuffle_queue a' ⊆ songs a
  /\ (forall c, current_song a' = Some c -> c ∈ songs a /\ (c ∉ shuffle_queue a')).

Definition transport_ok (w : World) (a : App) : Prop :=
  library_ok w a
  /\ (forall c, current_song a = Some c -> c ∉ shuffle_queue a).

(** The shuffle queue invariant. *)
Definition current_not_queued (a : App) : Prop :=
  forall c, current_song a = Some c ->
    (c ∉ shuffle_queue a) /\ song_in (heap a) c (shuffle_queue a) = false.

End Transport.

(** ** The song list document ([song_data.json])

    A file that holds a JSON document is modelled by the value
    [json.load] makes of it, and [json.dump] stores the value it is given:
    the text in between is not modelled.  Writing the document is taken to
    succeed. *)

Module Library.

Abbreviation Song := Assets.Song.

#[warnings="-register-all"] Inductive JSON : Type :=
| JNull
| JBool (b : bool)
| JNumber (n : Q)
| JString (s : string)
| JArray (items : list JSON)
| JObject (members : list (string * JSON)).   (* a [dict], in insertion order *)

(** [bool(value)] *)
Definition truthy (value : JSON) : bool :=
  match value with
  | JNull => false
  | JBool b => b
  | JNumber n => negb (Qeq_bool n 0)
  | JString s => Str.truthy s
  | JArray items => match items with [] => false | _ => true end
  | JObject members => match members with [] => false | _ => true end
  end.

(** [members.get(key)] *)
Fixpoint get (key : string) (members : list (string * JSON)) : option JSON :=
  match members with
  | [] => None
  | (k, v) :: rest => if String.eqb k key then Some v else get key rest
  end.

(** [members[key] = value] *)
Fixpoint set_item (key : string) (value : JSON) (members : list (string * JSON))
  : list (string * JSON) :=
  match members with
  | [] => [(key, value)]
  | (k, v) :: rest =>
      if String.eqb k key then (k, value) :: rest
      else (k, v) :: set_item key value rest
  end.

(** [value.get(key)] on a value that is an object. *)
Definition member (key : string) (value : JSON) : option JSON :=
  match value with
  | JObject members => get key members
  | _ => None
  end.

(** The documents on disk, by the file they are in ([Assets.fs_key]);
    [None]: the file cannot be read as a JSON document. *)
Definition Documents : Type := string -> option JSON.

Definition write_document (docs : Documents) (key : string) (payload : JSON)
  : Documents :=
  fun k => if String.eqb k key then Some payload else docs k.

(** What the calls of this module raise. *)
Inductive Failure : Type :=
| Raised (e : Exn)       (* [FileNotFoundError], or raised by the path functions *)
| ReadError              (* [OSError], or a decoding error of [json.load] *)
| AttributeError         (* the value has no [get], or no [strip] *)
| TypeError              (* the value is not iterable *)
| ValueError.            (* [ValueError("No songs defined in song_data.json")] *)

Definition load_song_data (env : Paths.Env) (fs : Paths.FS) (docs : Documents)
    (path : Paths.Path) : Failure + JSON :=
  if negb (Paths.exists_ env fs path) then inl (Raised FileNotFoundError)
  else
    match docs (Assets.fs_key env path) with
    | None => inl ReadError
    | Some (JObject members) =>
        let songs := default (JArray []) (get "songs" members) in
        if negb (truthy songs) then inl ValueError else inr songs
    | Some _ => inl AttributeError
    end.

(** The entry [save_song_data] writes for a song. *)
Definition song_entry (env : Paths.Env) (song : Song) : JSON :=
  JObject [("name", JString (Assets.name song));
           ("artist", JString (Assets.artist song));
           ("pathtovideo",
            JString (Paths._serialize_media_path env (Assets.video_path song)))].

Definition save_song_data (env : Paths.Env) (fs : Paths.FS) (docs : Documents)
    (path : Paths.Path) (songs : list Song) : Paths.FS * Documents :=
  let payload := JObject [("songs", JArray (List.map (song_entry env) songs))] in
  (Assets.write_file env fs path,
   write_document docs (Assets.fs_key env path) payload).

(** *** Building the library ([PypifyApp.__init__]) *)

Fixpoint characters (s : string) : list JSON :=
  match s with
  | EmptyString => []
  | String c s' => JString (String c EmptyString) :: characters s'
  end.

(** [for entry in raw_songs]: the values the loop takes. *)
Definition iterate (raw_songs : JSON) : Failure + list JSON :=
  match raw_songs with
  | JArray items => inr items
  | JString s => inr (characters s)
  | JObject members => inr (List.map (fun kv => JString kv.1) members)
  | _ => inl TypeError
  end.

(** [entry.get(key, "").strip() if isinstance(entry, dict) else ""] *)
Definition entry_text (key : string) (entry : JSON) : Failure + string :=
  match entry with
  | JObject members =>
      match get key members with
      | None => inr ""
      | Some (JString s) => inr (Str.strip s)
      | Some _ => inl AttributeError
      end
  | _ => inr ""
  end.

(** [entry.get("pathtovideo", "") if isinstance(entry, dict) else ""] *)
Definition entry_video (entry : JSON) : JSON :=
  match entry with
  | JObject members => default (JString "") (get "pathtovideo" members)
  | _ => JString ""
  end.

(** One round of the loop: [None] when the entry is skipped. *)
Definition song_of_entry (env : Paths.Env) (fs : Paths.FS) (entry : JSON)
  : Failure + option Song :=
  match entry_text "name" entry with
  | inl e => inl e
  | inr name =>
      match entry_text "artist" entry with
      | inl e => inl e
      | inr artist =>
          inr (match entry_video entry with
               | JString video_value =>
                   match Paths.resolve_media_path env fs video_value with
                   | Ok video_path =>
                       match Assets.Song_init env fs
                               (if Str.truthy name then name else "Untitled Track")
                               (if Str.truthy artist then artist else "Unknown Artist")
                               video_path with
                       | Ok song => Some song
                       | Raise _ => None
                       end
                   | Raise _ => None
                   end
               | _ => None      (* [Path(video_value)] raises [TypeError] *)
               end)
      end
  end.

Fixpoint load_songs (env : Paths.Env) (fs : Paths.FS) (entries : list JSON)
  : Failure + list Song :=
  match entries with
  | [] => inr []
  | entry :: rest =>
      match song_of_entry env fs entry with
      | inl e => inl e
      | inr loaded =>
          match load_songs env fs rest with
          | inl e => inl e
          | inr songs =>
              inr (match loaded with
                   | Some song => song :: songs
                   | None => songs
                   end)
          end
      end
  end.

(** [self.songs] as [__init__] builds it from the document at [path]. *)
Definition init_songs (env : Paths.Env) (fs : Paths.FS) (docs : Documents)
    (path : Paths.Path) : Failure + list Song :=
  match load_song_data env fs docs path with
  | inl e => inl e
  | inr raw_songs =>
      match iterate raw_songs with
      | inl e => inl e
      | inr entries => load_songs env fs entries
      end
  end.

(** *** [_normalize_song_data_file] *)

(** One round of its loop: the entry as the round leaves it, and whether
    the round changed it. *)
Definition normalize_entry (env : Paths.Env) (fs : Paths.FS) (entry : JSON)
  : result (JSON * bool) :=
  match entry with
  | JObject members =>
      match get "pathtovideo" members with
      | Some (JString original) =>
          match Paths.resolve_media_path env fs original with
          | Raise e => Raise e
          | Ok resolved =>
              let resolved_str := Paths._serialize_media_path env resolved in
              if negb (String.eqb original resolved_str)
                 && Paths.exists_ env fs resolved
              then Ok (JObject (set_item "pathtovideo" (JString resolved_str) members),
                       true)
              else Ok (entry, false)
          end
      | _ => Ok (entry, false)
      end
  | _ => Ok (entry, false)
  end.

Fixpoint normalize_entries (env : Paths.Env) (fs : Paths.FS) (songs : list JSON)
  : result (list JSON * bool) :=
  match songs with
  | [] => Ok ([], false)
  | entry :: rest =>
      match normalize_entry env fs entry with
      | Raise e => Raise e
      | Ok (entry', changed) =>
          match normalize_entries env fs rest with
          | Raise e => Raise e
          | Ok (rest', changed') => Ok (entry' :: rest', changed || changed')
          end
      end
  end.

Definition _normalize_song_data_file (env : Paths.Env) (fs : Paths.FS)
    (docs : Documents) (data_path : Paths.Path) : Failure + Documents :=
  if negb (Paths.exists_ env fs data_path) then inr docs
  else
    match docs (Assets.fs_key env data_path) with
    | None => inr docs
    | Some (JObject members) =>
        match get "songs" members with
        | Some (JArray songs) =>
            match normalize_entries env fs songs with
            | Raise e => inl (Raised e)
            | Ok (songs', changed) =>
                if changed
                then inr (write_document docs (Assets.fs_key env data_path)
                            (JObject (set_item "songs" (JArray songs') members)))
                else inr docs
            end
        | _ => inr docs
        end
    | Some _ => inl AttributeError
    end.

(** What a round of the loop of [_normalize_song_data_file] may do to an
    entry: nothing, or replace its reference by the portable form of an
    existing file the reference resolves to; no other member changes. *)
Definition entry_normalized (env : Paths.Env) (fs : Paths.FS) (entry entry' : JSON)
  : Prop :=
  (forall key, key <> "pathtovideo" -> member key entry' = member key entry)
  /\ (entry' = entry
      \/ exists original resolved,
           member "pathtovideo" entry = Some (JString original)
           /\ Paths.resolve_media_path env fs original = Ok resolved
           /\ Paths.exists_ env fs resolved = true
           /\ member "pathtovideo" entry'
              = Some (JString (Paths._serialize_media_path env resolved))).


End Library.

(** ** The card grid and the widgets

    A [pygame.Rect] is its position and its size, as exact integers: a
    [pygame.Rect] keeps 32-bit integers, and agrees with them as long as
    the coordinates fit ([rect_fits]).  A font is the width it gives to a
    text; a surface is its size. *)

Module Widgets.
Import PyNum.

Definition SongRef : Type := Transport.SongRef.

Definition HEADER_HEIGHT : Z := 160.
Definition CARD_WIDTH : Z := 320.
Definition CARD_HEIGHT : Z := 300.
Definition CARD_MARGIN_X : Z := 32.
Definition CARD_MARGIN_Y : Z := 20.
Definition CARD_GAP : Z := 24.

(** [pygame.Rect(left, top, width, height)] *)
Record Rect : Type := MkRect { left : Z; top : Z; width : Z; height : Z }.

Definition right (r : Rect) : Z := (left r + width r)%Z.
Definition bottom (r : Rect) : Z := (top r + height r)%Z.

(** [bool(rect)] *)
Definition rect_truthy (r : Rect) : bool :=
  negb (width r =? 0)%Z && negb (height r =? 0)%Z.

(** [rect.collidepoint(position)]: the right and the bottom edge are
    outside. *)
Definition collidepoint (r : Rect) (position : Z * Z) : bool :=
  (left r <=? position.1)%Z && (position.1 <? right r)%Z
  && (top r <=? position.2)%Z && (position.2 <? bottom r)%Z.

(** A [SongCard], without its fonts. *)
Record SongCard : Type := MkSongCard {
  song : SongRef;
  rect : Rect;
  control_rects : list (string * Rect);
  progress_rect : option Rect
}.

Definition contains (card : SongCard) (position : Z * Z) : bool :=
  collidepoint (rect card) position.

Fixpoint control_at_loop (controls : list (string * Rect)) (position : Z * Z)
  : option string :=
  match controls with
  | [] => None
  | (control, r) :: rest =>
      if collidepoint r position then Some control
      else control_at_loop rest position
  end.

Definition control_at (card : SongCard) (position : Z * Z) : option string :=
  control_at_loop (control_rects card) position.

(** [a / b] on two integers. *)
Definition truediv (a b : Z) : Q := (inject_Z a / inject_Z b)%Q.

Definition progress_ratio_at (card : SongCard) (position : Z * Z) : option Q :=
  match progress_rect card with
  | None => None
  | Some r =>
      if negb (rect_truthy r) then None
      else
        let vertical_tolerance := 12%Z in
        if (position.2 <? top r - vertical_tolerance)%Z
           || (bottom r + vertical_tolerance <? position.2)%Z
        then None
        else
          let ratio := truediv (position.1 - left r) (Z.max 1 (width r)) in
          Some (py_max 0 (py_min 1 ratio))
  end.

Definition _ratio_from_rect (r : Rect) (position : Z * Z) (tolerance : option Z)
  : option Q :=
  if (width r <=? 0)%Z || (height r <=? 0)%Z then None
  else
    let outside :=
      match tolerance with
      | Some tolerance =>
          (position.2 <? top r - tolerance)%Z
          || (bottom r + tolerance <? position.2)%Z
      | None => false
      end in
    if outside then None
    else Some (py_max 0 (py_min 1 (truediv (position.1 - left r) (width r)))).

(** [_layout_cards]: [self.cards], from the window width, the offset of
    the card area and the displayed songs. *)
Definition _layout_cards (WINDOW_WIDTH card_area_offset : Z)
    (display_songs : list SongRef) : list SongCard :=
  let available_width := (WINDOW_WIDTH - CARD_MARGIN_X * 2)%Z in
  let cards_area_width := available_width in
  let columns := Z.max 1 (cards_area_width / (CARD_WIDTH + CARD_GAP))%Z in
  imap (fun index song =>
    let row := (Z.of_nat index / columns)%Z in
    let col := (Z.of_nat index mod columns)%Z in
    let x := (CARD_MARGIN_X + col * (CARD_WIDTH + CARD_GAP))%Z in
    let y := (card_area_offset + CARD_MARGIN_Y + row * (CARD_HEIGHT + CARD_GAP))%Z in
    MkSongCard song (MkRect x y CARD_WIDTH CARD_HEIGHT) [] None) display_songs.

(** The coordinates that a [pygame.Rect] holds as they are. *)
Definition fits_c_int (z : Z) : bool := (- 2 ^ 31 <=? z)%Z && (z <? 2 ^ 31)%Z.

Definition rect_fits (r : Rect) : bool :=
  fits_c_int (left r) && fits_c_int (top r)
  && fits_c_int (right r) && fits_c_int (bottom r).

(** The window: the globals [WINDOW_WIDTH] and [WINDOW_HEIGHT],
    [self.card_area_offset] and [self.cards]. *)
Record Window : Type := MkWindow {
  WINDOW_WIDTH : Z;
  WINDOW_HEIGHT : Z;
  card_area_offset : Z;
  cards : list SongCard
}.

(** [_handle_resize].  [set_mode] tells which sizes
    [pygame.display.set_mode] takes; on the others it raises, once the
    new size is stored and before the cards are laid out: the result is
    then [false] with the window as the exception leaves it. *)
Definition _handle_resize (set_mode : Z * Z -> bool) (display_songs : list SongRef)
    (width height : Z) (win : Window) : bool * Window :=
  let width' := Z.max 960 width in
  let height' := Z.max 640 height in
  if set_mode (width', height')
  then (true,
        MkWindow width' height' (card_area_offset win)
          (_layout_cards width' (card_area_offset win) display_songs))
  else (false, MkWindow width' height' (card_area_offset win) (cards win)).

(** [_set_card_area_offset]: the new offset. *)
Definition _set_card_area_offset (value : Z) : Z := Z.max HEADER_HEIGHT value.

(** *** Truncated texts *)

(** [font.size(text)[0]] *)
Definition Font : Type := string -> Z.

(** [text[:n]] *)
Definition prefix_of (n : nat) (text : string) : string := String.substring 0 n text.

(** [text[:-1]] *)
Definition but_last (text : string) : string :=
  prefix_of (String.length text - 1) text.

(** [while base and font.size(base + ellipsis)[0] > max_width:
    base = base[:-1]]; the loop makes at most [len(base)] rounds. *)
Fixpoint shorten (font : Font) (max_width : Z) (rounds : nat) (base : string)
  : string :=
  match rounds with
  | 0 => base
  | S rounds' =>
      if Str.truthy base && (max_width <? font (base +:+ "..."))%Z
      then shorten font max_width rounds' (but_last base)
      else base
  end.

(** [SongCard._truncate] *)
Definition _truncate (text : string) (font : Font) (max_width : Z) : string :=
  if (font text <=? max_width)%Z then text
  else
    let base := shorten font max_width (String.length text) text in
    if Str.truthy base then base +:+ "..."
    else prefix_of (Nat.max 1 (String.length text - 3)) text +:+ "...".

(** [PypifyApp._truncate_text] *)
Definition _truncate_text (text : string) (font : Font) (max_width : Z) : string :=
  if (font text <=? max_width)%Z then text
  else
    let trimmed := shorten font max_width (String.length text) text in
    if Str.truthy trimmed then trimmed +:+ "..." else "...".

(** *** Scaled surfaces *)

(** [_scale_surface]: the size of the surface it returns. *)
Definition _scale_surface (surface_size target_size : Z * Z) : Z * Z :=
  let '(target_w, target_h) := target_size in
  let '(src_w, src_h) := surface_size in
  if (src_w =? 0)%Z || (src_h =? 0)%Z then surface_size
  else
    let scale := py_min (truediv target_w src_w) (truediv target_h src_h) in
    (Z.max 1 (py_int (inject_Z src_w * scale)),
     Z.max 1 (py_int (inject_Z src_h * scale))).

End Widgets.

(** ** The card controls, the pages and the library edits ([PypifyApp])

    The methods below work on the state of the transport.  What they read
    besides it is given to them: the rectangle of the volume slider, the
    documents on disk, which files the system lets the program remove,
    and which frames the decoder delivers. *)

Module Controls.
Import PyNum Transport.

Definition _song_progress (song : option SongRef) (a : App) : Q :=
  match song with
  | None => 0%Q
  | Some song =>
      if Qle_bool (Assets.duration (heap a song)) 0 then 0%Q
      else if negb (opt_song_eq (heap a) (current_song a) song) then 0%Q
      else
        let position := _current_playback_time a in
        py_max 0 (py_min 1 (position / Assets.duration (heap a song))%Q)
  end.

Definition _load_more_songs (w : World) : M unit :=
  fun a =>
    let total := Z.of_nat (length (filtered_songs a)) in
    if (total <=? visible_song_limit a)%Z then (Ok tt, a)
    else
      let remaining := (total - visible_song_limit a)%Z in
      let increment := Z.min PAGE_SIZE remaining in
      _refresh_display_songs w
        (set_visible_song_limit (visible_song_limit a + increment)%Z a).

Definition toggle_fullscreen (enable : option bool) : M unit :=
  modify (fun a =>
    let enable :=
      match enable with
      | None => negb (video_fullscreen a)
      | Some enable => enable
      end in
    if enable && negb (bool_decide (current_song a <> None)) then a
    else
      let a := set_video_fullscreen enable a in
      if negb enable then set_dragging_fullscreen_progress false a
      else set_dragging_progress_card None a).

Definition _handle_card_control (w : World) (song : SongRef) (control : string)
  : M unit :=
  if String.eqb control "play" then _toggle_song_pause w song
  else if String.eqb control "loop" then toggle_loop song
  else if String.eqb control "fullscreen" then
    is_current <- gets (fun a => opt_song_eq (heap a) (current_song a) song) ;;
    when (negb is_current) (play_song w song false) ;;;
    toggle_fullscreen (Some true)
  else ret tt.

(** [self.volume_slider_rect] is [slider]. *)
Definition _update_volume_from_mouse (slider : Widgets.Rect) (mouse_x : Z) : M unit :=
  if (Widgets.width slider <=? 0)%Z then ret tt
  else
    let left := Widgets.left slider in
    let right := Widgets.right slider in
    let ratio := Widgets.truediv (mouse_x - left) (Z.max 1 (right - left)) in
    modify (set_volume (py_max 0 (py_min 1 ratio))) ;;;
    volume <- gets volume ;;
    music_set_volume volume.

(** *** The video frames

    A surface is known by the time of the frame it shows; [frames] tells
    which frames of a source the decoder delivers. *)




(** *** Deleting and replacing songs *)

(** [if path.exists(): path.unlink()] under [try ... except Exception:
    pass]; [removable] tells which files the system lets the program
    remove. *)
Definition unlink (env : Paths.Env) (removable : string -> bool) (fs : Paths.FS)
    (path : Paths.Path) : Paths.FS :=
  if Paths.exists_ env fs path && removable (Assets.fs_key env path)
  then List.filter (fun key => negb (String.eqb key (Assets.fs_key env path))) fs
  else fs.

(** [collection.remove(song)] *)
Fixpoint remove_song (h : SongRef -> Song) (song : SongRef) (l : list SongRef)
  : list SongRef :=
  match l with
  | [] => []
  | item :: l' => if song_eq h item song then l' else item :: remove_song h song l'
  end.

(** [save_song_data(DATA_PATH, self.songs)]: the documents it leaves. *)
Definition save_songs (w : World) (docs : Library.Documents) : M Library.Documents :=
  fun a =>
    let saved :=
      Library.save_song_data (env w) (fs a) docs (Paths.DATA_PATH (env w))
        (List.map (heap a) (songs a)) in
    (Ok saved.2, set_fs saved.1 a).

(** [delete_song]; it returns the documents it leaves on disk. *)
Definition delete_song (w : World) (removable : string -> bool)
    (docs : Library.Documents) (song : SongRef) : M Library.Documents :=
  is_current <- gets (fun a => opt_song_eq (heap a) (current_song a) song) ;;
  when is_current stop_song ;;;
  modify (fun a =>
    if opt_song_eq (heap a) (dragging_progress_card a) song
    then set_dragging_progress_card None a else a) ;;;
  modify (fun a =>
    let fs1 := unlink (env w) removable (fs a) (Assets.audio_path (heap a song)) in
    let fs2 := unlink (env w) removable fs1 (Assets.thumbnail_path (heap a song)) in
    set_fs (unlink (env w) removable fs2 (Assets.video_path (heap a song))) a) ;;;
  modify (fun a =>
    if song_in (heap a) song (songs a)
    then set_songs (remove_song (heap a) song (songs a)) a else a) ;;;
  modify (fun a =>
    if song_in (heap a) song (shuffle_queue a)
    then set_shuffle_queue (without_song (heap a) song (shuffle_queue a)) a
    else a) ;;;
  docs' <- save_songs w docs ;;
  _apply_search w false ;;;
  ret docs'.

(** [new_song if item is old_song else item] *)
Definition replaced (old_song new_song : SongRef) (l : list SongRef) : list SongRef :=
  List.map (fun item => if Nat.eqb item old_song then new_song else item) l.

Definition _replace_song_instance (w : World) (old_song new_song : SongRef) : M unit :=
  modify (fun a => set_songs (replaced old_song new_song (songs a)) a) ;;;
  modify (fun a => set_filtered_songs (replaced old_song new_song (filtered_songs a)) a) ;;;
  modify (fun a => set_display_songs (replaced old_song new_song (display_songs a)) a) ;;;
  modify (fun a => set_shuffle_queue (replaced old_song new_song (shuffle_queue a)) a) ;;;
  (fun a =>
     if bool_decide (current_song a = Some old_song) then
       let was_playing := negb (is_paused a) in
       let position := _current_playback_time a in
       _start_song w new_song position was_playing a
     else if bool_decide (vs_song (video_session a) = Some old_song)
     then try_except_pass (video_load w new_song) a
     else (Ok tt, a)) ;;;
  modify (fun a =>
    if bool_decide (dragging_progress_card a = Some old_song)
    then set_dragging_progress_card None a else a).

(** *** Runs of the application

    One step is a step of the transport, or one of the calls above. *)
Inductive ui_step (w : World) (a : App) : App -> Prop :=
| ui_transport a' : transport_step w a a' -> ui_step w a a'
| ui_load_more_songs : ui_step w a (_load_more_songs w a).2
| ui_card_control song control :
    ui_step w a (_handle_card_control w song control a).2
| ui_toggle_fullscreen enable : ui_step w a (toggle_fullscreen enable a).2
| ui_update_volume slider mouse_x :
    ui_step w a (_update_volume_from_mouse slider mouse_x a).2
| ui_delete_song removable docs song :
    ui_step w a (delete_song w removable docs song a).2
| ui_replace_song_instance old_song new_song :
    ui_step w a (_replace_song_instance w old_song new_song a).2.

(** A computation keeps a property of the state, whether it returns or
    raises. *)
Definition preserves {A} (P : App -> Prop) (m : M A) : Prop :=
  forall a, P a -> P (m a).2.

(** The displayed songs are the first [visible_song_limit] songs of the
    filtered sequence, and the limit is within the sequence. *)
Definition page_ok (a : App) : Prop :=
  (0 <= visible_song_limit a <= Z.of_nat (length (filtered_songs a)))%Z
  /\ display_songs a
     = take (Z.to_nat (visible_song_limit a)) (filtered_songs a).

(** The video is shown full screen only while a song is current. *)
Definition fullscreen_ok (a : App) : Prop :=
  video_fullscreen a = true -> current_song a <> None.

(** The volume is one the mixer takes, and the mixer has it, cut to its
    steps of 1/128. *)
Definition volume_ok (a : App) : Prop :=
  (0 <= volume a)%Q /\ (volume a <= 1)%Q
  /\ music_volume (mixer a) = (inject_Z (py_int (volume a * 128)) / 128)%Q.

End Controls.

(** ** The shape of a slug *)

Module Shapes.

(** A digit or a lower-case letter, ASCII range. *)
Definition slug_letter (c : ascii) : bool :=
  let n := Str.nat_of c in
  ((48 <=? n) && (n <=? 57)) || ((97 <=? n) && (n <=? 122)).

Definition slug_or_dash (c : ascii) : bool :=
  slug_letter c || Ascii.eqb c "-"%char.

Fixpoint all_chars (f : ascii -> bool) (s : string) : bool :=
  match s with
  | EmptyString => true
  | String c s' => f c && all_chars f s'
  end.

(** A text of ASCII characters. *)
Definition is_ascii (s : string) : bool :=
  all_chars (fun c => Str.nat_of c <? 128) s.

(** A slug: words of digits and lower-case letters, none of them empty,
    with one dash between two words. *)
Definition slug_shaped (s : string) : bool :=
  forallb (fun word => Str.truthy word && all_chars slug_letter word)
    (Str.split "-"%char s).

End Shapes.

(** ** Concrete inputs used by the examples *)

Definition env_demo : Paths.Env :=
  Paths.MkEnv (Paths.MkPath true ["data"]) (Paths.MkPath true ["app"])
    (fun _ => None) (Paths.MkPath true ["home"; "user"]) Paths.lexical.

(** The same environment on a disk where [/data/songs/link.mp4] is a
    symbolic link to [real.mp4] in the same directory. *)
Definition env_linked : Paths.Env :=
  Paths.MkEnv (Paths.MkPath true ["data"]) (Paths.MkPath true ["app"])
    (fun _ => None) (Paths.MkPath true ["home"; "user"])
    (fun p =>
       if bool_decide (Paths.lexical p = Paths.MkPath true ["data"; "songs"; "link.mp4"])
       then Paths.MkPath true ["data"; "songs"; "real.mp4"]
       else Paths.lexical p).

(** An environment whose library root is the relative path [lib]. *)
Definition env_relative : Paths.Env :=
  Paths.MkEnv (Paths.MkPath false ["lib"]) (Paths.MkPath true ["app"])
    (fun _ => None) (Paths.MkPath true ["home"; "user"]) Paths.lexical.

Definition clip_demo : Assets.Clip :=
  Assets.MkClip (Some (10 # 1)) (Some (640%Z, 360%Z)) false (fun _ => true).

Definition clip_with_audio : Assets.Clip :=
  Assets.MkClip (Some (10 # 1)) (Some (640%Z, 360%Z)) true (fun _ => true).

Definition video_demo : Paths.Path := Paths.MkPath true ["data"; "songs"; "a.mp4"].

Definition song_demo : Assets.Song :=
  Assets.MkSong "Tune" "Band" video_demo "band-tune"
    (Paths.MkPath true ["data"; ".cache"; "band-tune.jpg"])
    (Paths.MkPath true ["data"; ".cache"; "band-tune.ogg"])
    "tune" None [] false 0%Q (0%Z, 0%Z) false.

Definition song_ready : Assets.Song :=
  Assets.MkSong "Tune" "Band" video_demo "band-tune"
    (Paths.MkPath true ["data"; ".cache"; "band-tune.jpg"])
    (Paths.MkPath true ["data"; ".cache"; "band-tune.ogg"])
    "tune" None [] false (10 # 1) (640%Z, 360%Z) true.

Definition fs_ready : Paths.FS :=
  ["/data/.cache/band-tune.ogg"; "/data/.cache/band-tune.jpg"; "/data/.cache";
   "/data/songs/a.mp4"].

(** A library of three prepared songs whose audio derivatives exist, a
    decoder and an audio device that accept everything. *)

Definition library_song (title : string) (seconds : Q) : Assets.Song :=
  Assets.MkSong title "Band" (Paths.MkPath true ["data"; "songs"; title +:+ ".mp4"])
    ("band-" +:+ title)
    (Paths.MkPath true ["data"; ".cache"; "band-" +:+ title +:+ ".jpg"])
    (Paths.MkPath true ["data"; ".cache"; "band-" +:+ title +:+ ".ogg"])
    title None [] false seconds (640%Z, 360%Z) true.

Definition library_heap (r : Transport.SongRef) : Assets.Song :=
  match r with
  | 0 => library_song "a" (10 # 1)
  | 1 => library_song "b" (20 # 1)
  | 2 => library_song "c" (30 # 1)
  | _ => library_song "x" (1 # 25)
  end.

Definition library_fs : Paths.FS :=
  ["/data/.cache"; "/data/songs";
   "/data/.cache/band-a.ogg"; "/data/.cache/band-a.jpg"; "/data/songs/a.mp4";
   "/data/.cache/band-b.ogg"; "/data/.cache/band-b.jpg"; "/data/songs/b.mp4";
   "/data/.cache/band-c.ogg"; "/data/.cache/band-c.jpg"; "/data/songs/c.mp4";
   "/data/.cache/band-x.ogg"; "/data/.cache/band-x.jpg"; "/data/songs/x.mp4"].

Definition world_demo : Transport.World :=
  Transport.MkWorld env_demo (fun _ => Some clip_with_audio) (fun _ => true)
    (fun _ _ => true).

(** The mixer at start-up: nothing is loaded, and the volume 0.7 has been
    cut to 89 steps of 1/128. *)
Definition mixer_idle : Transport.Mixer :=
  Transport.MkMixer None false false true (89 # 128).

(** The application just after start-up: nothing plays. *)
Definition app_idle : Transport.App :=
  Transport.MkApp library_heap library_fs mixer_idle 0 0%Z [] [0; 1; 2] [0; 1; 2]
    [0; 1; 2] 3%Z Transport.unloaded None false 0%Z 0%Q false [] "" (7 # 10)
    false None false false.

(** Song 0 is playing. *)
Definition app_playing_a : Transport.App :=
  (Transport.play_song world_demo 0 false app_idle).2.

(** Song 1 is playing, after a switch from song 0. *)
Definition app_playing_b : Transport.App :=
  (Transport.play_song world_demo 1 false app_playing_a).2.

(** Song 2, the last of the filtered sequence, is playing. *)
Definition app_playing_c : Transport.App :=
  (Transport.play_song world_demo 2 false app_playing_a).2.

(** Song 0 is playing with its loop flag set, during a shuffle whose queue
    holds songs 1 and 2. *)
Definition app_looping_a : Transport.App :=
  Transport.set_shuffle_queue [1; 2]
    (Transport.set_shuffle_active true
       ((Transport.toggle_loop 0 app_playing_a).2)).

(** An audio device that rejects the audio derivative of song 0. *)
Definition world_rejecting_a : Transport.World :=
  Transport.MkWorld env_demo (fun _ => Some clip_with_audio)
    (fun file => negb (bool_decide
       (file = Paths.MkPath true ["data"; ".cache"; "band-a.ogg"])))
    (fun _ _ => true).

(** A library of seven songs whose last two entries are the same entry
    listed twice.  The first five songs are on the displayed page and
    their thumbnails have been loaded; the last two have not been
    prepared yet. *)
Definition rendered (surface : nat) (s : Assets.Song) : Assets.Song :=
  Assets.MkSong (Assets.name s) (Assets.artist s) (Assets.video_path s)
    (Assets.cache_key s) (Assets.thumbnail_path s) (Assets.audio_path s)
    (Assets.search_key s) (Some surface) (Assets._scaled_cache s)
    (Assets.loop_enabled s) (Assets.duration s) (Assets.video_size s)
    (Assets.assets_prepared s).

Definition fresh_song (title : string) : Assets.Song :=
  Assets.MkSong title "Band" (Paths.MkPath true ["data"; "songs"; title +:+ ".mp4"])
    ("band-" +:+ title)
    (Paths.MkPath true ["data"; ".cache"; "band-" +:+ title +:+ ".jpg"])
    (Paths.MkPath true ["data"; ".cache"; "band-" +:+ title +:+ ".ogg"])
    title None [] false 0%Q (0%Z, 0%Z) false.

Definition duplicate_heap (r : Transport.SongRef) : Assets.Song :=
  match r with
  | 0 => rendered 100 (library_song "a" (10 # 1))
  | 1 => rendered 101 (library_song "b" (20 # 1))
  | 2 => rendered 102 (library_song "c" (30 # 1))
  | 3 => rendered 103 (library_song "d" (30 # 1))
  | 4 => rendered 104 (library_song "e" (30 # 1))
  | _ => fresh_song "x"
  end.

Definition app_duplicate_entry : Transport.App :=
  Transport.MkApp duplicate_heap
    (["/data/.cache/band-d.ogg"; "/data/.cache/band-d.jpg"; "/data/songs/d.mp4";
      "/data/.cache/band-e.ogg"; "/data/.cache/band-e.jpg"; "/data/songs/e.mp4"]
     ++ library_fs)
    mixer_idle 0 0%Z [] [0; 1; 2; 3; 4; 5; 6] [0; 1; 2; 3; 4; 5; 6]
    [0; 1; 2; 3; 4] 5%Z Transport.unloaded None false 0%Z 0%Q false [] "" (7 # 10)
    false None false false.
(** ** Concrete inputs used by the examples of the library, the widgets
    and the controls *)

Definition docs_none : Library.Documents := fun _ => None.

Definition library_songs : list Assets.Song := [library_heap 0; library_heap 1].

(** The file system and the documents after the two songs are saved. *)
Definition saved_demo : Paths.FS * Library.Documents :=
  Library.save_song_data env_demo library_fs docs_none
    (Paths.DATA_PATH env_demo) library_songs.

(** A song list whose first entry names its video by a bare file name and
    whose second entry is no object. *)
Definition docs_bare_name : Library.Documents :=
  fun key =>
    if String.eqb key "/data/song_data.json"
    then Some (Library.JObject
                 [("songs",
                   Library.JArray
                     [Library.JObject
                        [("name", Library.JString "a");
                         ("pathtovideo", Library.JString "a.mp4")];
                      Library.JNumber 1])])
    else None.

Definition fs_with_song_list : Paths.FS := "/data/song_data.json" :: library_fs.

(** A font whose every character is ten pixels wide. *)
Definition font_demo : Widgets.Font :=
  fun text => (Z.of_nat (String.length text) * 10)%Z.

Definition slider_demo : Widgets.Rect := Widgets.MkRect 100 40 160 6.

(** The window at start-up, before the cards are laid out, and after a
    resize to 100 by 100 that the display takes, three songs being
    displayed. *)
Definition window_demo : Widgets.Window := Widgets.MkWindow 1280 720 160 [].

Definition window_resized : Widgets.Window :=
  (Widgets._handle_resize (fun _ => true) [0; 1; 2] 100 100 window_demo).2.

(** A decoder that opens no file. *)
Definition world_undecodable : Transport.World :=
  Transport.MkWorld env_demo (fun _ => None) (fun _ => true) (fun _ _ => true).

(** The application at start-up on a disk that has lost every file. *)
Definition app_empty_disk : Transport.App := Transport.set_fs [] app_idle.

(** The documents after the song list of [docs_bare_name] is normalized. *)
Definition docs_bare_name_normalized : Library.Documents :=
  match Library._normalize_song_data_file env_demo fs_with_song_list docs_bare_name
          (Paths.DATA_PATH env_demo) with
  | inr docs' => docs'
  | inl _ => docs_none
  end.

(** The application after the search of start-up, and after a press of
    "Load More". *)
Definition app_searched : Transport.App :=
  (Transport._apply_search world_demo true app_idle).2.

Definition app_more : Transport.App :=
  (Controls._load_more_songs world_demo app_searched).2.

(** Song 0 is playing and its video is shown full screen. *)
Definition app_fullscreen_a : Transport.App :=
  (Controls._handle_card_control world_demo 0 "fullscreen" app_playing_a).2.

(** The application after the pointer is dragged to three tenths of the
    volume slider. *)
Definition app_quiet : Transport.App :=
  (Controls._update_volume_from_mouse slider_demo 148 app_idle).2.


(** * Facts about strings *)

Section StrFacts.
Import Str.

Lemma append_cons c s t : String c s +:+ t = String c (s +:+ t).
Proof. reflexivity. Qed.

Lemma append_nil_l t : "" +:+ t = t.
Proof. reflexivity. Qed.

Lemma truthy_append_cons s c t : truthy (s +:+ String c t) = true.
Proof. destruct s; reflexivity. Qed.

Lemma append_cons_sep x c sep t : truthy (x +:+ String c sep +:+ t) = true.
Proof. destruct x; reflexivity. Qed.

Lemma lstrip_all_space s : all_space s = true -> lstrip s = "".
Proof.
  induction s as [|c s IH]; simpl; [done|].
  intros [-> Hs]%andb_true_iff. auto.
Qed.

Lemma strip_all_space s : all_space s = true -> strip s = "".
Proof. intros Hs. unfold strip. by rewrite lstrip_all_space. Qed.

Lemma all_space_has_char c s :
  isspace c = false -> all_space s = true -> has_char c s = false.
Proof.
  intros Hc. induction s as [|d s IH]; simpl; [done|].
  intros [Hd Hs]%andb_true_iff. rewrite IH by done.
  destruct (Ascii.eqb_spec d c) as [->|]; [congruence|done].
Qed.

Lemma split_no_sep sep s : has_char sep s = false -> split sep s = [s].
Proof.
  induction s as [|c s IH]; simpl; [done|].
  intros [-> Hs]%orb_false_iff. by rewrite IH.
Qed.

Lemma split_append_sep sep x rest :
  has_char sep x = false ->
  split sep (x +:+ String sep rest) = x :: split sep rest.
Proof.
  induction x as [|c x IH]; intros Hx.
  - rewrite append_nil_l. simpl. by rewrite Ascii.eqb_refl.
  - simpl in Hx. apply orb_false_iff in Hx as [Hc Hx].
    rewrite append_cons. simpl. by rewrite Hc, IH.
Qed.

Lemma split_join sep l :
  l ≠ [] ->
  Forall (fun seg => has_char sep seg = false) l ->
  split sep (join (String sep "") l) = l.
Proof.
  induction l as [|x l IH]; [done|]. intros _ Hl.
  apply Forall_cons in Hl as [Hx Hl].
  destruct l as [|y l]; [by apply split_no_sep|].
  change (join (String sep "") (x :: y :: l))
    with (x +:+ String sep (join (String sep "") (y :: l))).
  rewrite split_append_sep by done. f_equal. by apply IH.
Qed.

Lemma append_assoc s t u : (s +:+ t) +:+ u = s +:+ t +:+ u.
Proof. induction s as [|c s IH]; [done|]. rewrite !append_cons. by rewrite IH. Qed.

Lemma length_append s t : String.length (s +:+ t) = String.length s + String.length t.
Proof. induction s as [|c s IH]; [done|]. rewrite append_cons. simpl. by rewrite IH. Qed.

End StrFacts.

Section StripFacts.
Import Str.

Lemma lstrip_empty_iff s : lstrip s = "" <-> all_space s = true.
Proof.
  split; [|apply lstrip_all_space].
  induction s as [|c s IH]; simpl; [done|].
  destruct (isspace c); [auto|discriminate].
Qed.

Lemma all_space_lstrip s : all_space (lstrip s) = all_space s.
Proof.
  induction s as [|c s IH]; simpl; [done|].
  destruct (isspace c) eqn:Hc; simpl; [done|by rewrite Hc].
Qed.

Lemma all_space_rev_app s t :
  all_space (String.rev_app s t) = all_space s && all_space t.
Proof.
  revert t. induction s as [|c s IH]; intros t; simpl; [done|].
  rewrite IH. simpl. destruct (isspace c), (all_space s); simpl; done.
Qed.

Lemma all_space_rev s : all_space (String.rev s) = all_space s.
Proof. unfold String.rev. rewrite all_space_rev_app. simpl. apply andb_true_r. Qed.

Lemma truthy_rev_app s t : truthy (String.rev_app s t) = truthy s || truthy t.
Proof.
  revert t. induction s as [|c s IH]; intros t; simpl; [done|].
  rewrite IH. simpl. apply orb_true_r.
Qed.

Lemma truthy_lstrip s : truthy (lstrip s) = negb (all_space s).
Proof.
  induction s as [|c s IH]; simpl; [done|].
  destruct (isspace c); simpl; done.
Qed.

(** [bool(s.strip())] holds exactly when [s] has a character that is not
    white space. *)
Lemma truthy_strip s : truthy (strip s) = negb (all_space s).
Proof.
  unfold strip, rstrip, String.rev at 1.
  rewrite truthy_rev_app. simpl. rewrite orb_false_r.
  by rewrite truthy_lstrip, all_space_rev, all_space_lstrip.
Qed.

End StripFacts.

(** * Facts about paths *)

Section PathFacts.
Import Paths.

Lemma filter_all {A} (f : A -> bool) l :
  Forall (fun x => f x = true) l -> List.filter f l = l.
Proof.
  induction 1 as [|x l Hx _ IH]; simpl; [done|]. by rewrite Hx, IH.
Qed.

Lemma expanduser_tilde_free env p :
  tilde_free p = true -> expanduser env p = Ok p.
Proof.
  unfold tilde_free, expanduser. destruct (absolute p); [done|]. simpl.
  destruct (parts p) as [|seg rest]; [done|].
  by intros ->%negb_true_iff.
Qed.

Lemma SONGS_DIR_unfold env :
  SONGS_DIR env = MkPath (absolute (DATA_ROOT env)) (parts (DATA_ROOT env) ++ ["songs"]).
Proof. reflexivity. Qed.

Lemma tilde_free_SONGS_DIR env :
  tilde_free (DATA_ROOT env) = true -> tilde_free (SONGS_DIR env) = true.
Proof.
  rewrite SONGS_DIR_unfold. unfold tilde_free. simpl.
  destruct (absolute (DATA_ROOT env)); [done|]. simpl.
  by destruct (parts (DATA_ROOT env)).
Qed.

Lemma tilde_free_under env rel :
  tilde_free (DATA_ROOT env) = true ->
  tilde_free (SONGS_DIR env // MkPath false rel) = true.
Proof.
  rewrite SONGS_DIR_unfold. unfold tilde_free, joinpath. simpl.
  destruct (absolute (DATA_ROOT env)); [done|]. simpl.
  by destruct (parts (DATA_ROOT env)).
Qed.

Lemma collapse_plain acc rel :
  Forall (fun seg => String.eqb seg ".." = false) rel ->
  collapse acc rel = acc ++ rel.
Proof.
  intros Hrel. revert acc.
  induction Hrel as [|seg rel Hseg _ IH]; intros acc; simpl.
  - by rewrite app_nil_r.
  - by rewrite Hseg, IH, <- app_assoc.
Qed.

Lemma collapse_app acc a b :
  collapse acc (a ++ b) = collapse (collapse acc a) b.
Proof.
  revert acc. induction a as [|seg a IH]; intros acc; simpl; [done|].
  destruct (String.eqb seg ".."); apply IH.
Qed.

Lemma strip_prefix_app l r : strip_prefix l (l ++ r) = Some r.
Proof.
  induction l as [|a l IH]; simpl; [by destruct r|].
  by rewrite String.eqb_refl.
Qed.

Lemma abspath_under env d rel :
  Forall (fun seg => String.eqb seg ".." = false) rel ->
  abspath env (d // MkPath false rel)
  = MkPath true (parts (abspath env d) ++ rel).
Proof.
  intros Hrel. unfold abspath, joinpath. simpl.
  destruct (absolute d); simpl; f_equal.
  - by rewrite collapse_app, collapse_plain.
  - destruct (absolute (MkPath false (parts d))) eqn:E; [discriminate|].
    simpl. by rewrite app_assoc, collapse_app, collapse_plain.
Qed.

Lemma resolve_link_free env p : link_free env -> resolve env p = abspath env p.
Proof. intros Hfree. unfold resolve. by rewrite Hfree. Qed.

(** Without symbolic links a path below a directory resolves below the
    resolved directory, at the same place. *)
Lemma relative_to_under env d rel :
  link_free env ->
  Forall (fun seg => String.eqb seg ".." = false) rel ->
  relative_to (resolve env (d // MkPath false rel)) (resolve env d)
  = Some (MkPath false rel).
Proof.
  intros Hfree Hrel. rewrite !resolve_link_free by done.
  rewrite abspath_under by done.
  unfold relative_to. simpl. by rewrite strip_prefix_app.
Qed.

Lemma plain_segment_spec seg :
  plain_segment seg = true ->
  kept_segment seg = true /\ String.eqb seg ".." = false
  /\ Str.has_char "/"%char seg = false.
Proof.
  unfold plain_segment.
  intros [[? ?%negb_true_iff]%andb_true_iff ?%negb_true_iff]%andb_true_iff.
  done.
Qed.

Lemma Path_of_str_join first rel :
  Str.starts_with_char "/"%char first = false ->
  first <> "" ->
  Forall (fun seg => plain_segment seg = true) (first :: rel) ->
  Path_of_str (Str.join "/" (first :: rel)) = MkPath false (first :: rel).
Proof.
  intros Hfirst Hne Hall. unfold Path_of_str. f_equal.
  - destruct rel as [|y rel]; simpl; [done|].
    destruct first as [|c first]; [done|]. by rewrite append_cons.
  - assert (Hsep : Forall (fun seg => Str.has_char "/"%char seg = false) (first :: rel)).
    { eapply Forall_impl; [exact Hall|].
      intros seg Hs. by apply plain_segment_spec in Hs as (_ & _ & ?). }
    rewrite (split_join "/"%char) by done.
    apply filter_all. eapply Forall_impl; [exact Hall|].
    intros seg Hs. by apply plain_segment_spec in Hs as (? & _ & _).
Qed.

Lemma first_existing_app env fs l l' :
  first_existing env fs (l ++ l')
  = match first_existing env fs l with
    | Some r => Some r
    | None => first_existing env fs l'
    end.
Proof.
  induction l as [|c l IH]; simpl; [done|].
  by destruct (exists_ env fs _).
Qed.

Lemma first_existing_add env fs st c r :
  first_existing env fs st.1 = Some r ->
  first_existing env fs (add_candidate st c).1 = Some r.
Proof.
  intros Hr. unfold add_candidate.
  destruct (_ && _); [|done]. simpl.
  by rewrite first_existing_app, Hr.
Qed.

Lemma join_app sep A B :
  A <> [] -> B <> [] ->
  Str.join sep (A ++ B) = Str.join sep A +:+ sep +:+ Str.join sep B.
Proof.
  intros HA HB. induction A as [|x A IH]; [done|].
  destruct A as [|y A].
  - simpl. by destruct B.
  - change (Str.join sep ((x :: y :: A) ++ B))
      with (x +:+ sep +:+ Str.join sep ((y :: A) ++ B)).
    rewrite IH by done.
    change (Str.join sep (x :: y :: A))
      with (x +:+ sep +:+ Str.join sep (y :: A)).
    by rewrite !append_assoc.
Qed.

Lemma truthy_join_two sep x y l :
  Str.truthy sep = true -> Str.truthy (Str.join sep (x :: y :: l)) = true.
Proof.
  intros Hsep. change (Str.join sep (x :: y :: l))
    with (x +:+ sep +:+ Str.join sep (y :: l)).
  destruct sep as [|c sep]; [done|]. rewrite append_cons.
  apply truthy_append_cons.
Qed.

End PathFacts.

(** * Path resolution: the empty reference and the round trip *)

Section PathClaims.
Import Paths.

Lemma starts_with_char_space c s :
  Str.isspace c = false -> Str.all_space s = true ->
  Str.starts_with_char c s = false.
Proof.
  intros Hc. destruct s as [|d s]; simpl; [done|].
  intros [Hd _]%andb_true_iff.
  destruct (Ascii.eqb_spec d c) as [->|]; [congruence|done].
Qed.

Lemma truthy_str_SONGS_DIR env : Str.truthy (str (SONGS_DIR env)) = true.
Proof.
  rewrite SONGS_DIR_unfold. unfold str. simpl.
  destruct (absolute (DATA_ROOT env)); [done|].
  destruct (parts (DATA_ROOT env)) as [|x D]; [done|]. simpl.
  destruct (D ++ ["songs"]) as [|y l] eqn:E.
  - by apply app_eq_nil in E as [_ ?].
  - by rewrite append_cons_sep.
Qed.

Lemma Path_of_str_all_space ref :
  Str.all_space ref = true ->
  Path_of_str ref = MkPath false (if kept_segment ref then [ref] else []).
Proof.
  intros Hs. unfold Path_of_str.
  rewrite starts_with_char_space by done.
  rewrite split_no_sep by (by apply all_space_has_char).
  simpl. by destruct (kept_segment ref).
Qed.

Lemma search_order_all_space env ref raw :
  Str.all_space ref = true ->
  search_order env ref raw = [SONGS_DIR env].
Proof.
  intros Hs. unfold search_order. rewrite strip_all_space by done. simpl.
  unfold add_candidate. by rewrite truthy_str_SONGS_DIR.
Qed.

(** C9, as stated, fails: with the library root [/data] holding the song
    list document, the [songs] directory and the cache, the empty
    reference resolves to [/data/songs], which is not the library
    root. *)
Lemma C9_empty_reference_is_not_library_root :
  resolve_media_path env_demo ["/data"; "/data/songs"] ""
    = Ok (MkPath true ["data"; "songs"])
  /\ resolve_media_path env_demo ["/data"; "/data/songs"] ""
    <> Ok (DATA_ROOT env_demo)
  /\ DATA_PATH env_demo = DATA_ROOT env_demo // Path_of_str "song_data.json".
Proof. repeat split. vm_compute. discriminate. Qed.

(** C9 (amended): an empty reference resolves to the songs media
    directory [SONGS_DIR], the [songs] sub-directory of the library
    root; a reference of white space only does so too when that
    directory exists on disk. *)
Theorem C9_resolve_empty_reference env fs ref :
  tilde_free (DATA_ROOT env) = true ->
  Str.all_space ref = true ->
  ref = "" \/ exists_ env fs (SONGS_DIR env) = true ->
  resolve_media_path env fs ref = Ok (SONGS_DIR env)
  /\ SONGS_DIR env = DATA_ROOT env // Path_of_str "songs"
  /\ SONGS_DIR env <> DATA_ROOT env.
Proof.
  intros Hroot Hs Hcase. split; [|split; [done|]].
  - unfold resolve_media_path. rewrite Path_of_str_all_space by done.
    rewrite expanduser_tilde_free.
    2:{ unfold tilde_free. simpl. destruct (kept_segment ref); [|done].
        simpl. by rewrite starts_with_char_space. }
    rewrite search_order_all_space by done. simpl.
    rewrite expanduser_tilde_free by (by apply tilde_free_SONGS_DIR).
    destruct (exists_ env fs (SONGS_DIR env)) eqn:Hex; [done|].
    destruct Hcase as [->|]; [done|discriminate].
  - rewrite SONGS_DIR_unfold. destruct (DATA_ROOT env) as [a ps]. simpl.
    intros [=E]. apply (f_equal length) in E.
    rewrite length_app in E. simpl in E. lia.
Qed.

Lemma C9_resolve_empty_reference_witness :
  resolve_media_path env_demo ["/data"; "/data/songs"] "  "
    = Ok (SONGS_DIR env_demo)
  /\ SONGS_DIR env_demo = DATA_ROOT env_demo // Path_of_str "songs"
  /\ SONGS_DIR env_demo <> DATA_ROOT env_demo.
Proof.
  apply (C9_resolve_empty_reference env_demo ["/data"; "/data/songs"] "  ").
  - reflexivity.
  - reflexivity.
  - right. reflexivity.
Defined.

(** The reference of a path whose resolved form lies below the resolved
    songs directory. *)
Lemma serialize_under_SONGS_DIR env p rel :
  tilde_free p = true ->
  relative_to (resolve env p) (resolve env (SONGS_DIR env))
  = Some (MkPath false rel) ->
  rel <> [] ->
  _serialize_media_path env p = Str.join "/" ("songs" :: rel).
Proof.
  intros Htilde Hrel Hne. unfold _serialize_media_path.
  rewrite expanduser_tilde_free by done. rewrite Hrel.
  by destruct rel.
Qed.

(** On a disk without symbolic links a path below the songs directory
    resolves to the same place below the resolved songs directory. *)
Lemma link_free_under_SONGS_DIR env rel :
  link_free env ->
  Forall (fun seg => plain_segment seg = true) rel ->
  relative_to (resolve env (SONGS_DIR env // MkPath false rel))
    (resolve env (SONGS_DIR env))
  = Some (MkPath false rel).
Proof.
  intros Hfree Hrel. apply relative_to_under; [done|].
  eapply Forall_impl; [exact Hrel|].
  intros seg Hs. by apply plain_segment_spec in Hs as (_ & ? & _).
Qed.

Lemma relative_to_relative p base rel :
  relative_to p base = Some rel -> absolute rel = false.
Proof.
  unfold relative_to. destruct (Bool.eqb _ _); [|done].
  destruct (strip_prefix _ _); [|done]. by intros [= <-].
Qed.

Lemma tilde_free_root_of_under env rel :
  tilde_free (SONGS_DIR env // MkPath false rel) = true ->
  tilde_free (DATA_ROOT env) = true.
Proof.
  rewrite SONGS_DIR_unfold. unfold tilde_free, joinpath. simpl.
  destruct (absolute (DATA_ROOT env)); [done|]. simpl.
  by destruct (parts (DATA_ROOT env)).
Qed.

Lemma Path_of_str_str_absolute segs :
  Forall (fun seg => plain_segment seg = true) segs ->
  Path_of_str (str (MkPath true segs)) = MkPath true segs.
Proof.
  intros Hall. unfold str, Path_of_str. cbn [absolute parts].
  change ("/" +:+ Str.join "/" segs) with (String "/"%char (Str.join "/" segs)).
  cbn [Str.starts_with_char Str.split]. rewrite Ascii.eqb_refl. f_equal.
  cbn [List.filter kept_segment]. cbn.
  destruct segs as [|first rel]; [done|].
  assert (Hsep : Forall (fun seg => Str.has_char "/"%char seg = false) (first :: rel)).
  { eapply Forall_impl; [exact Hall|].
    intros seg Hs. by apply plain_segment_spec in Hs as (_ & _ & ?). }
  rewrite (split_join "/"%char) by done.
  apply filter_all. eapply Forall_impl; [exact Hall|].
  intros seg Hs. by apply plain_segment_spec in Hs as (? & _ & _).
Qed.

Lemma all_space_str_absolute segs : Str.all_space (str (MkPath true segs)) = false.
Proof. done. Qed.

(** An absolute path that exists is found from its own text. *)
Lemma resolve_absolute_existing env fs segs :
  Forall (fun seg => plain_segment seg = true) segs ->
  exists_ env fs (MkPath true segs) = true ->
  resolve_media_path env fs (str (MkPath true segs)) = Ok (MkPath true segs).
Proof.
  intros Hall Hex. unfold resolve_media_path.
  rewrite Path_of_str_str_absolute by done.
  rewrite expanduser_tilde_free by done.
  assert (Hfirst : first_existing env fs
            (search_order env (str (MkPath true segs)) (MkPath true segs))
          = Some (MkPath true segs)).
  { unfold search_order. rewrite truthy_strip, all_space_str_absolute.
    cbn [negb absolute].
    assert (H1 : first_existing env fs
              (add_candidate ([], []) (MkPath true segs)).1
            = Some (MkPath true segs)).
    { unfold add_candidate. cbn [fst snd existsb negb].
      change (Str.truthy (str (MkPath true segs))) with true.
      cbn [andb app fst first_existing].
      rewrite expanduser_tilde_free by done. by rewrite Hex. }
    destruct (Str.truthy _); [by do 2 apply first_existing_add|done]. }
  by rewrite Hfirst.
Qed.

Lemma str_under_neq env rel :
  rel <> [] ->
  str (SONGS_DIR env // MkPath false rel)
  <> str (SONGS_DIR env // MkPath false ("songs" :: rel)).
Proof.
  intros Hne. rewrite SONGS_DIR_unfold. unfold str, joinpath. simpl.
  set (S := parts (DATA_ROOT env) ++ ["songs"]).
  assert (HS : S <> []) by (subst S; by destruct (parts (DATA_ROOT env))).
  assert (Hlen : String.length (Str.join "/" (S ++ rel))
                 <> String.length (Str.join "/" (S ++ "songs" :: rel))).
  { rewrite !join_app by done.
    change (Str.join "/" ("songs" :: rel)) with
      (match rel with [] => "songs" | _ => "songs" +:+ "/" +:+ Str.join "/" rel end).
    destruct rel as [|r rel]; [done|].
    rewrite !length_append. simpl. lia. }
  destruct (absolute (DATA_ROOT env)).
  - intros E. apply Hlen. rewrite !append_cons, !append_nil_l in E.
    by injection E as ->.
  - destruct (S ++ rel) eqn:E1; [by apply app_eq_nil in E1 as [? _]|].
    destruct (S ++ "songs" :: rel) eqn:E2; [by apply app_eq_nil in E2 as [? _]|].
    intros E. apply Hlen. by rewrite E.
Qed.

Lemma truthy_str_long p :
  2 <= length (parts p) -> Str.truthy (str p) = true.
Proof.
  intros Hlen. unfold str. destruct (absolute p); [done|].
  destruct (parts p) as [|x [|y l]]; simpl in Hlen; [lia..|].
  by apply truthy_join_two.
Qed.

Lemma all_space_join_songs rel :
  Str.all_space (Str.join "/" ("songs" :: rel)) = false.
Proof. by destruct rel. Qed.

(** The first two candidates tried for a relative reference [songs/rel]. *)
Lemma first_existing_songs_reference env fs pv rel :
  tilde_free (DATA_ROOT env) = true ->
  rel <> [] ->
  Str.all_space pv = false ->
  exists_ env fs (SONGS_DIR env // MkPath false rel) = true ->
  exists_ env fs (SONGS_DIR env // MkPath false ("songs" :: rel)) = false ->
  first_existing env fs (search_order env pv (MkPath false ("songs" :: rel)))
  = Some (SONGS_DIR env // MkPath false rel).
Proof.
  intros Hroot Hne Hpv Hp Hshadow. unfold search_order.
  rewrite truthy_strip, Hpv. cbn [negb absolute parts].
  set (c1 := SONGS_DIR env // MkPath false ("songs" :: rel)).
  set (c2 := SONGS_DIR env // MkPath false rel).
  assert (Hs2 : first_existing env fs
            (add_candidate (add_candidate ([], []) c1) c2).1 = Some c2).
  { unfold add_candidate at 2. cbn [fst snd existsb].
    assert (Hk1 : Str.truthy (str c1) = true).
    { subst c1. apply truthy_str_long. rewrite SONGS_DIR_unfold.
      unfold joinpath. simpl. rewrite !length_app. simpl. lia. }
    rewrite Hk1. cbn [andb negb app].
    unfold add_candidate. cbn [fst snd existsb].
    assert (Hk2 : Str.truthy (str c2) = true).
    { subst c2. apply truthy_str_long. rewrite SONGS_DIR_unfold.
      unfold joinpath. simpl. rewrite !length_app. simpl.
      destruct rel; [done|]. simpl. lia. }
    rewrite Hk2.
    assert (Hk : String.eqb (str c2) (str c1) = false)
      by (apply String.eqb_neq; by apply str_under_neq).
    rewrite Hk. cbn [orb negb andb app fst first_existing].
    subst c1 c2.
    rewrite !expanduser_tilde_free by (by apply tilde_free_under).
    by rewrite Hshadow, Hp. }
  change (String.eqb (Str.lower "songs") "songs") with true. cbv iota.
  destruct rel as [|r rel']; [done|].
  change (Nat.ltb 1 (length ("songs" :: r :: rel'))) with true.
  cbn [parts].
  assert (Hs4 : first_existing env fs
    (add_candidate
       (add_candidate (add_candidate (add_candidate ([], []) c1) c2)
          (APP_ROOT env // MkPath false ("songs" :: r :: rel')))
       (DEFAULT_SONGS_DIR env // MkPath false ("songs" :: r :: rel'))).1
    = Some c2) by (by do 2 apply first_existing_add).
  destruct (Str.truthy _); [by do 2 apply first_existing_add|done].
Qed.

(** The reference [songs/rel] of an existing file [SONGS_DIR / rel]
    resolves to that file when nothing lies at the nested place. *)
Lemma resolve_songs_reference env fs rel :
  tilde_free (DATA_ROOT env) = true ->
  rel <> [] ->
  Forall (fun seg => plain_segment seg = true) rel ->
  exists_ env fs (SONGS_DIR env // MkPath false rel) = true ->
  exists_ env fs (SONGS_DIR env // MkPath false ("songs" :: rel)) = false ->
  resolve_media_path env fs (Str.join "/" ("songs" :: rel))
  = Ok (SONGS_DIR env // MkPath false rel).
Proof.
  intros Hroot Hne Hrel Hp Hshadow. unfold resolve_media_path.
  rewrite Path_of_str_join by (try done; by constructor).
  rewrite expanduser_tilde_free by done.
  rewrite first_existing_songs_reference; try done.
  apply all_space_join_songs.
Qed.

(** C2, as stated, fails for paths strictly inside the library root.
    (1) The file [/data/songs/a.mp4] exists, and so does
    [/data/songs/songs/a.mp4]: the reference [songs/a.mp4] resolves to the
    latter, which is tried first.  (2) [/data/songs/sub/a.mp4] does not
    exist: its reference resolves to the best-effort
    [/data/songs/a.mp4].  (3) The songs directory itself, which exists,
    has the reference [songs], which resolves to [/data/songs/songs].
    (4) [/data/songs/link.mp4] is a symbolic link to [real.mp4], and
    both exist: the reference is [songs/real.mp4] and resolves to
    [/data/songs/real.mp4].  (5) With the relative library root [lib],
    the existing file [lib/notes/a.mp4], outside the songs directory,
    has its own text as reference, which resolves to the best-effort
    [lib/songs/a.mp4]. *)
Lemma C2_roundtrip_fails :
  (let fs := ["/data/songs/a.mp4"; "/data/songs/songs/a.mp4"] in
   let p := MkPath true ["data"; "songs"; "a.mp4"] in
   relative_to p (DATA_ROOT env_demo) = Some (MkPath false ["songs"; "a.mp4"])
   /\ exists_ env_demo fs p = true
   /\ resolve_media_path env_demo fs (_serialize_media_path env_demo p)
      = Ok (MkPath true ["data"; "songs"; "songs"; "a.mp4"])
   /\ resolve_media_path env_demo fs (_serialize_media_path env_demo p) <> Ok p)
  /\
  (let p := MkPath true ["data"; "songs"; "sub"; "a.mp4"] in
   resolve_media_path env_demo [] (_serialize_media_path env_demo p)
      = Ok (MkPath true ["data"; "songs"; "a.mp4"])
   /\ resolve_media_path env_demo [] (_serialize_media_path env_demo p) <> Ok p)
  /\
  (let fs := ["/data"; "/data/songs"] in
   let p := SONGS_DIR env_demo in
   relative_to p (DATA_ROOT env_demo) = Some (MkPath false ["songs"])
   /\ exists_ env_demo fs p = true
   /\ _serialize_media_path env_demo p = "songs"
   /\ resolve_media_path env_demo fs (_serialize_media_path env_demo p)
      = Ok (MkPath true ["data"; "songs"; "songs"])
   /\ resolve_media_path env_demo fs (_serialize_media_path env_demo p) <> Ok p)
  /\
  (let fs := ["/data/songs/link.mp4"; "/data/songs/real.mp4"] in
   let p := MkPath true ["data"; "songs"; "link.mp4"] in
   relative_to p (DATA_ROOT env_linked) = Some (MkPath false ["songs"; "link.mp4"])
   /\ exists_ env_linked fs p = true
   /\ exists_ env_linked fs (MkPath true ["data"; "songs"; "songs"; "link.mp4"]) = false
   /\ _serialize_media_path env_linked p = "songs/real.mp4"
   /\ resolve_media_path env_linked fs (_serialize_media_path env_linked p)
      = Ok (MkPath true ["data"; "songs"; "real.mp4"])
   /\ resolve_media_path env_linked fs (_serialize_media_path env_linked p) <> Ok p)
  /\
  (let fs := ["/home/user/lib/notes/a.mp4"] in
   let p := MkPath false ["lib"; "notes"; "a.mp4"] in
   relative_to p (DATA_ROOT env_relative) = Some (MkPath false ["notes"; "a.mp4"])
   /\ exists_ env_relative fs p = true
   /\ _serialize_media_path env_relative p = "lib/notes/a.mp4"
   /\ resolve_media_path env_relative fs (_serialize_media_path env_relative p)
      = Ok (MkPath false ["lib"; "songs"; "a.mp4"])
   /\ resolve_media_path env_relative fs (_serialize_media_path env_relative p)
      <> Ok p).
Proof. vm_compute. repeat split; discriminate. Qed.

(** C2 (amended): for every path [p] of plain segments that exists, as
    every existing path inside the library root is, resolving the
    reference produced by serialization yields [p] again, provided
    that: when the resolved [p] lies below the resolved songs directory,
    at [rel], then [rel] is not empty, [p] is [SONGS_DIR / rel] (no
    symbolic link has displaced it) and the nested candidate
    [SONGS_DIR / "songs" / rel] does not exist; and when it does not lie
    there, [p] is absolute. *)
Theorem C2_serialize_resolve_roundtrip env fs p :
  Forall (fun seg => plain_segment seg = true) (parts p) ->
  tilde_free p = true ->
  exists_ env fs p = true ->
  match relative_to (resolve env p) (resolve env (SONGS_DIR env)) with
  | Some rel =>
      parts rel <> []
      /\ p = SONGS_DIR env // rel
      /\ exists_ env fs (SONGS_DIR env // (Path_of_str "songs" // rel)) = false
  | None => absolute p = true
  end ->
  resolve_media_path env fs (_serialize_media_path env p) = Ok p.
Proof.
  intros Hplain Htilde Hex Hcase.
  destruct (relative_to (resolve env p) (resolve env (SONGS_DIR env)))
    as [rel|] eqn:Hrel.
  - destruct Hcase as (Hne & Hp & Hshadow).
    pose proof (relative_to_relative _ _ _ Hrel) as Hrelative.
    destruct rel as [b rest]. cbn in Hrelative, Hne. subst b.
    change (Path_of_str "songs" // MkPath false rest)
      with (MkPath false ("songs" :: rest)) in Hshadow.
    rewrite (serialize_under_SONGS_DIR env p rest) by done.
    subst p.
    apply resolve_songs_reference; try done.
    + by apply (tilde_free_root_of_under env rest).
    + rewrite SONGS_DIR_unfold in Hplain. cbn in Hplain.
      rewrite <- app_assoc in Hplain.
      apply Forall_app in Hplain as [_ Hplain].
      by apply Forall_cons in Hplain as [_ Hplain].
  - destruct p as [b segs]. cbn in Hcase, Hplain. subst b.
    assert (Hserialize : _serialize_media_path env (MkPath true segs)
                         = str (MkPath true segs)).
    { unfold _serialize_media_path. rewrite expanduser_tilde_free by done.
      by rewrite Hrel. }
    rewrite Hserialize. by apply resolve_absolute_existing.
Qed.

Lemma C2_serialize_resolve_roundtrip_witness :
  resolve_media_path env_demo ["/data/songs/sub/a.mp4"]
    (_serialize_media_path env_demo
       (SONGS_DIR env_demo // MkPath false ["sub"; "a.mp4"]))
  = Ok (SONGS_DIR env_demo // MkPath false ["sub"; "a.mp4"]).
Proof.
  apply (C2_serialize_resolve_roundtrip env_demo ["/data/songs/sub/a.mp4"]
           (SONGS_DIR env_demo // MkPath false ["sub"; "a.mp4"])).
  - repeat constructor.
  - reflexivity.
  - reflexivity.
  - vm_compute. split_and!; [discriminate|reflexivity|reflexivity].
Defined.

End PathClaims.

(** * Facts about the float operations *)

Section NumFacts.
Import PyNum.

Lemma Qltb_lt a b : Qltb a b = true <-> (a < b)%Q.
Proof.
  unfold Qltb. rewrite negb_true_iff, <- not_true_iff_false, Qle_bool_iff.
  split; [apply Qnot_le_lt|apply Qlt_not_le].
Qed.

Lemma Qltb_ge a b : Qltb a b = false <-> (b <= a)%Q.
Proof. unfold Qltb. by rewrite negb_false_iff, Qle_bool_iff. Qed.

Lemma Qle_bool_gt a b : Qle_bool a b = false <-> (b < a)%Q.
Proof.
  rewrite <- not_true_iff_false, Qle_bool_iff.
  split; [apply Qnot_le_lt|apply Qlt_not_le].
Qed.

Lemma py_max_cases a b :
  (py_max a b = b /\ (a < b)%Q) \/ (py_max a b = a /\ (b <= a)%Q).
Proof.
  unfold py_max. destruct (Qltb a b) eqn:E.
  - left. by apply Qltb_lt in E.
  - right. by apply Qltb_ge in E.
Qed.

Lemma py_min_cases a b :
  (py_min a b = b /\ (b < a)%Q) \/ (py_min a b = a /\ (a <= b)%Q).
Proof.
  unfold py_min. destruct (Qltb b a) eqn:E.
  - left. by apply Qltb_lt in E.
  - right. by apply Qltb_ge in E.
Qed.

Lemma py_min_le_l a b : (py_min a b <= a)%Q.
Proof. destruct (py_min_cases a b) as [[-> ?]|[-> ?]]; lra. Qed.

Lemma py_min_le_r a b : (py_min a b <= b)%Q.
Proof. destruct (py_min_cases a b) as [[-> ?]|[-> ?]]; lra. Qed.

Lemma py_max_ge_l a b : (a <= py_max a b)%Q.
Proof. destruct (py_max_cases a b) as [[-> ?]|[-> ?]]; lra. Qed.

End NumFacts.

(** * The asset cache: [ensure_assets] *)

Section AssetFacts.
Import PyNum Assets.

Lemma has_char_append c s t :
  Str.has_char c (s +:+ t) = Str.has_char c s || Str.has_char c t.
Proof.
  induction s as [|d s IH]; [done|].
  rewrite append_cons. simpl. by rewrite IH, orb_assoc.
Qed.

Lemma has_char_rev_app c s t :
  Str.has_char c (String.rev_app s t) = Str.has_char c s || Str.has_char c t.
Proof.
  revert t. induction s as [|d s IH]; intros t; simpl; [done|].
  rewrite IH. simpl.
  destruct (Ascii.eqb d c), (Str.has_char c s); simpl; done.
Qed.

Lemma has_char_lstrip_char c d s :
  Str.has_char c s = false -> Str.has_char c (lstrip_char d s) = false.
Proof.
  induction s as [|e s IH]; simpl; [done|].
  intros [He Hs]%orb_false_iff.
  destruct (Ascii.eqb e d); [auto|]. simpl. by rewrite He, Hs.
Qed.

Lemma has_char_strip_char c d s :
  Str.has_char c s = false -> Str.has_char c (strip_char d s) = false.
Proof.
  intros Hs. unfold strip_char, String.rev.
  rewrite has_char_rev_app. simpl. rewrite orb_false_r.
  apply has_char_lstrip_char. rewrite has_char_rev_app. simpl.
  rewrite orb_false_r. by apply has_char_lstrip_char.
Qed.

Lemma has_char_split c sep s :
  Str.has_char c s = false ->
  Forall (fun w => Str.has_char c w = false) (Str.split sep s).
Proof.
  induction s as [|d s IH]; simpl; [by repeat constructor|].
  intros [Hd Hs]%orb_false_iff. specialize (IH Hs).
  destruct (Ascii.eqb d sep); [by constructor|].
  destruct (Str.split sep s) as [|w ws]; [by repeat constructor; simpl; rewrite Hd|].
  apply Forall_cons in IH as [Hw Hws].
  constructor; [|done]. simpl. by rewrite Hd, Hw.
Qed.

Lemma has_char_join c sep l :
  Str.has_char c sep = false ->
  Forall (fun w => Str.has_char c w = false) l ->
  Str.has_char c (Str.join sep l) = false.
Proof.
  intros Hsep. induction 1 as [|w l Hw Hl IH]; [done|].
  destruct l as [|w' l]; [done|].
  change (Str.join sep (w :: w' :: l)) with (w +:+ sep +:+ Str.join sep (w' :: l)).
  by rewrite !has_char_append, Hw, Hsep, IH.
Qed.

Lemma Forall_list_filter {A} (P : A -> Prop) (f : A -> bool) l :
  Forall P l -> Forall P (List.filter f l).
Proof.
  induction 1 as [|x l Hx _ IH]; simpl; [constructor|].
  destruct (f x); [by constructor|done].
Qed.

Lemma has_char_slug_chars s : Str.has_char "/"%char (slug_chars s) = false.
Proof.
  induction s as [|ch s IH]; simpl; [done|]. rewrite IH, orb_false_r.
  destruct (isalnum ch) eqn:Hch; [|done].
  destruct (Ascii.eqb_spec ch "/"%char) as [->|]; [discriminate|done].
Qed.

(** A slug has no path separator: it is one path segment. *)
Lemma has_char_slugify value : Str.has_char "/"%char (slugify value) = false.
Proof.
  unfold slugify. destruct (Str.truthy _); [|done].
  apply has_char_join; [done|]. apply Forall_list_filter.
  apply has_char_split, has_char_strip_char, has_char_slug_chars.
Qed.

End AssetFacts.

Section CacheFiles.
Import PyNum Assets.
Context (env : Paths.Env).

Lemma starts_with_has_char c s :
  Str.has_char c s = false -> Str.starts_with_char c s = false.
Proof. destruct s as [|d s]; simpl; [done|]. by intros [? _]%orb_false_iff. Qed.

Lemma Path_of_str_one_segment seg :
  Str.has_char "/"%char seg = false ->
  2 <= String.length seg ->
  Paths.Path_of_str seg = Paths.MkPath false [seg].
Proof.
  intros Hseg Hlen. unfold Paths.Path_of_str.
  rewrite starts_with_has_char, split_no_sep by done. simpl.
  unfold Paths.kept_segment.
  destruct seg as [|a [|b seg]]; simpl in Hlen; [lia..|].
  simpl. by destruct (Ascii.eqb a ".").
Qed.

Lemma cache_key_no_slash s :
  post_init_fields env s -> Str.has_char "/"%char (cache_key s) = false.
Proof.
  intros (-> & _ & _). unfold derived_cache_key.
  destruct (Str.truthy _); [|apply has_char_slugify].
  by rewrite !has_char_append, !has_char_slugify.
Qed.

Lemma Song_init_post_init_fields fs n a v s :
  Song_init env fs n a v = Ok s -> post_init_fields env s.
Proof.
  unfold Song_init. destruct (Paths.expanduser env v) as [v'|]; [|done].
  destruct (negb _); [done|]. by intros [= <-].
Qed.

(** The resolved string of a file directly inside the cache directory. *)
Lemma fs_key_cache_file seg :
  String.eqb seg ".." = false ->
  fs_key env (Paths.joinpath (Paths.CACHE_DIR env) (Paths.MkPath false [seg]))
  = "/" +:+ Str.join "/" (Paths.parts (Paths.abspath env (Paths.CACHE_DIR env)) ++ [seg]).
Proof.
  intros Hseg. unfold fs_key.
  rewrite abspath_under by (by repeat constructor). done.
Qed.

Lemma join_snoc_inj sep R a b :
  Str.join sep (R ++ [a]) = Str.join sep (R ++ [b]) -> a = b.
Proof.
  destruct R as [|x R]; [done|].
  rewrite !join_app by done. simpl.
  intros E. by repeat apply String.app_inj in E.
Qed.

Lemma join_snoc_neq sep R a :
  Str.truthy a = true -> Str.join sep (R ++ [a]) <> Str.join sep R.
Proof.
  intros Ha E. apply (f_equal String.length) in E.
  destruct R as [|x R].
  - destruct a; [done|]. simpl in E. lia.
  - rewrite !join_app in E by done. rewrite !length_append in E.
    destruct a; [done|]. simpl in E. lia.
Qed.

Lemma length_suffix_ge k suffix :
  String.length suffix <= String.length (k +:+ suffix).
Proof. rewrite length_append. lia. Qed.

Lemma suffix_not_dotdot k :
  String.eqb (k +:+ ".jpg") ".." = false /\ String.eqb (k +:+ ".ogg") ".." = false.
Proof.
  split; apply String.eqb_neq; intros E; apply (f_equal String.length) in E;
    rewrite length_append in E; simpl in E; lia.
Qed.

Lemma thumbnail_path_unfold s :
  post_init_fields env s ->
  thumbnail_path s
  = Paths.joinpath (Paths.CACHE_DIR env) (Paths.MkPath false [cache_key s +:+ ".jpg"]).
Proof.
  intros Hs. destruct (Hs) as (_ & -> & _).
  rewrite Path_of_str_one_segment; [done| |].
  - by rewrite has_char_append, (cache_key_no_slash s Hs).
  - pose proof (length_suffix_ge (cache_key s) ".jpg"). simpl in *. lia.
Qed.

Lemma audio_path_unfold s :
  post_init_fields env s ->
  audio_path s
  = Paths.joinpath (Paths.CACHE_DIR env) (Paths.MkPath false [cache_key s +:+ ".ogg"]).
Proof.
  intros Hs. destruct (Hs) as (_ & _ & ->).
  rewrite Path_of_str_one_segment; [done| |].
  - by rewrite has_char_append, (cache_key_no_slash s Hs).
  - pose proof (length_suffix_ge (cache_key s) ".ogg"). simpl in *. lia.
Qed.

(** The thumbnail and the audio derivative of a song are different
    files, and neither is the cache directory. *)
Lemma thumbnail_is_not_audio s :
  post_init_fields env s ->
  fs_key env (thumbnail_path s) <> fs_key env (audio_path s).
Proof.
  intros Hs. rewrite thumbnail_path_unfold, audio_path_unfold by done.
  destruct (suffix_not_dotdot (cache_key s)) as [H1 H2].
  rewrite !fs_key_cache_file by done.
  intros E. apply String.app_inj, join_snoc_inj, String.app_inj in E. done.
Qed.

Lemma cache_dir_is_not_audio s :
  post_init_fields env s ->
  fs_key env (Paths.CACHE_DIR env) <> fs_key env (audio_path s).
Proof.
  intros Hs. rewrite audio_path_unfold by done.
  destruct (suffix_not_dotdot (cache_key s)) as [H1 H2].
  rewrite fs_key_cache_file by done. unfold fs_key at 1.
  unfold Paths.str at 1. simpl.
  intros E. apply String.app_inj in E. symmetry in E. revert E.
  apply join_snoc_neq. destruct (cache_key s); done.
Qed.

Lemma exists_write_file fs p q :
  Paths.exists_ env (write_file env fs p) q
  = String.eqb (fs_key env q) (fs_key env p) || Paths.exists_ env fs q.
Proof. reflexivity. Qed.

Lemma exists_write_other fs p q :
  fs_key env p <> fs_key env q ->
  Paths.exists_ env (write_file env fs p) q = Paths.exists_ env fs q.
Proof.
  intros Hne. rewrite exists_write_file.
  destruct (String.eqb_spec (fs_key env q) (fs_key env p)); [congruence|done].
Qed.

Lemma exists_write_same fs p : Paths.exists_ env (write_file env fs p) p = true.
Proof. rewrite exists_write_file. by rewrite String.eqb_refl. Qed.

Lemma exists_write_mono fs p q :
  Paths.exists_ env fs q = true -> Paths.exists_ env (write_file env fs p) q = true.
Proof. intros Hq. rewrite exists_write_file, Hq. apply orb_true_r. Qed.

Lemma exists_mkdir_mono fs p q :
  Paths.exists_ env fs q = true -> Paths.exists_ env (mkdir env fs p) q = true.
Proof.
  intros Hq. unfold mkdir. destruct (Paths.exists_ env fs p); [done|].
  by apply exists_write_mono.
Qed.

Lemma exists_mkdir_other fs p q :
  fs_key env p <> fs_key env q ->
  Paths.exists_ env (mkdir env fs p) q = Paths.exists_ env fs q.
Proof.
  intros Hne. unfold mkdir. destruct (Paths.exists_ env fs p); [done|].
  by apply exists_write_other.
Qed.

Lemma exists_mkdir_same fs p : Paths.exists_ env (mkdir env fs p) p = true.
Proof.
  unfold mkdir. destruct (Paths.exists_ env fs p) eqn:E; [done|].
  apply exists_write_same.
Qed.

Lemma mkdir_existing fs p :
  Paths.exists_ env fs p = true -> mkdir env fs p = fs.
Proof. intros Hp. unfold mkdir. by rewrite Hp. Qed.

End CacheFiles.

Section EnsureAssets.
Import PyNum Assets.
Context (env : Paths.Env) (dec : Decoder).

#[local] Arguments write_file : simpl never.
#[local] Arguments mkdir : simpl never.
#[local] Arguments Paths.exists_ : simpl never.

Lemma song_demo_constructed :
  Song_init env_demo ["/data/songs/a.mp4"] "Tune" "Band" video_demo = Ok song_demo.
Proof. reflexivity. Qed.

(** C8: when the source video decodes but has no audio stream and the
    audio derivative does not exist yet, [ensure_assets] raises the
    no-audio-track error, and the audio derivative still does not exist
    when it does: the call writes no audio file. *)
Theorem C8_no_audio_aborts_without_audio_file fs s clip :
  post_init_fields env s ->
  dec (video_path s) = Some clip ->
  clip_audio clip = false ->
  clip_frame_ok clip (frame_time_of (default 0%Q (clip_duration clip))) = true ->
  Paths.exists_ env fs (audio_path s) = false ->
  out_exn (ensure_assets env dec fs s) = Some NoAudioTrack
  /\ Paths.exists_ env (out_fs (ensure_assets env dec fs s)) (audio_path s) = false
  /\ audio_writes (out_log (ensure_assets env dec fs s)) = 0.
Proof.
  intros Hs Hdec Haudio Hframe Hmissing. unfold ensure_assets.
  assert (Hdir : Paths.exists_ env (mkdir env fs (Paths.CACHE_DIR env)) (audio_path s) = false)
    by (rewrite exists_mkdir_other; [done|by apply cache_dir_is_not_audio]).
  rewrite Hdir. cbn [negb andb]. rewrite andb_false_r. cbn [andb].
  rewrite Hdec, Hframe, Haudio. cbn [negb]. rewrite andb_false_r.
  destruct (_ || _); cbn; repeat split; try done.
  destruct (clip_size clip); cbn;
    (rewrite exists_write_other; [done|by apply thumbnail_is_not_audio]).
Qed.

Lemma guard_up_to_date fs s :
  (let fs := mkdir env fs (Paths.CACHE_DIR env) in
   negb (negb (Paths.exists_ env fs (thumbnail_path s)))
   && negb (negb (Paths.exists_ env fs (audio_path s)))
   && negb (negb (assets_prepared s)) && Qltb 0 (duration s))
  = up_to_date env fs s.
Proof. unfold up_to_date. cbv zeta. by rewrite !negb_involutive. Qed.

Lemma measured_fields clip s :
  let s' := measured clip s in
  thumbnail_path s' = thumbnail_path s /\ audio_path s' = audio_path s
  /\ video_path s' = video_path s /\ assets_prepared s' = assets_prepared s
  /\ duration s' = default 0%Q (clip_duration clip).
Proof. unfold measured. by destruct (clip_size clip). Qed.

(** [ensure_assets], branch by branch. *)
Lemma ensure_assets_up_to_date fs s :
  up_to_date env fs s = true ->
  ensure_assets env dec fs s
  = MkOutcome s (mkdir env fs (Paths.CACHE_DIR env)) [] None.
Proof.
  intros Hup. unfold ensure_assets. cbv zeta.
  by rewrite guard_up_to_date, Hup.
Qed.

Lemma ensure_assets_cannot_open fs s :
  up_to_date env fs s = false ->
  dec (video_path s) = None ->
  ensure_assets env dec fs s
  = MkOutcome s (mkdir env fs (Paths.CACHE_DIR env))
      [OpenClip (video_path s)] (Some DecodeError).
Proof.
  intros Hup Hdec. unfold ensure_assets. cbv zeta.
  by rewrite guard_up_to_date, Hup, Hdec.
Qed.

Lemma ensure_assets_opened fs s clip :
  up_to_date env fs s = false ->
  dec (video_path s) = Some clip ->
  let fs1 := mkdir env fs (Paths.CACHE_DIR env) in
  let s1 := measured clip s in
  let t := frame_time_of (default 0%Q (clip_duration clip)) in
  let thumb := thumb_wanted env fs s in
  let audio := audio_wanted env fs s in
  let s2 := if thumb then clear_thumbnail s1 else s1 in
  let fs2 := if thumb then write_file env fs1 (thumbnail_path s) else fs1 in
  let log2 := [OpenClip (video_path s)]
              ++ (if thumb then [SaveFrame (thumbnail_path s) t] else []) in
  ensure_assets env dec fs s
  = if thumb && negb (clip_frame_ok clip t)
    then MkOutcome s1 fs1 [OpenClip (video_path s)] (Some DecodeError)
    else if audio && negb (clip_audio clip)
    then MkOutcome s2 fs2 log2 (Some NoAudioTrack)
    else MkOutcome
           (set_assets_prepared true
              (if Qle_bool (duration s2) 0 then set_duration 1%Q s2 else s2))
           (if audio then write_file env fs2 (audio_path s) else fs2)
           (log2 ++ (if audio then [WriteAudio (audio_path s)] else []))
           None.
Proof.
  intros Hup Hdec. unfold ensure_assets. cbv zeta.
  rewrite guard_up_to_date, Hup, Hdec.
  fold (thumb_wanted env fs s). fold (audio_wanted env fs s).
  unfold measured.
  destruct (thumb_wanted env fs s), (audio_wanted env fs s),
    (clip_frame_ok clip _), (clip_audio clip), (clip_size clip);
    cbn [andb negb]; try reflexivity; by rewrite ?app_nil_r.
Qed.

Lemma mkdir_idem fs p : mkdir env (mkdir env fs p) p = mkdir env fs p.
Proof. apply mkdir_existing, exists_mkdir_same. Qed.

Lemma up_to_date_wanted fs s :
  up_to_date env fs s = true ->
  thumb_wanted env fs s = false /\ audio_wanted env fs s = false.
Proof.
  unfold up_to_date, thumb_wanted, audio_wanted. cbv zeta.
  intros [[[-> ->]%andb_true_iff ->]%andb_true_iff _]%andb_true_iff. done.
Qed.

(** After a call that returned, everything is in place. *)
Lemma ensure_assets_returns_up_to_date fs s :
  out_exn (ensure_assets env dec fs s) = None ->
  up_to_date env (out_fs (ensure_assets env dec fs s))
    (out_song (ensure_assets env dec fs s)) = true
  /\ Paths.exists_ env (out_fs (ensure_assets env dec fs s)) (Paths.CACHE_DIR env) = true.
Proof.
  destruct (up_to_date env fs s) eqn:Hup.
  { rewrite ensure_assets_up_to_date by done. cbn. intros _.
    split; [|apply exists_mkdir_same].
    unfold up_to_date in *. cbv zeta in *. by rewrite mkdir_idem. }
  destruct (dec (video_path s)) as [clip|] eqn:Hdec;
    [|by rewrite ensure_assets_cannot_open].
  rewrite (ensure_assets_opened fs s clip) by done. cbv zeta.
  destruct (_ && negb (clip_frame_ok _ _)); [done|].
  destruct (_ && negb (clip_audio _)); [done|]. cbn. intros _.
  set (fs1 := mkdir env fs (Paths.CACHE_DIR env)).
  set (fs3 := if audio_wanted env fs s then _ else _).
  destruct (measured_fields clip s) as (Ht & Ha & _ & Hp & Hd).
  assert (Hdir : Paths.exists_ env fs3 (Paths.CACHE_DIR env) = true).
  { subst fs3. destruct (audio_wanted env fs s), (thumb_wanted env fs s);
      repeat apply exists_write_mono; apply exists_mkdir_same. }
  split; [|done]. unfold up_to_date. cbv zeta. rewrite (mkdir_existing env fs3) by done.
  assert (Hthumb : Paths.exists_ env fs3 (thumbnail_path s) = true).
  { subst fs3. destruct (thumb_wanted env fs s) eqn:Hw.
    - destruct (audio_wanted env fs s);
        [apply exists_write_mono|]; apply exists_write_same.
    - unfold thumb_wanted in Hw. apply orb_false_iff in Hw as [Hw _].
      apply negb_false_iff in Hw.
      destruct (audio_wanted env fs s); [apply exists_write_mono|]; exact Hw. }
  assert (Haudio : Paths.exists_ env fs3 (audio_path s) = true).
  { subst fs3. destruct (audio_wanted env fs s) eqn:Hw; [apply exists_write_same|].
    unfold audio_wanted in Hw. apply negb_false_iff in Hw.
    destruct (thumb_wanted env fs s); [apply exists_write_mono|]; exact Hw. }
  set (s2 := if thumb_wanted env fs s then _ else _).
  assert (Hs2 : thumbnail_path s2 = thumbnail_path s /\ audio_path s2 = audio_path s).
  { subst s2. by destruct (thumb_wanted env fs s). }
  destruct Hs2 as [Ht2 Ha2].
  destruct (Qle_bool (duration s2) 0) eqn:Hle; cbn;
    rewrite Ht2, Ha2, Hthumb, Haudio; cbn; [done|].
  unfold Qltb. by rewrite Hle.
Qed.

(** A call keeps the constructed fields and the loop flag, and removes
    no file. *)
Lemma ensure_assets_stable fs s :
  stable_fields s (out_song (ensure_assets env dec fs s))
  /\ (forall p, Paths.exists_ env fs p = true ->
                Paths.exists_ env (out_fs (ensure_assets env dec fs s)) p = true).
Proof.
  destruct (up_to_date env fs s) eqn:Hup.
  { rewrite ensure_assets_up_to_date by done. cbn.
    split; [done|]. intros p. apply exists_mkdir_mono. }
  destruct (dec (video_path s)) as [clip|] eqn:Hdec.
  2:{ rewrite ensure_assets_cannot_open by done. cbn.
      split; [done|]. intros p. apply exists_mkdir_mono. }
  rewrite (ensure_assets_opened fs s clip) by done. cbv zeta.
  assert (Hm : stable_fields s (measured clip s))
    by (unfold measured; by destruct (clip_size clip)).
  destruct (thumb_wanted env fs s), (audio_wanted env fs s),
    (clip_frame_ok clip _), (clip_audio clip); cbn [andb negb out_song out_fs];
    (split; [|intros p Hp; repeat apply exists_write_mono; by apply exists_mkdir_mono]);
    try exact Hm;
    destruct Hm as (? & ? & ? & ? & ? & ? & ? & ?);
    try destruct (Qle_bool _ 0); done.
Qed.

(** When the decoder opens the source, finds an audio stream and saves
    the frame, the call returns. *)
Lemma ensure_assets_returns fs s clip :
  dec (video_path s) = Some clip ->
  clip_audio clip = true ->
  clip_frame_ok clip (frame_time_of (default 0%Q (clip_duration clip))) = true ->
  out_exn (ensure_assets env dec fs s) = None.
Proof.
  intros Hdec Haudio Hframe.
  destruct (up_to_date env fs s) eqn:Hup;
    [by rewrite ensure_assets_up_to_date|].
  rewrite (ensure_assets_opened fs s clip) by done. cbv zeta.
  rewrite Hframe, Haudio. cbn [negb]. by rewrite !andb_false_r.
Qed.

Lemma audio_writes_app l1 l2 :
  audio_writes (l1 ++ l2) = audio_writes l1 + audio_writes l2.
Proof. unfold audio_writes. by rewrite List.filter_app, length_app. Qed.

(** One call writes the audio track at most once, and only when the
    audio derivative is missing. *)
Lemma ensure_assets_audio_writes fs s :
  audio_writes (out_log (ensure_assets env dec fs s))
  <= (if audio_wanted env fs s then 1 else 0).
Proof.
  destruct (up_to_date env fs s) eqn:Hup.
  { rewrite ensure_assets_up_to_date by done. cbn. lia. }
  destruct (dec (video_path s)) as [clip|] eqn:Hdec.
  2:{ rewrite ensure_assets_cannot_open by done. cbn. lia. }
  rewrite (ensure_assets_opened fs s clip) by done. cbv zeta.
  destruct (thumb_wanted env fs s), (audio_wanted env fs s),
    (clip_frame_ok clip _), (clip_audio clip); cbn; lia.
Qed.

(** The second of two calls in succession, when the first one raised:
    it reads the same duration again. *)
Lemma ensure_assets_raised_again fs s e :
  post_init_fields env s ->
  out_exn (ensure_assets env dec fs s) = Some e ->
  duration (out_song (ensure_assets env dec (out_fs (ensure_assets env dec fs s))
                        (out_song (ensure_assets env dec fs s))))
  = duration (out_song (ensure_assets env dec fs s))
  /\ audio_wanted env (out_fs (ensure_assets env dec fs s))
       (out_song (ensure_assets env dec fs s)) = audio_wanted env fs s.
Proof.
  intros Hs.
  destruct (up_to_date env fs s) eqn:Hup.
  { by rewrite ensure_assets_up_to_date. }
  set (fs1 := mkdir env fs (Paths.CACHE_DIR env)).
  destruct (dec (video_path s)) as [clip|] eqn:Hdec.
  2:{ rewrite ensure_assets_cannot_open by done. cbn. intros _. fold fs1.
      split; [|unfold audio_wanted; subst fs1; by rewrite mkdir_idem].
      destruct (up_to_date env fs1 s) eqn:Hup'.
      - by rewrite ensure_assets_up_to_date.
      - by rewrite ensure_assets_cannot_open. }
  destruct (measured_fields clip s) as (Ht & Ha & Hv & Hp & Hd).
  rewrite (ensure_assets_opened fs s clip) by done. cbv zeta. fold fs1.
  destruct (thumb_wanted env fs s && negb (clip_frame_ok clip _)) eqn:Hframe.
  { cbn. intros _.
    split; [|unfold audio_wanted; subst fs1; by rewrite mkdir_idem, Ha].
    apply andb_true_iff in Hframe as [Hw Hframe].
    assert (Hw' : thumb_wanted env fs1 (measured clip s) = true)
      by (unfold thumb_wanted in *; subst fs1; by rewrite mkdir_idem, Ht, Hp).
    destruct (up_to_date env fs1 (measured clip s)) eqn:Hup'.
    { apply up_to_date_wanted in Hup' as [? _]. congruence. }
    rewrite (ensure_assets_opened fs1 _ clip) by (by rewrite ?Hv).
    cbv zeta. rewrite Hw', Hframe. cbn.
    by destruct (measured_fields clip (measured clip s)) as (_ & _ & _ & _ & ->). }
  destruct (audio_wanted env fs s && negb (clip_audio clip)) eqn:Haudio; [|done].
  cbn. intros _. apply andb_true_iff in Haudio as [Hw Hnoaudio].
  set (s2 := if thumb_wanted env fs s then clear_thumbnail _ else _).
  set (fs2 := if thumb_wanted env fs s then write_file _ _ _ else _).
  assert (Hs2 : thumbnail_path s2 = thumbnail_path s /\ audio_path s2 = audio_path s
                /\ video_path s2 = video_path s
                /\ duration s2 = default 0%Q (clip_duration clip)).
  { subst s2. by destruct (thumb_wanted env fs s). }
  destruct Hs2 as (Ht2 & Ha2 & Hv2 & Hd2).
  assert (Hdir : Paths.exists_ env fs2 (Paths.CACHE_DIR env) = true).
  { subst fs2. destruct (thumb_wanted env fs s);
      [apply exists_write_mono|]; apply exists_mkdir_same. }
  assert (Hw2 : audio_wanted env fs2 s2 = true).
  { unfold audio_wanted in *. rewrite (mkdir_existing env fs2), Ha2 by done.
    subst fs2. destruct (thumb_wanted env fs s); [|done].
    rewrite exists_write_other; [done|by apply thumbnail_is_not_audio]. }
  split; [|by rewrite Hw2, Hw].
  destruct (up_to_date env fs2 s2) eqn:Hup'.
  { apply up_to_date_wanted in Hup' as [_ ?]. congruence. }
  rewrite (ensure_assets_opened fs2 s2 clip) by (by rewrite ?Hv2).
  cbv zeta. rewrite Hw2, Hnoaudio. cbn [andb negb].
  destruct (measured_fields clip s2) as (_ & _ & _ & _ & Hd').
  destruct (thumb_wanted env fs2 s2), (clip_frame_ok clip _); cbn; congruence.
Qed.

(** C7: two calls of [ensure_assets] in succession write the audio track
    at most once; the second call leaves the duration as the first one
    left it; after a first call that returned, the second call changes
    neither the song nor the files and decodes nothing; and a call is
    such a no-op whenever the thumbnail and the audio derivative exist,
    the duration is positive and the assets were already prepared. *)
Theorem C7_ensure_assets_idempotent fs s :
  post_init_fields env s ->
  let o1 := ensure_assets env dec fs s in
  let o2 := ensure_assets env dec (out_fs o1) (out_song o1) in
  audio_writes (out_log o1) + audio_writes (out_log o2) <= 1
  /\ duration (out_song o2) = duration (out_song o1)
  /\ (out_exn o1 = None -> o2 = MkOutcome (out_song o1) (out_fs o1) [] None)
  /\ (Paths.exists_ env fs (thumbnail_path s) = true ->
      Paths.exists_ env fs (audio_path s) = true ->
      (0 < duration s)%Q ->
      assets_prepared s = true ->
      o1 = MkOutcome s (mkdir env fs (Paths.CACHE_DIR env)) [] None).
Proof.
  intros Hs o1 o2.
  assert (Hreturned : out_exn o1 = None -> o2 = MkOutcome (out_song o1) (out_fs o1) [] None).
  { intros Hok. subst o2.
    destruct (ensure_assets_returns_up_to_date fs s Hok) as [Hup Hdir].
    fold o1 in Hup, Hdir.
    by rewrite ensure_assets_up_to_date, mkdir_existing. }
  repeat split; [| |done|].
  - destruct (out_exn o1) as [e|] eqn:Hexn.
    + pose proof (ensure_assets_audio_writes fs s) as H1.
      pose proof (ensure_assets_audio_writes (out_fs o1) (out_song o1)) as H2.
      destruct (ensure_assets_raised_again fs s e Hs Hexn) as [_ Hw].
      fold o1 in H1, H2, Hw. fold o2 in H2. rewrite Hw in H2.
      assert (audio_writes (out_log o1) = 0); [|destruct (audio_wanted env fs s); lia].
      subst o1. clear -Hexn.
      destruct (up_to_date env fs s) eqn:Hup;
        [by rewrite ensure_assets_up_to_date in *|].
      destruct (dec (video_path s)) as [clip|] eqn:Hdec;
        [|by rewrite ensure_assets_cannot_open in *].
      rewrite (ensure_assets_opened fs s clip) in * by done. cbv zeta in *.
      destruct (thumb_wanted env fs s), (audio_wanted env fs s),
        (clip_frame_ok clip _), (clip_audio clip); cbn in *; done.
    + rewrite Hreturned by done. cbn.
      pose proof (ensure_assets_audio_writes fs s) as H1. fold o1 in H1.
      destruct (audio_wanted env fs s); lia.
  - destruct (out_exn o1) as [e|] eqn:Hexn.
    + by destruct (ensure_assets_raised_again fs s e Hs Hexn) as [? _].
    + by rewrite Hreturned.
  - intros Ht Ha Hd Hp. subst o1. apply ensure_assets_up_to_date.
    unfold up_to_date. cbv zeta.
    rewrite !exists_mkdir_mono, Hp by done. cbn. by apply Qltb_lt.
Qed.

End EnsureAssets.

Lemma C8_no_audio_aborts_without_audio_file_witness :
  let dec := fun _ => Some clip_demo in
  let fs := ["/data/songs/a.mp4"] in
  Assets.out_exn (Assets.ensure_assets env_demo dec fs song_demo) = Some NoAudioTrack
  /\ Paths.exists_ env_demo (Assets.out_fs (Assets.ensure_assets env_demo dec fs song_demo))
       (Assets.audio_path song_demo) = false
  /\ Assets.audio_writes (Assets.out_log (Assets.ensure_assets env_demo dec fs song_demo)) = 0.
Proof.
  apply (C8_no_audio_aborts_without_audio_file env_demo (fun _ => Some clip_demo)
           ["/data/songs/a.mp4"] song_demo clip_demo).
  - repeat split; reflexivity.
  - reflexivity.
  - reflexivity.
  - reflexivity.
  - reflexivity.
Defined.

Lemma C7_ensure_assets_idempotent_witness :
  let dec := fun _ => Some clip_with_audio in
  let o1 := Assets.ensure_assets env_demo dec fs_ready song_ready in
  let o2 := Assets.ensure_assets env_demo dec (Assets.out_fs o1) (Assets.out_song o1) in
  Assets.audio_writes (Assets.out_log o1) + Assets.audio_writes (Assets.out_log o2) <= 1
  /\ Assets.duration (Assets.out_song o2) = Assets.duration (Assets.out_song o1)
  /\ o2 = Assets.MkOutcome (Assets.out_song o1) (Assets.out_fs o1) [] None
  /\ o1 = Assets.MkOutcome song_ready fs_ready [] None.
Proof.
  intros dec o1 o2.
  destruct (C7_ensure_assets_idempotent env_demo dec fs_ready song_ready)
    as (Hwrites & Hduration & Hsecond & Hnoop).
  - repeat split; reflexivity.
  - split; [exact Hwrites|]. split; [exact Hduration|]. split.
    + apply Hsecond. reflexivity.
    + apply Hnoop; reflexivity.
Defined.

(** A first call on a fresh song decodes once and writes the audio track;
    the second call does nothing. *)
Example ensure_assets_fresh_then_ready :
  let dec := fun _ => Some clip_with_audio in
  let o1 := Assets.ensure_assets env_demo dec ["/data/songs/a.mp4"] song_demo in
  let o2 := Assets.ensure_assets env_demo dec (Assets.out_fs o1) (Assets.out_song o1) in
  Assets.audio_writes (Assets.out_log o1) = 1
  /\ Assets.out_log o2 = []
  /\ Assets.duration (Assets.out_song o2) = (10 # 1)%Q.
Proof. vm_compute. done. Qed.

(** * The playback transport *)

Section StartSong.
Import PyNum Transport.
Context (w : World).

#[local] Arguments song_in : simpl never.
#[local] Arguments song_eq : simpl never.
#[local] Arguments opt_song_eq : simpl never.
#[local] Arguments without_song : simpl never.
#[local] Arguments song_index : simpl never.
#[local] Arguments _clamp_song_position : simpl never.
#[local] Arguments Paths.exists_ : simpl never.
#[local] Arguments _start_song : simpl never.
#[local] Arguments _start_song_device : simpl never.
#[local] Arguments song_ensure_assets : simpl never.
#[local] Arguments can_prepare : simpl never.
#[local] Arguments play_song : simpl never.
#[local] Arguments stop_song : simpl never.
#[local] Arguments seek_target : simpl never.
#[local] Arguments _ensure_song_visible : simpl never.
#[local] Arguments _apply_search : simpl never.
#[local] Arguments play_next_song : simpl never.

Lemma ready_to_play_spec a song pos :
  ready_to_play w a song pos = true ->
  (Paths.exists_ (env w) (fs a) (Assets.audio_path (heap a song)) = true
   \/ can_prepare w (heap a song) = true)
  /\ can_load w (Assets.audio_path (heap a song)) = true
  /\ can_play w (Assets.audio_path (heap a song))
       (_clamp_song_position (heap a song) pos) = true.
Proof.
  unfold ready_to_play.
  by intros [[?%orb_true_iff ?]%andb_true_iff ?]%andb_true_iff.
Qed.

(** The device part of [_start_song] on a device that takes the song. *)
Lemma start_song_device_ready a song clamped imm :
  can_load w (Assets.audio_path (heap a song)) = true ->
  can_play w (Assets.audio_path (heap a song)) clamped = true ->
  exists a',
    _start_song_device w song clamped imm a = (Ok tt, a')
    /\ started a song clamped imm a'.
Proof.
  intros Hload Hplay.
  unfold _start_song_device, bind, gets, when, ret, modify, try_except_pygame,
    try_except_pass, music_set_endevent, music_stop, event_clear_music_end,
    music_load, music_play, music_set_volume, music_pause, on_mixer, modify.
  destruct (get_busy (mixer a)); cbn; rewrite Hload; cbn; rewrite Hplay; cbn;
    destruct imm; cbn;
    destruct (song_in (heap a) song (shuffle_queue a)) eqn:Hin;
    unfold video_load, bind, video_unload, modify; cbn;
    destruct (opt_song_eq _ _ _ && _); cbn;
    try destruct (decoder w _); cbn;
    (eexists; split; [reflexivity|]);
    unfold started; cbn; rewrite ?Hin; repeat split; reflexivity.
Qed.

Lemma stable_fields_refl s : Assets.stable_fields s s.
Proof. by repeat split. Qed.

Lemma stable_fields_trans s1 s2 s3 :
  Assets.stable_fields s1 s2 -> Assets.stable_fields s2 s3 ->
  Assets.stable_fields s1 s3.
Proof.
  intros (?&?&?&?&?&?&?&?) (?&?&?&?&?&?&?&?). repeat split; congruence.
Qed.

Lemma assets_refreshed_refl a : assets_refreshed w a a.
Proof. split; [intros r; apply stable_fields_refl|]. by repeat split. Qed.

Lemma assets_refreshed_trans a1 a2 a3 :
  assets_refreshed w a1 a2 -> assets_refreshed w a2 a3 ->
  assets_refreshed w a1 a3.
Proof.
  intros (Hh & Hf & H) (Hh' & Hf' & H').
  split; [intros r; eapply stable_fields_trans; [apply Hh|apply Hh']|].
  split; [intros p Hp; by apply Hf', Hf|].
  destruct H as (?&?&?&?&?&?&?&?&?&?&?&?&?&?&?&?&?&?&?).
  destruct H' as (?&?&?&?&?&?&?&?&?&?&?&?&?&?&?&?&?&?&?).
  repeat split; congruence.
Qed.

Lemma song_ensure_assets_refreshed song a :
  assets_refreshed w a (song_ensure_assets w song a).2.
Proof.
  unfold song_ensure_assets.
  destruct (ensure_assets_stable (env w) (decoder w) (fs a) (heap a song))
    as [Hstable Hfiles].
  assert (H : assets_refreshed w a
            (set_fs (Assets.out_fs (Assets.ensure_assets (env w) (decoder w) (fs a) (heap a song)))
               (update_song song
                  (Assets.out_song (Assets.ensure_assets (env w) (decoder w) (fs a) (heap a song)))
                  a))).
  { split; [|split; [exact Hfiles|by repeat split]].
    intros r. cbn. destruct (Nat.eqb_spec r song) as [->|]; [done|].
    apply stable_fields_refl. }
  by destruct (Assets.out_exn _).
Qed.

Lemma prepare_visible_assets_loop_refreshed l a :
  (_prepare_visible_assets_loop w l a).1 = Ok tt
  /\ assets_refreshed w a (_prepare_visible_assets_loop w l a).2.
Proof.
  revert a. induction l as [|song l IH]; intros a; cbn.
  - split; [done|apply assets_refreshed_refl].
  - unfold bind, try_except_pass. cbn.
    destruct (IH (song_ensure_assets w song a).2) as [Hok Hsame].
    split; [done|].
    eapply assets_refreshed_trans; [apply song_ensure_assets_refreshed|done].
Qed.

Lemma refresh_display_songs_refreshed a :
  (forall v, assets_refreshed w a (set_display_songs v a)) ->
  (_refresh_display_songs w a).1 = Ok tt
  /\ assets_refreshed w a (_refresh_display_songs w a).2.
Proof.
  intros Hset. unfold _refresh_display_songs, bind, modify, _prepare_visible_assets.
  match goal with
  | |- context [_prepare_visible_assets_loop w ?l ?s] =>
      destruct (prepare_visible_assets_loop_refreshed l s) as [Hok Hsame];
      assert (Hs : assets_refreshed w a s)
  end.
  { destruct (visible_song_limit a <=? 0)%Z; apply Hset. }
  split; [done|]. by eapply assets_refreshed_trans.
Qed.

Lemma set_display_songs_refreshed a v : assets_refreshed w a (set_display_songs v a).
Proof. split; [intros r; apply stable_fields_refl|]. by repeat split. Qed.

Lemma set_visible_song_limit_refreshed a v :
  assets_refreshed w a (set_visible_song_limit v a).
Proof. split; [intros r; apply stable_fields_refl|]. by repeat split. Qed.

(** [_ensure_song_visible] returns, and only prepares assets. *)
Lemma ensure_song_visible_refreshed song a :
  (_ensure_song_visible w song a).1 = Ok tt
  /\ assets_refreshed w a (_ensure_song_visible w song a).2.
Proof.
  unfold _ensure_song_visible.
  destruct (song_index (heap a) song (filtered_songs a)) as [index|];
    [|split; [done|apply assets_refreshed_refl]].
  destruct (Z.of_nat index <? visible_song_limit a)%Z;
    [split; [done|apply assets_refreshed_refl]|].
  cbv zeta.
  match goal with
  | |- context [_refresh_display_songs w ?s] =>
      destruct (refresh_display_songs_refreshed s) as [Hok Hsame];
      [intros v; apply set_display_songs_refreshed|]
  end.
  split; [done|].
  eapply assets_refreshed_trans; [apply set_visible_song_limit_refreshed|done].
Qed.

Lemma song_ensure_assets_can_prepare song a :
  can_prepare w (heap a song) = true ->
  (song_ensure_assets w song a).1 = Ok tt.
Proof.
  unfold can_prepare, song_ensure_assets.
  destruct (decoder w (Assets.video_path (heap a song))) as [clip|] eqn:Hdec;
    [|done].
  intros [Haudio Hframe]%andb_true_iff.
  by rewrite (ensure_assets_returns (env w) (decoder w) (fs a) (heap a song) clip).
Qed.

(** [_start_song] on a song that is ready to play: [a1] is the state
    once its assets are ensured. *)
Lemma start_song_ready a song pos imm :
  ready_to_play w a song pos = true ->
  exists a1 a',
    _start_song w song pos imm a = (Ok tt, a')
    /\ assets_refreshed w a a1
    /\ started a1 song (_clamp_song_position (heap a song) pos) imm a'.
Proof.
  intros (Hassets & Hload & Hplay)%ready_to_play_spec.
  unfold _start_song, bind, gets, when.
  destruct (Paths.exists_ (env w) (fs a) (Assets.audio_path (heap a song))) eqn:Hex;
    cbn [negb].
  - unfold ret.
    destruct (start_song_device_ready a song
                (_clamp_song_position (heap a song) pos) imm Hload Hplay)
      as (a' & Hstart & Hstarted).
    exists a, a'. split_and!; [done|apply assets_refreshed_refl|done].
  - destruct Hassets as [|Hprepare]; [done|].
    pose proof (song_ensure_assets_can_prepare song a Hprepare) as Hok.
    pose proof (song_ensure_assets_refreshed song a) as Hsame.
    destruct (song_ensure_assets w song a) as [r a1]. cbn in Hok, Hsame. subst r.
    destruct Hsame as (Hh & Hsame).
    destruct (Hh song) as (_&_&_&_&_& Haudio &_).
    destruct (start_song_device_ready a1 song
                (_clamp_song_position (heap a song) pos) imm)
      as (a' & Hstart & Hstarted); [by rewrite Haudio..|].
    exists a1, a'. by split_and!.
Qed.

Lemma clamp_song_position_0 s : _clamp_song_position s 0 = 0%Q.
Proof.
  unfold _clamp_song_position. destruct (Qle_bool _ 0); [done|]. cbv zeta.
  destruct (py_max_cases 0 (Assets.duration s - (5 # 100))) as [[-> H]|[-> H]].
  - unfold py_min. apply Qltb_lt in H as H'. unfold Qltb in *.
    destruct (Qle_bool 0 (Assets.duration s - (5 # 100))) eqn:E; [done|].
    apply Qle_bool_gt in E. lra.
  - reflexivity.
Qed.

Lemma can_prepare_stable s s' :
  Assets.video_path s' = Assets.video_path s -> can_prepare w s' = can_prepare w s.
Proof. unfold can_prepare. by intros ->. Qed.

Lemma ready_to_play_refreshed a a1 song :
  assets_refreshed w a a1 ->
  ready_to_play w a song 0 = true -> ready_to_play w a1 song 0 = true.
Proof.
  intros (Hh & Hf & _) (Hassets & Hload & Hplay)%ready_to_play_spec.
  destruct (Hh song) as (_&_& Hvideo &_&_& Haudio &_).
  unfold ready_to_play. rewrite clamp_song_position_0 in *.
  rewrite Haudio, Hload, Hplay, (can_prepare_stable _ _ Hvideo).
  destruct Hassets as [Hex| ->]; [by rewrite (Hf _ Hex)|by rewrite orb_true_r].
Qed.

(** [play_song] on a song that is ready to play. *)
Lemma play_song_ready a song preserve :
  ready_to_play w a song 0 = true ->
  exists a', play_song w song preserve a = (Ok tt, a')
             /\ played w a song preserve a'.
Proof.
  intros Hready. unfold play_song, bind.
  set (a0 := (when (negb preserve)
                (modify (fun a => set_shuffle_queue [] (set_shuffle_active false a))) a).2).
  assert (Ha0 : when (negb preserve)
                  (modify (fun a => set_shuffle_queue [] (set_shuffle_active false a))) a
                = (Ok tt, a0)) by (subst a0; by destruct preserve).
  rewrite Ha0.
  assert (Hfields0 : heap a0 = heap a /\ fs a0 = fs a /\ clock a0 = clock a
                     /\ songs a0 = songs a /\ filtered_songs a0 = filtered_songs a
                     /\ search_query a0 = search_query a /\ rng a0 = rng a
                     /\ shuffle_queue a0 = (if preserve then shuffle_queue a else [])
                     /\ shuffle_active a0 = preserve && shuffle_active a)
    by (subst a0; by destruct preserve).
  destruct Hfields0 as (Hh0 & Hf0 & Hc0 & Hs0 & Hfl0 & Hq0 & Hr0 & Hsq0 & Hsa0).
  destruct (ensure_song_visible_refreshed song a0) as [Hok Hsame].
  destruct (_ensure_song_visible w song a0) as [r a1]. cbn in Hok, Hsame. subst r.
  assert (Hready1 : ready_to_play w a1 song 0 = true).
  { apply (ready_to_play_refreshed a0); [done|].
    unfold ready_to_play in *. by rewrite Hh0, Hf0. }
  destruct (start_song_ready a1 song 0 true Hready1)
    as (a1' & a2 & Hstart & Hsame' & Hstarted).
  rewrite Hstart. unfold modify. eexists. split; [reflexivity|].
  rewrite clamp_song_position_0 in Hstarted.
  pose proof (assets_refreshed_trans _ _ _ Hsame Hsame') as Hsame1.
  clear Hsame Hsame' Hstart Hready1. clear a1. rename a1' into a1.
  destruct Hstarted as (?&?&?&?&?&?&?&?&Hloaded&Hq&Hh2&Hf2&?&?&?&?&?&?&?&?).
  destruct Hsame1 as (Hh1 & Hf1 & Hsame).
  repeat match goal with H : _ /\ _ |- _ => destruct H end.
  assert (Hq1 : shuffle_queue a1 = shuffle_queue a0) by done.
  unfold played. cbn.
  cbn [negb] in *. split_and!; try congruence.
  - destruct (Hh1 song) as (_&_&_&_&_& Haudio &_). rewrite Hh0 in Haudio. congruence.
  - rewrite Hq, Hh2, Hq1, Hsq0. done.
  - intros r. rewrite Hh2, <- Hh0. apply Hh1.
  - intros p Hp. rewrite Hf2. apply Hf1. by rewrite Hf0.
Qed.

Lemma stop_song_stopped a :
  exists a', stop_song a = (Ok tt, a') /\ stopped a a'.
Proof.
  unfold stop_song, bind, gets, when, ret, modify, music_set_endevent,
    music_stop, event_clear_music_end, video_unload, on_mixer, modify.
  destruct (get_busy (mixer a)); cbn;
    (eexists; split; [reflexivity|]); unfold stopped; cbn; by repeat split.
Qed.

Lemma seek_song_ready a song ratio :
  ready_to_play w a song (seek_target (heap a song) ratio) = true ->
  exists a',
    seek_song w song ratio a = (Ok tt, a')
    /\ current_song a' = Some song
    /\ play_start_position a'
       = _clamp_song_position (heap a song) (seek_target (heap a song) ratio)
    /\ is_paused a'
       = (if opt_song_eq (heap a) (current_song a) song then is_paused a else false)
    /\ music_playing (mixer a') = true.
Proof.
  intros Hready. unfold seek_song, bind, gets, modify.
  destruct (opt_song_eq (heap a) (current_song a) song) eqn:Heq; cbn; rewrite ?Heq.
  - destruct (start_song_ready a song _ (negb (is_paused a)) Hready)
      as (a1 & a' & -> & _ & Hs).
    destruct Hs as (?&?&?&Hp&?&?&?&?&?&?&?&?).
    exists a'. rewrite negb_involutive in Hp. by split_and!.
  - match goal with
    | |- context [_start_song w song ?t ?i ?s] =>
        destruct (start_song_ready s song t i) as (a1 & a' & -> & _ & Hs);
        [exact Hready|]
    end.
    destruct Hs as (?&?&?&Hp&?&?&?&?&?&?&?&?).
    exists a'. by split_and!.
Qed.

(** [random.shuffle] permutes its argument. *)
Lemma swap_Permutation i j x : swap i j x ≡ₚ x.
Proof.
  unfold swap. destruct (x !! i) as [xi|] eqn:Hi; [|done].
  destruct (x !! j) as [xj|] eqn:Hj; [|done].
  by apply Permutation_insert_swap.
Qed.

Lemma shuffle_loop_Permutation i draws x : (shuffle_loop i draws x).1 ≡ₚ x.
Proof.
  revert draws x. induction i as [|i IH]; intros draws x; [done|].
  cbn [shuffle_loop]. cbv zeta. rewrite IH. apply swap_Permutation.
Qed.

Lemma random_shuffle_Permutation x a :
  exists order, random_shuffle x a = (Ok order, set_rng (shuffle_loop (length x - 1) (rng a) x).2 a)
                /\ (order ≡ₚ x).
Proof.
  unfold random_shuffle.
  pose proof (shuffle_loop_Permutation (length x - 1) (rng a) x) as Hperm.
  destruct (shuffle_loop (length x - 1) (rng a) x) as [order draws].
  by exists order.
Qed.

(** [start_shuffle] when every song of the search-filtered set is ready
    to play. *)
Lemma start_shuffle_ready a :
  _search_base a <> [] ->
  (forall song, song ∈ _search_base a -> ready_to_play w a song 0 = true) ->
  exists a' first rest,
    start_shuffle w a = (Ok tt, a')
    /\ (first :: rest ≡ₚ _search_base a)
    /\ filtered_songs a' = first :: rest
    /\ current_song a' = Some first
    /\ shuffle_active a' = true
    /\ shuffle_queue a'
       = (if song_in (heap a') first rest
          then without_song (heap a') first rest else rest)
    /\ (forall r, Assets.stable_fields (heap a r) (heap a' r))
    /\ songs a' = songs a
    /\ (forall p, Paths.exists_ (env w) (fs a) p = true ->
                  Paths.exists_ (env w) (fs a') p = true).
Proof.
  intros Hne Hready. unfold start_shuffle, bind, gets.
  destruct (_search_base a) as [|b base] eqn:Hbase; [done|].
  destruct (random_shuffle_Permutation (b :: base) a) as (order & -> & Hperm).
  destruct order as [|first rest];
    [by apply Permutation_nil_cons in Hperm|].
  unfold modify at 1 2 3 4.
  match goal with
  | |- context [_refresh_display_songs w ?s] =>
      set (a0 := s);
      destruct (refresh_display_songs_refreshed a0) as [Hok Hsame];
      [intros v; apply set_display_songs_refreshed|]
  end.
  destruct (_refresh_display_songs w a0) as [r a1]. cbn in Hok, Hsame. subst r.
  assert (Hready1 : ready_to_play w a1 first 0 = true).
  { apply (ready_to_play_refreshed a0); [done|].
    assert (Hin : first ∈ b :: base) by (rewrite <- Hperm; by left).
    specialize (Hready first Hin). by unfold ready_to_play in *. }
  destruct (play_song_ready a1 first true Hready1) as (a' & -> & Hplayed).
  destruct Hplayed as (Hcur &_&_&_&_&_&_&_&_& Hq & Hactive & Hh & Hfs &_& Hsongs & Hfiltered &_).
  destruct Hsame as (Hh1 & Hfs1 & Hsame).
  repeat match goal with H : _ /\ _ |- _ => destruct H end.
  assert (Hq1 : shuffle_queue a1 = rest) by (by transitivity (shuffle_queue a0)).
  assert (Ha1 : shuffle_active a1 = true) by (by transitivity (shuffle_active a0)).
  assert (Hf1 : filtered_songs a1 = first :: rest)
    by (by transitivity (filtered_songs a0)).
  exists a', first, rest. split_and!; try done.
  - congruence.
  - by rewrite Hactive, Ha1.
  - cbn in Hq. by rewrite Hq1 in Hq.
  - intros r. eapply stable_fields_trans; [|apply Hh]. apply (Hh1 r).
  - by transitivity (songs a1).
  - intros p Hp. by apply Hfs, Hfs1.
Qed.

Lemma Song_eqb_entry_key s s' :
  Assets.Song_eqb s s' = true -> entry_key s = entry_key s'.
Proof.
  unfold Assets.Song_eqb, entry_key.
  rewrite !andb_true_iff.
  intros ((((((((((((Hn & Ha) & Hv) & _) & _) & _) & _) & _) & _) & _) & _) & _) & _).
  apply String.eqb_eq in Hn, Ha. apply bool_decide_eq_true in Hv. congruence.
Qed.

(** In a list of distinct entries, [==] on songs is identity, whatever
    the measured fields have become. *)
Lemma stable_fields_entry_key s s' :
  Assets.stable_fields s s' ->
  entry_key s' = entry_key s /\ Assets.audio_path s' = Assets.audio_path s.
Proof. intros (Hn & Ha & Hv &_&_& Haudio &_). unfold entry_key. by rewrite Hn, Ha, Hv. Qed.

Lemma distinct_entries_song_eq h h' l x y :
  distinct_entries h l ->
  (forall r, entry_key (h' r) = entry_key (h r)) ->
  x ∈ l -> y ∈ l -> song_eq h' x y = true -> x = y.
Proof.
  intros Hdistinct Hstable Hx Hy Heq.
  unfold song_eq in Heq. apply orb_true_iff in Heq as [Heq|Heq];
    [by apply Nat.eqb_eq|].
  apply Song_eqb_entry_key in Heq.
  assert (Hkey : entry_key (h x) = entry_key (h y))
    by (by rewrite <- !Hstable).
  clear -Hdistinct Hx Hy Hkey. unfold distinct_entries in Hdistinct.
  induction l as [|z l IH]; [by apply elem_of_nil in Hx|].
  cbn in Hdistinct. apply NoDup_cons in Hdistinct as [Hz Hl].
  assert (Hmem : forall r, r ∈ l ->
            entry_key (h r) ∈ List.map (fun r => entry_key (h r)) l).
  { intros r Hr. apply list_elem_of_In, in_map_iff. exists r.
    split; [done|by apply list_elem_of_In]. }
  apply elem_of_cons in Hx as [->|Hx], Hy as [->|Hy]; [done| | |by apply IH].
  - exfalso. apply Hz. rewrite Hkey. by apply Hmem.
  - exfalso. apply Hz. rewrite <- Hkey. by apply Hmem.
Qed.

Lemma distinct_entries_NoDup h l : distinct_entries h l -> NoDup l.
Proof.
  unfold distinct_entries. induction l as [|z l IH]; [constructor|].
  cbn. intros [Hz Hl]%NoDup_cons. constructor; [|by apply IH].
  intros Hin. apply Hz. apply list_elem_of_In, in_map_iff. exists z.
  split; [done|by apply list_elem_of_In].
Qed.

Lemma song_in_false_without h song l :
  song_in h song l = false -> without_song h song l = l.
Proof.
  unfold song_in, without_song. induction l as [|x l IH]; [done|]. cbn.
  intros [-> Hl]%orb_false_iff. cbn. by rewrite IH.
Qed.

(** The shuffle invariant: when every song of the search-filtered set is
    ready to play and the set lists distinct entries, then just after
    [start_shuffle] the current song is not in the shuffle queue, and
    the current song followed by the queue is the filtered sequence, a
    permutation of the search-filtered set without duplicates. *)
Lemma start_shuffle_queue_invariant a :
  _search_base a <> [] ->
  distinct_entries (heap a) (_search_base a) ->
  (forall song, song ∈ _search_base a -> ready_to_play w a song 0 = true) ->
  exists a' current,
    start_shuffle w a = (Ok tt, a')
    /\ current_song a' = Some current
    /\ song_in (heap a') current (shuffle_queue a') = false
    /\ (current ∉ shuffle_queue a')
    /\ current :: shuffle_queue a' = filtered_songs a'
    /\ (current :: shuffle_queue a' ≡ₚ _search_base a)
    /\ NoDup (current :: shuffle_queue a').
Proof.
  intros Hne Hdistinct Hready.
  destruct (start_shuffle_ready a Hne Hready)
    as (a' & first & rest & Hstart & Hperm & Hfiltered & Hcur & _ & Hq & Hstable & _).
  assert (Hnodup : NoDup (first :: rest)).
  { rewrite Hperm. by eapply distinct_entries_NoDup. }
  assert (Hout : song_in (heap a') first rest = false).
  { apply not_true_iff_false. intros Hin. unfold song_in in Hin.
    apply existsb_exists in Hin as (item & Hitem & Heq).
    apply list_elem_of_In in Hitem.
    assert (item = first).
    { eapply (distinct_entries_song_eq (heap a) (heap a') (_search_base a));
        try done; [|rewrite <- Hperm; by right|rewrite <- Hperm; by left].
      intros r. by apply stable_fields_entry_key. }
    subst item. by apply NoDup_cons in Hnodup as [? _]. }
  rewrite Hout in Hq.
  exists a', first. rewrite Hq, Hfiltered. split_and!; try done.
  by apply NoDup_cons in Hnodup as [? _].
Qed.


End StartSong.

(** * The transport claims *)

Section TransportClaims.
Import PyNum Transport.
Context (w : World).

#[local] Arguments song_in : simpl never.
#[local] Arguments song_eq : simpl never.
#[local] Arguments opt_song_eq : simpl never.
#[local] Arguments without_song : simpl never.
#[local] Arguments _clamp_song_position : simpl never.
#[local] Arguments _start_song : simpl never.
#[local] Arguments play_song : simpl never.
#[local] Arguments stop_song : simpl never.
#[local] Arguments seek_target : simpl never.
#[local] Arguments play_next_song : simpl never.

(** C10: the reported playback position never exceeds the duration of
    the current song: while playing it is the anchor position plus the
    elapsed time, capped at the duration; while paused it is the frozen
    anchor position, capped at the duration; with no current song it is
    0.  Pausing freezes the anchor at the position reported just
    before. *)
Theorem C10_position_never_exceeds_duration a :
  match current_song a with
  | None => _current_playback_time a = 0%Q
  | Some song =>
      (_current_playback_time a <= Assets.duration (heap a song))%Q
      /\ (is_paused a = false ->
          _current_playback_time a
          = py_min (Assets.duration (heap a song))
              (play_start_position a + elapsed_seconds a)%Q)
      /\ (is_paused a = true ->
          _current_playback_time a
          = py_min (play_start_position a) (Assets.duration (heap a song)))
      /\ (is_paused a = false ->
          let a' := (_toggle_song_pause w song a).2 in
          is_paused a' = true
          /\ (play_start_position a' <= Assets.duration (heap a song))%Q
          /\ _current_playback_time a' = _current_playback_time a)
  end.
Proof.
  unfold _current_playback_time.
  destruct (current_song a) as [song|] eqn:Hcur; [|done].
  split_and!.
  - destruct (is_paused a); [apply py_min_le_r|apply py_min_le_l].
  - by intros ->.
  - by intros ->.
  - intros Hplaying. unfold _toggle_song_pause.
    assert (Hsame : opt_song_eq (heap a) (current_song a) song = true).
    { rewrite Hcur. unfold opt_song_eq, song_eq. by rewrite Nat.eqb_refl. }
    rewrite Hsame, Hplaying. cbn. rewrite Hcur. cbn. rewrite Hcur.
    split_and!; [done|apply py_min_le_l|].
    set (p := py_min (Assets.duration (heap a song)) _).
    assert (Hp : (p <= Assets.duration (heap a song))%Q) by apply py_min_le_l.
    unfold py_min at 1. apply Qltb_ge in Hp. by rewrite Hp.
Qed.

Lemma clamp_song_position_bounds s position :
  (0 < Assets.duration s)%Q ->
  (0 <= _clamp_song_position s position)%Q
  /\ (_clamp_song_position s position <= py_max 0 (Assets.duration s - (5 # 100)))%Q
  /\ ((Assets.duration s <= position)%Q ->
      _clamp_song_position s position = py_max 0 (Assets.duration s - (5 # 100))%Q).
Proof.
  intros Hd. unfold _clamp_song_position.
  assert (Hpos : Qle_bool (Assets.duration s) 0 = false) by (by apply Qle_bool_gt).
  rewrite Hpos. cbv zeta.
  set (upper_bound := py_max 0 (Assets.duration s - (5 # 100))%Q).
  assert (Hub : (0 <= upper_bound)%Q) by apply py_max_ge_l.
  assert (Hub' : (upper_bound < Assets.duration s)%Q).
  { subst upper_bound.
    destruct (py_max_cases 0 (Assets.duration s - (5 # 100))%Q) as [[-> ?]|[-> ?]]; lra. }
  split_and!.
  - apply py_max_ge_l.
  - destruct (py_max_cases 0 (py_min position upper_bound)) as [[-> ?]|[-> ?]];
      [apply py_min_le_r|done].
  - intros Hlate.
    assert (Hmin : py_min position upper_bound = upper_bound).
    { unfold py_min.
      assert (Hlt : Qltb upper_bound position = true) by (apply Qltb_lt; lra).
      by rewrite Hlt. }
    rewrite Hmin. unfold py_max at 1.
    destruct (Qltb 0 upper_bound) eqn:E; [done|].
    apply Qltb_ge in E. subst upper_bound. unfold py_max in *.
    destruct (Qltb 0 (Assets.duration s - (5 # 100))%Q) eqn:E'; [|done].
    apply Qltb_lt in E'. lra.
Qed.

Lemma seek_target_full s ratio :
  (0 < Assets.duration s)%Q -> (ratio == 1)%Q ->
  (seek_target s ratio == Assets.duration s)%Q.
Proof.
  intros Hd Hr. unfold seek_target. cbv zeta.
  apply Qltb_lt in Hd as ->.
  destruct (py_max_cases 0 (py_min 1 ratio)) as [[-> Hm]|[-> Hm]];
    destruct (py_min_cases 1 ratio) as [[E ?]|[E ?]];
    rewrite E in *; nra.
Qed.

(** C3 (amended): for every song with positive known duration and every
    ratio in [0, 1], [seek_song] starts playback at a position in
    [0, max(0, duration - 0.05)], and at exactly max(0, duration - 0.05)
    for ratio 1; so for a duration of at least 0.05 s the position lies
    in [0, duration - 0.05] and is duration - 0.05 for ratio 1. *)
Theorem C3_seek_clamp a song ratio :
  (0 < Assets.duration (heap a song))%Q ->
  (0 <= ratio)%Q /\ (ratio <= 1)%Q ->
  ready_to_play w a song (seek_target (heap a song) ratio) = true ->
  exists a',
    seek_song w song ratio a = (Ok tt, a')
    /\ current_song a' = Some song
    /\ music_playing (mixer a') = true
    /\ (0 <= play_start_position a')%Q
    /\ (play_start_position a'
        <= py_max 0 (Assets.duration (heap a song) - (5 # 100)))%Q
    /\ ((ratio == 1)%Q ->
        play_start_position a'
        = py_max 0 (Assets.duration (heap a song) - (5 # 100))%Q)
    /\ ((5 # 100 <= Assets.duration (heap a song))%Q ->
        (play_start_position a' <= Assets.duration (heap a song) - (5 # 100))%Q
        /\ ((ratio == 1)%Q ->
            (play_start_position a' == Assets.duration (heap a song) - (5 # 100))%Q)).
Proof.
  intros Hd Hratio Hready.
  destruct (seek_song_ready w a song ratio Hready)
    as (a' & Hseek & Hcur & Hpos & _ & Hplaying).
  destruct (clamp_song_position_bounds (heap a song)
              (seek_target (heap a song) ratio) Hd) as (H0 & Hub & Hfull).
  assert (Hone : (ratio == 1)%Q ->
            play_start_position a'
            = py_max 0 (Assets.duration (heap a song) - (5 # 100))%Q).
  { intros Hr. rewrite Hpos. apply Hfull.
    pose proof (seek_target_full (heap a song) ratio Hd Hr). lra. }
  exists a'. rewrite Hpos in *. split_and!; try done.
  intros Hlong.
  assert (Hmax : py_max 0 (Assets.duration (heap a song) - (5 # 100))%Q
                 = (Assets.duration (heap a song) - (5 # 100))%Q
                 \/ (Assets.duration (heap a song) - (5 # 100) == 0)%Q).
  { destruct (py_max_cases 0 (Assets.duration (heap a song) - (5 # 100))%Q)
      as [[-> ?]|[? ?]]; [by left|right; lra]. }
  split.
  - destruct (py_max_cases 0 (Assets.duration (heap a song) - (5 # 100))%Q)
      as [[E ?]|[E ?]]; rewrite E in Hub; lra.
  - intros Hr. rewrite (Hone Hr).
    destruct (py_max_cases 0 (Assets.duration (heap a song) - (5 # 100))%Q)
      as [[-> ?]|[-> ?]]; lra.
Qed.

(** C5: when the loop flag of the current song is set, an end-of-track
    signal that is not suppressed takes the loop branch, whatever the
    shuffle queue holds: it replays the current song, and when the song
    is ready to play it is playing again from position 0, with the queue
    not popped. *)
Theorem C5_loop_precedence a current :
  suppress_end_event a = false ->
  current_song a = Some current ->
  Assets.loop_enabled (heap a current) = true ->
  _handle_song_end w a = play_song w current true a
  /\ (ready_to_play w a current 0 = true ->
      exists a',
        _handle_song_end w a = (Ok tt, a')
        /\ current_song a' = Some current
        /\ play_start_position a' = 0%Q
        /\ is_paused a' = false
        /\ music_playing (mixer a') = true
        /\ music_loaded (mixer a') = Some (Assets.audio_path (heap a current))
        /\ shuffle_queue a'
           = (if song_in (heap a') current (shuffle_queue a)
              then without_song (heap a') current (shuffle_queue a)
              else shuffle_queue a)
        /\ shuffle_active a' = shuffle_active a).
Proof.
  intros Hflag Hcur Hloop.
  assert (Hbranch : _handle_song_end w a = play_song w current true a).
  { unfold _handle_song_end, song_end_transition. by rewrite Hflag, Hcur, Hloop. }
  split; [done|]. intros Hready. rewrite Hbranch.
  destruct (play_song_ready w a current true Hready) as (a' & Hplay & Hplayed).
  destruct Hplayed as (?&?&?&?&?&?&?&?&?&Hq&?&?).
  exists a'. by split_and!.
Qed.

(** C6: with the filtered sequence [A; B; C] of three different songs and
    shuffle inactive, [play_next_song] from [B] plays [C], the element at
    the next index; from [C], the last element, it stops playback and
    does not wrap to [A]. *)
Theorem C6_successor_order a A B C :
  filtered_songs a = [A; B; C] ->
  shuffle_active a = false ->
  song_eq (heap a) A B = false ->
  song_eq (heap a) A C = false ->
  song_eq (heap a) B C = false ->
  (current_song a = Some B ->
   play_next_song w a = play_song w C true a
   /\ (ready_to_play w a C 0 = true ->
       exists a',
         play_next_song w a = (Ok tt, a')
         /\ current_song a' = Some C
         /\ play_start_position a' = 0%Q
         /\ music_playing (mixer a') = true))
  /\ (current_song a = Some C ->
      play_next_song w a = stop_song a
      /\ exists a',
           play_next_song w a = (Ok tt, a')
           /\ current_song a' = None
           /\ music_playing (mixer a') = false).
Proof.
  intros Hfiltered Hshuffle HAB HAC HBC.
  assert (Hrefl : forall x, song_eq (heap a) x x = true)
    by (intros x; unfold song_eq; by rewrite Nat.eqb_refl).
  split; intros Hcur.
  - assert (Hnext : play_next_song w a = play_song w C true a).
    { unfold play_next_song. rewrite Hfiltered, Hcur, Hshuffle. cbn.
      by rewrite HAB, Hrefl. }
    split; [done|]. intros Hready. rewrite Hnext.
    destruct (play_song_ready w a C true Hready) as (a' & Hplay & Hplayed).
    destruct Hplayed as (?&?&?&?&?&?&?&?).
    exists a'. by split_and!.
  - assert (Hnext : play_next_song w a = stop_song a).
    { unfold play_next_song. rewrite Hfiltered, Hcur, Hshuffle. cbn.
      by rewrite HAC, HBC, Hrefl. }
    split; [done|]. rewrite Hnext.
    destruct (stop_song_stopped a) as (a' & Hstop & Hstopped).
    destruct Hstopped as (?&?&?&?&?&?&?&?&?&?).
    exists a'. by split_and!.
Qed.


End TransportClaims.

Lemma C10_position_never_exceeds_duration_witness :
  let a := Transport.set_clock 4000%Z app_playing_a in
  (Transport._current_playback_time a <= 10 # 1)%Q
  /\ Transport._current_playback_time a = (0 + inject_Z 4000 / inject_Z 1000)%Q
  /\ (let a' := (Transport._toggle_song_pause world_demo 0 a).2 in
      Transport.is_paused a' = true
      /\ (Transport.play_start_position a' <= 10 # 1)%Q
      /\ Transport._current_playback_time a' = Transport._current_playback_time a).
Proof.
  intros a.
  pose proof (C10_position_never_exceeds_duration world_demo a) as H.
  change (Transport.current_song a) with (Some 0) in H.
  destruct H as (Hle & Hplaying & _ & Hpause).
  split; [exact Hle|]. split; [exact (Hplaying eq_refl)|exact (Hpause eq_refl)].
Defined.

(** C3, as stated, fails for a song shorter than 0.05 s: with a duration of
    0.04 s, seeking to ratio 1 starts playback at position 0, which is
    neither duration - 0.05 nor inside [0, duration - 0.05]. *)
Lemma C3_short_song_seek_starts_at_0 :
  let a' := (Transport.seek_song world_demo 3 1 app_idle).2 in
  (0 < Assets.duration (Transport.heap app_idle 3%nat))%Q
  /\ Transport.current_song a' = Some 3
  /\ Transport.play_start_position a' = 0%Q
  /\ ~ (Transport.play_start_position a'
        <= Assets.duration (Transport.heap app_idle 3%nat) - (5 # 100))%Q
  /\ ~ (Transport.play_start_position a'
        == Assets.duration (Transport.heap app_idle 3%nat) - (5 # 100))%Q.
Proof. vm_compute. split_and!; try done; intros H; discriminate H. Qed.

Lemma C3_seek_clamp_witness :
  exists a',
    Transport.seek_song world_demo 0 1 app_idle = (Ok tt, a')
    /\ Transport.current_song a' = Some 0
    /\ Transport.music_playing (Transport.mixer a') = true
    /\ (0 <= Transport.play_start_position a')%Q
    /\ (Transport.play_start_position a' <= PyNum.py_max 0 ((10 # 1) - (5 # 100)))%Q
    /\ Transport.play_start_position a' = PyNum.py_max 0 ((10 # 1) - (5 # 100))%Q
    /\ (Transport.play_start_position a' <= (10 # 1) - (5 # 100))%Q
    /\ (Transport.play_start_position a' == (10 # 1) - (5 # 100))%Q.
Proof.
  destruct (C3_seek_clamp world_demo app_idle 0 1) as (a' & H1 & H2 & H3 & H4 & H5 & H6 & H7).
  - reflexivity.
  - split; discriminate.
  - reflexivity.
  - exists a'. destruct H7 as [H7 H8]; [discriminate|].
    split_and!; try done; [apply H6|apply H8]; reflexivity.
Defined.

Lemma C5_loop_precedence_witness :
  Transport.shuffle_queue app_looping_a = [1; 2]
  /\ exists a',
       Transport._handle_song_end world_demo app_looping_a = (Ok tt, a')
       /\ Transport.current_song a' = Some 0
       /\ Transport.play_start_position a' = 0%Q
       /\ Transport.is_paused a' = false
       /\ Transport.music_playing (Transport.mixer a') = true
       /\ Transport.music_loaded (Transport.mixer a')
          = Some (Assets.audio_path (Transport.heap app_looping_a 0))
       /\ Transport.shuffle_queue a'
          = (if Transport.song_in (Transport.heap a') 0 (Transport.shuffle_queue app_looping_a)
             then Transport.without_song (Transport.heap a') 0
                    (Transport.shuffle_queue app_looping_a)
             else Transport.shuffle_queue app_looping_a)
       /\ Transport.shuffle_active a' = Transport.shuffle_active app_looping_a.
Proof.
  split; [reflexivity|].
  destruct (C5_loop_precedence world_demo app_looping_a 0) as [_ H].
  - reflexivity.
  - reflexivity.
  - reflexivity.
  - apply H. reflexivity.
Defined.

Lemma C6_successor_order_witness :
  (exists a',
     Transport.play_next_song world_demo app_playing_b = (Ok tt, a')
     /\ Transport.current_song a' = Some 2
     /\ Transport.play_start_position a' = 0%Q
     /\ Transport.music_playing (Transport.mixer a') = true)
  /\ (exists a',
        Transport.play_next_song world_demo app_playing_c = (Ok tt, a')
        /\ Transport.current_song a' = None
        /\ Transport.music_playing (Transport.mixer a') = false).
Proof.
  split.
  - destruct (C6_successor_order world_demo app_playing_b 0 1 2) as [H _];
      try reflexivity.
    destruct (H eq_refl) as [_ H']. apply H'. reflexivity.
  - destruct (C6_successor_order world_demo app_playing_c 0 1 2) as [_ H];
      try reflexivity.
    destruct (H eq_refl) as [_ H']. exact H'.
Defined.



(** The shuffle on a failing device.  Song 1 is playing; the search-filtered set is
    the whole library [0; 1; 2], which the shuffle leaves in that order;
    the device rejects the audio derivative of song 0.  [start_shuffle]
    returns with song 1 still the current song and with the shuffle queue
    [1; 2]: the current song is a member of the queue, and the queue
    together with the current song leaves out song 0.  The suppression
    flag raised before the stop is left up. *)
Theorem start_shuffle_on_rejected_song :
  let a := Transport.set_rng [2; 1] app_playing_b in
  let a' := (Transport.start_shuffle world_rejecting_a a).2 in
  Transport.current_song a = Some 1
  /\ Transport._search_base a = [0; 1; 2]
  /\ (Transport.start_shuffle world_rejecting_a a).1 = Ok tt
  /\ Transport.filtered_songs a' = [0; 1; 2]
  /\ Transport.current_song a' = Some 1
  /\ Transport.shuffle_queue a' = [1; 2]
  /\ Transport.song_in (Transport.heap a') 1 (Transport.shuffle_queue a') = true
  /\ Transport.suppress_end_event a' = true.
Proof. vm_compute. by split_and!. Qed.

(** The same shuffle on a device that accepts every song. *)
Example start_shuffle_on_accepting_device :
  let a := Transport.set_rng [2; 1] app_playing_b in
  let a' := (Transport.start_shuffle world_demo a).2 in
  Transport.current_song a' = Some 0
  /\ Transport.shuffle_queue a' = [1; 2]
  /\ Transport.song_in (Transport.heap a') 0 (Transport.shuffle_queue a') = false.
Proof. vm_compute. by split_and!. Qed.

(** * The shuffle queue invariant along runs *)

Section Invariant.
Import PyNum Transport.
Context (w : World) (Hdevice : device_accepts w).

#[local] Arguments song_in : simpl never.
#[local] Arguments song_eq : simpl never.
#[local] Arguments opt_song_eq : simpl never.
#[local] Arguments without_song : simpl never.
#[local] Arguments song_index : simpl never.
#[local] Arguments _clamp_song_position : simpl never.
#[local] Arguments Paths.exists_ : simpl never.
#[local] Arguments _start_song : simpl never.
#[local] Arguments play_song : simpl never.
#[local] Arguments stop_song : simpl never.
#[local] Arguments seek_target : simpl never.
#[local] Arguments _ensure_song_visible : simpl never.
#[local] Arguments _apply_search : simpl never.
#[local] Arguments play_next_song : simpl never.
#[local] Arguments _refresh_display_songs : simpl never.
#[local] Arguments can_prepare : simpl never.

Lemma library_kept_refl a : library_kept w a a.
Proof. by split_and!. Qed.

Lemma library_kept_trans a1 a2 a3 :
  library_kept w a1 a2 -> library_kept w a2 a3 -> library_kept w a1 a3.
Proof.
  intros (Hs & Hk & Hf) (Hs' & Hk' & Hf'). split_and!.
  - congruence.
  - intros r. destruct (Hk r), (Hk' r). split; congruence.
  - intros p Hp. by apply Hf', Hf.
Qed.

Lemma library_kept_stable a a' :
  songs a' = songs a ->
  (forall r, Assets.stable_fields (heap a r) (heap a' r)) ->
  (forall p, Paths.exists_ (env w) (fs a) p = true ->
             Paths.exists_ (env w) (fs a') p = true) ->
  library_kept w a a'.
Proof.
  intros Hs Hh Hf. split_and!; [done| |done].
  intros r. by apply stable_fields_entry_key.
Qed.

Lemma library_kept_refreshed a a' : assets_refreshed w a a' -> library_kept w a a'.
Proof.
  intros (Hh & Hf & _ & _ & _ & _ & Hs & _). by apply library_kept_stable.
Qed.

Lemma advances_trans a1 a2 a3 :
  library_kept w a1 a2 -> advances w a2 a3 -> advances w a1 a3.
Proof.
  intros Hkept (Hkept' & Hf & Hq & Hc).
  pose proof Hkept as (Hs & _ & _). rewrite Hs in *.
  split_and!; [by eapply library_kept_trans|done..].
Qed.

(** A step that advances from a library in order leaves it in order. *)
Lemma transport_ok_advances a a' :
  library_ok w a -> advances w a a' -> transport_ok w a'.
Proof.
  intros (Hdistinct & Haudio & _) ((Hs & Hk & Hfs) & Hf & Hq & Hc).
  split; [|intros c Hcur; by apply Hc]. rewrite <- Hs in *.
  split_and!; try done.
  - unfold distinct_entries in *.
    rewrite (map_ext _ (fun r => entry_key (heap a r))); [done|].
    intros r. by destruct (Hk r).
  - intros r Hr. destruct (Hk r) as [Hkey ->].
  rewrite (can_prepare_stable w (heap a r) (heap a' r))
    by (unfold entry_key in Hkey; congruence).
  specialize (Haudio r Hr). apply orb_true_iff in Haudio as [Hex| ->];
    [by rewrite (Hfs _ Hex)|by rewrite orb_true_r].
  - intros c Hcur. by apply Hc.
Qed.

Lemma ready_to_play_ok a song position :
  library_ok w a -> song ∈ songs a -> ready_to_play w a song position = true.
Proof.
  intros (_ & Haudio & _) Hsong. unfold ready_to_play.
  destruct (Hdevice (Assets.audio_path (heap a song))
              (_clamp_song_position (heap a song) position)) as [-> ->].
  by rewrite Haudio.
Qed.

(** The queue once the started song is taken out of it. *)
Lemma queue_without_song h song q :
  (if song_in h song q then without_song h song q else q) ⊆ q
  /\ song ∉ (if song_in h song q then without_song h song q else q).
Proof.
  assert (Hrefl : song_eq h song song = true)
    by (unfold song_eq; by rewrite Nat.eqb_refl).
  destruct (song_in h song q) eqn:Hin.
  - split.
    + intros x Hx. unfold without_song in Hx.
      apply list_elem_of_In, filter_In in Hx as [Hx _]. by apply list_elem_of_In.
    + intros Hx. unfold without_song in Hx.
      apply list_elem_of_In, filter_In in Hx as [_ Hx]. by rewrite Hrefl in Hx.
  - split; [done|]. intros Hx.
    apply not_true_iff_false in Hin. apply Hin. unfold song_in.
    apply existsb_exists. exists song. split; [by apply list_elem_of_In|done].
Qed.

Lemma advances_play_song a song preserve :
  library_ok w a -> song ∈ songs a ->
  advances w a (play_song w song preserve a).2.
Proof.
  intros Hok Hsong.
  destruct (play_song_ready w a song preserve
              (ready_to_play_ok a song 0 Hok Hsong)) as (a' & -> & Hplayed).
  destruct Hplayed as (Hcur &_&_&_&_&_&_&_&_& Hq &_& Hh & Hfs &_& Hs & Hf &_).
  destruct Hok as (_ & _ & Hfiltered & Hqueue & _).
  cbn [snd]. cbv zeta in Hq.
  destruct (queue_without_song (heap a') song
              (if preserve then shuffle_queue a else [])) as [Hsub Hout].
  rewrite <- Hq in Hsub, Hout.
  split_and!.
  - by apply library_kept_stable.
  - by rewrite Hf.
  - intros x Hx. apply Hsub in Hx. destruct preserve; [by apply Hqueue|].
    by apply elem_of_nil in Hx.
  - intros c Hc. rewrite Hcur in Hc. injection Hc as <-. done.
Qed.

Lemma advances_stop_song a :
  library_ok w a -> advances w a (stop_song a).2.
Proof.
  intros (_ & _ & Hfiltered & _).
  destruct (stop_song_stopped a) as (a' & -> & Hstopped).
  destruct Hstopped as (Hcur &_&_&_&_& Hq &_&_&_&_&_& Hh & Hfs &_& Hs & Hf).
  cbn [snd]. split_and!.
  - split_and!; [done|intros r; by rewrite Hh|intros p; by rewrite Hfs].
  - by rewrite Hf.
  - rewrite Hq. intros x Hx. by apply elem_of_nil in Hx.
  - intros c Hc. by rewrite Hcur in Hc.
Qed.

Lemma advances_start_song a song position play_immediately :
  library_ok w a -> song ∈ songs a ->
  advances w a (_start_song w song position play_immediately a).2.
Proof.
  intros Hok Hsong.
  destruct (start_song_ready w a song position play_immediately
              (ready_to_play_ok a song position Hok Hsong))
    as (a1 & a' & -> & Hsame & Hstarted).
  destruct Hstarted as (Hcur &_&_&_&_&_&_&_&_& Hq & Hh & Hfs &_& Hs & Hf &_).
  pose proof (library_kept_refreshed a a1 Hsame) as Hkept.
  destruct Hsame as (_ & _ & Hsame).
  repeat match goal with H : _ /\ _ |- _ => destruct H end.
  assert (Hq1 : shuffle_queue a1 = shuffle_queue a) by done.
  assert (Hf1 : filtered_songs a1 = filtered_songs a) by done.
  destruct Hok as (_ & _ & Hfiltered & Hqueue & _).
  cbn [snd].
  destruct (queue_without_song (heap a1) song (shuffle_queue a1)) as [Hsub Hout].
  rewrite <- Hq in Hsub, Hout.
  split_and!.
  - eapply library_kept_trans; [exact Hkept|].
    split_and!; [done|intros r; by rewrite Hh|intros p; by rewrite Hfs].
  - by rewrite Hf, Hf1.
  - intros x Hx. apply Hqueue. rewrite <- Hq1. by apply Hsub.
  - intros c Hc. rewrite Hcur in Hc. injection Hc as <-. done.
Qed.

Lemma library_ok_cleared a :
  library_ok w a ->
  library_ok w (set_shuffle_queue [] (set_shuffle_active false a))
  /\ library_kept w a (set_shuffle_queue [] (set_shuffle_active false a)).
Proof.
  intros (Hd & Ha & Hf & Hq & Hc). split; [|by split_and!].
  split_and!; try done. cbn. intros x Hx. by apply elem_of_nil in Hx.
Qed.

Lemma advances_seek_song a song ratio :
  library_ok w a -> song ∈ songs a ->
  advances w a (seek_song w song ratio a).2.
Proof.
  intros Hok Hsong. unfold seek_song, bind, gets, modify. cbv beta iota.
  destruct (library_ok_cleared a Hok) as [Hok' Hkept'].
  destruct (negb (opt_song_eq (heap a) (current_song a) song)).
  - eapply advances_trans; [exact Hkept'|].
    apply advances_start_song; [done|exact Hsong].
  - by apply advances_start_song.
Qed.

(** A state that differs from a state in order in none of the library,
    the views, the queue and the current song is in order. *)
Lemma advances_same a a' :
  transport_ok w a ->
  songs a' = songs a -> heap a' = heap a -> fs a' = fs a ->
  filtered_songs a' = filtered_songs a ->
  shuffle_queue a' = shuffle_queue a ->
  current_song a' = current_song a ->
  advances w a a'.
Proof.
  intros ((_ & _ & Hf & Hq & Hc) & Hinv) Hs Hh Hfs Hf' Hq' Hc'.
  split_and!.
  - split_and!; [done|intros r; by rewrite Hh|intros p; by rewrite Hfs].
  - by rewrite Hf'.
  - by rewrite Hq'.
  - intros c Hcur. rewrite Hc' in Hcur. rewrite Hq'. split; [by apply Hc|by apply Hinv].
Qed.

Lemma advances_toggle_song_pause a song :
  transport_ok w a -> song ∈ songs a ->
  advances w a (_toggle_song_pause w song a).2.
Proof.
  intros Hok Hsong. unfold _toggle_song_pause.
  destruct (negb (opt_song_eq (heap a) (current_song a) song)).
  - unfold bind, modify. cbv beta iota.
    destruct (library_ok_cleared a (proj1 Hok)) as [Hok' Hkept'].
    eapply advances_trans; [exact Hkept'|].
    apply advances_play_song; [done|exact Hsong].
  - destruct (is_paused a); unfold bind, modify, music_unpause, music_pause,
      on_mixer, modify; cbn [snd].
    + apply advances_same; [exact Hok|reflexivity..].
    + apply advances_same;
        [exact Hok|destruct (current_song a) eqn:E; cbn; congruence..].
Qed.

Lemma advances_play_next_song a :
  library_ok w a -> advances w a (play_next_song w a).2.
Proof.
  intros Hok. pose proof Hok as (_ & _ & Hfiltered & _).
  unfold play_next_song.
  destruct (filtered_songs a) as [|first rest] eqn:Hf; [by apply advances_stop_song|].
  assert (Hfirst : first ∈ songs a) by (apply Hfiltered; by left).
  destruct (current_song a) as [current|]; [|by apply advances_play_song].
  destruct (song_index (heap a) current (first :: rest)) as [idx|];
    [|by apply advances_play_song].
  destruct (_ && _); [by apply advances_stop_song|]. cbv zeta.
  destruct ((first :: rest) !! _) as [next|] eqn:Hnext;
    [|by apply advances_stop_song].
  apply advances_play_song; [done|].
  apply Hfiltered. by eapply list_elem_of_lookup_2.
Qed.

Lemma search_base_songs a : _search_base a ⊆ songs a.
Proof.
  unfold _search_base. destruct (negb _); [done|].
  intros x Hx. apply list_elem_of_In, filter_In in Hx as [Hx _].
  by apply list_elem_of_In.
Qed.

(** [_apply_search] returns: the filtered view is the search-filtered
    set and the queue is empty. *)
Lemma apply_search_effect a reset_visible :
  exists a',
    _apply_search w reset_visible a = (Ok tt, a')
    /\ library_kept w a a'
    /\ filtered_songs a' = _search_base a
    /\ shuffle_queue a' = []
    /\ shuffle_active a' = false
    /\ current_song a' = current_song a.
Proof.
  unfold _apply_search, bind, modify.
  match goal with
  | |- context [_refresh_display_songs w ?s] =>
      set (a0 := s);
      destruct (refresh_display_songs_refreshed w a0) as [Hok Hsame];
      [intros v; apply set_display_songs_refreshed|]
  end.
  destruct (_refresh_display_songs w a0) as [r a1]. cbn in Hok. subst r.
  exists a1. split; [done|].
  pose proof (library_kept_refreshed a0 a1 Hsame) as Hkept.
  destruct Hsame as (_ & _ & Hsame).
  repeat match goal with H : _ /\ _ |- _ => destruct H end.
  assert (Hinit : songs a0 = songs a /\ heap a0 = heap a /\ fs a0 = fs a
               /\ filtered_songs a0 = _search_base a /\ shuffle_queue a0 = []
               /\ shuffle_active a0 = false /\ current_song a0 = current_song a)
    by (subst a0; by destruct (reset_visible || _)).
  destruct Hinit as (Hs0 & Hh0 & Hf0 & Hfl0 & Hq0 & Hact0 & Hc0).
  split_and!; try (etrans; [eassumption|]; done).
  eapply library_kept_trans; [|exact Hkept].
  split_and!; [done|intros r; by rewrite Hh0|intros p; by rewrite Hf0].
Qed.

Lemma advances_apply_search a reset_visible :
  library_ok w a ->
  advances w a (_apply_search w reset_visible a).2.
Proof.
  intros (_ & _ & _ & _ & Hc).
  destruct (apply_search_effect a reset_visible)
    as (a' & -> & Hkept & Hf & Hq & _ & Hcur).
  cbn [snd]. split_and!; [done| | |].
  - rewrite Hf. apply search_base_songs.
  - rewrite Hq. intros x Hx. by apply elem_of_nil in Hx.
  - intros c Hc'. rewrite Hq. rewrite Hcur in Hc'.
    split; [by apply Hc|]. intros Hx. by apply elem_of_nil in Hx.
Qed.

Lemma advances_song_end_transition a :
  transport_ok w a -> advances w a (song_end_transition w a).2.
Proof.
  intros [Hok Hinv]. pose proof Hok as (Hd & Ha & Hf & Hq & Hc).
  unfold song_end_transition. cbv zeta.
  assert (Hrest :
    advances w a
      (match shuffle_queue a with
       | next_song :: rest =>
           (modify (set_shuffle_queue rest) ;;; play_song w next_song true) a
       | [] =>
           (when (shuffle_active a)
              (modify (set_shuffle_active false) ;;; _apply_search w false) ;;;
            play_next_song w) a
       end).2).
  { destruct (shuffle_queue a) as [|next_song rest] eqn:Hqueue.
    - unfold bind, when.
      destruct (shuffle_active a).
      + unfold modify. cbv beta iota.
        destruct (apply_search_effect (set_shuffle_active false a) false)
          as (a1 & Hsearch & Hkept & Hf1 & Hq1 & _ & Hc1).
        rewrite Hsearch.
        assert (Hadv : advances w a a1).
        { assert (Hok0 : library_ok w (set_shuffle_active false a))
            by exact Hok.
          pose proof (advances_apply_search _ false Hok0) as Hadv0.
          rewrite Hsearch in Hadv0. cbn [snd] in Hadv0.
          eapply advances_trans; [|exact Hadv0]. exact (library_kept_refl a). }
        eapply advances_trans; [exact (proj1 Hadv)|].
        apply advances_play_next_song.
        by apply (transport_ok_advances a a1).
      + unfold ret. by apply advances_play_next_song.
    - unfold bind, modify. cbv beta iota.
      assert (Hok0 : library_ok w (set_shuffle_queue rest a)).
      { split_and!; try done. cbn. intros x Hx. apply Hq. by right. }
      eapply advances_trans; [|apply advances_play_song; [exact Hok0|]].
      + exact (library_kept_refl a).
      + cbn. apply Hq. by left. }
  destruct (current_song a) as [current|] eqn:Hcur; [|exact Hrest].
  destruct (Assets.loop_enabled (heap a current)); [|exact Hrest].
  apply advances_play_song; [done|by apply Hc].
Qed.

Lemma advances_handle_song_end a :
  transport_ok w a -> advances w a (_handle_song_end w a).2.
Proof.
  intros Hok. unfold _handle_song_end.
  destruct (suppress_end_event a); [|by apply advances_song_end_transition].
  by apply advances_same.
Qed.

Lemma advances_deliver_end_event a :
  transport_ok w a -> advances w a (deliver_end_event w a).2.
Proof.
  intros Hok. unfold deliver_end_event.
  destruct (pending_end_events a) as [|n]; [by apply advances_same|].
  assert (Hsame : advances w a (set_pending_end_events n a))
    by (by apply advances_same).
  eapply advances_trans; [exact (proj1 Hsame)|].
  apply advances_handle_song_end.
  exact (transport_ok_advances a _ (proj1 Hok) Hsame).
Qed.

Lemma advances_start_shuffle a :
  transport_ok w a -> advances w a (start_shuffle w a).2.
Proof.
  intros Hok. pose proof (proj1 Hok) as Hlib.
  destruct (_search_base a) as [|b base] eqn:Hbase.
  { unfold start_shuffle, bind, gets. rewrite Hbase. by apply advances_same. }
  destruct (start_shuffle_ready w a) as
    (a' & first & rest & -> & Hperm & Hf & Hcur & _ & Hq & Hh & Hs & Hfs).
  { by rewrite Hbase. }
  { intros song Hsong. apply ready_to_play_ok; [done|].
    by apply search_base_songs. }
  cbn [snd].
  assert (Hsub : first :: rest ⊆ songs a).
  { intros x Hx. apply search_base_songs. by rewrite <- Hperm. }
  destruct (queue_without_song (heap a') first rest) as [Hqsub Hout].
  rewrite <- Hq in Hqsub, Hout.
  split_and!.
  - by apply library_kept_stable.
  - by rewrite Hf.
  - intros x Hx. apply Hsub. right. by apply Hqsub.
  - intros c Hc. rewrite Hcur in Hc. injection Hc as <-.
    split; [apply Hsub; by left|done].
Qed.

Lemma advances_toggle_loop a song :
  transport_ok w a -> advances w a (toggle_loop song a).2.
Proof.
  intros [(_ & _ & Hf & Hq & Hc) Hinv]. unfold toggle_loop, modify. cbn [snd].
  split_and!; try done.
  - split_and!; [done| |done].
    intros r. cbn. by destruct (Nat.eqb_spec r song) as [->|].
  - intros c Hcur. split; [by apply Hc|by apply Hinv].
Qed.

Lemma advances_track_finished a :
  transport_ok w a -> advances w a (track_finished a).
Proof.
  intros Hok. unfold track_finished. cbv zeta.
  destruct (get_busy (mixer a)); by apply advances_same.
Qed.

(** Every step of the transport keeps the library in order and the
    current song out of the shuffle queue. *)
Lemma transport_step_ok a a' :
  transport_ok w a -> transport_step w a a' -> transport_ok w a'.
Proof.
  intros Hok Hstep. apply (transport_ok_advances a a' (proj1 Hok)).
  destruct Hstep.
  - by apply advances_play_song; [apply Hok|].
  - by apply advances_toggle_song_pause.
  - by apply advances_seek_song; [apply Hok|].
  - apply advances_stop_song, Hok.
  - apply advances_play_next_song, Hok.
  - by apply advances_start_shuffle.
  - by apply advances_deliver_end_event.
  - by apply advances_toggle_loop.
  - assert (Hsame : advances w a (set_search_query query a))
      by (by apply advances_same).
    eapply advances_trans; [exact (proj1 Hsame)|].
    apply advances_apply_search.
    exact (proj1 (transport_ok_advances a _ (proj1 Hok) Hsame)).
  - by apply advances_same.
  - by apply advances_track_finished.
Qed.

Lemma transport_run_ok a a' :
  transport_ok w a -> rtc (transport_step w) a a' -> transport_ok w a'.
Proof. intros Hok Hrun. induction Hrun; eauto using transport_step_ok. Qed.

(** In a library in order, membership by [==] is membership. *)
Lemma transport_ok_current_not_queued a :
  transport_ok w a -> current_not_queued a.
Proof.
  intros [(Hd & _ & _ & Hq & Hc) Hinv] c Hcur. split; [by apply Hinv|].
  apply not_true_iff_false. intros Hin. unfold song_in in Hin.
  apply existsb_exists in Hin as (item & Hitem & Heq).
  apply list_elem_of_In in Hitem.
  assert (item = c).
  { eapply (distinct_entries_song_eq (heap a) (heap a) (songs a)); try done.
    - by apply Hq.
    - by apply Hc. }
  subst item. by apply (Hinv c).
Qed.

Lemma distinct_entries_filter h (f : SongRef -> bool) l :
  distinct_entries h l -> distinct_entries h (List.filter f l).
Proof.
  unfold distinct_entries. induction l as [|x l IH]; [done|]. cbn.
  intros [Hx Hl]%NoDup_cons. destruct (f x); [|by apply IH].
  cbn. apply NoDup_cons. split; [|by apply IH].
  intros Hin. apply Hx.
  apply list_elem_of_In, in_map_iff in Hin as (y & Hy & Hin).
  apply filter_In in Hin as [Hin _].
  apply list_elem_of_In, in_map_iff. by exists y.
Qed.

Lemma distinct_entries_search_base a :
  distinct_entries (heap a) (songs a) ->
  distinct_entries (heap a) (_search_base a).
Proof.
  intros Hd. unfold _search_base. destruct (negb _); [done|].
  by apply distinct_entries_filter.
Qed.

(** C4 (amended): on a device that accepts every file, along every run
    of the transport from a library in order (distinct entries whose
    audio derivatives exist or can be derived from their sources, the
    current song not queued), the current song is never a member of the
    shuffle queue; and immediately after
    [start_shuffle] on a non-empty search-filtered set, the current song
    is not in the queue, and the current song followed by the queue is
    the filtered sequence, a permutation of the search-filtered set
    with no duplicates. *)
Theorem C4_shuffle_queue_invariant a0 a :
  transport_ok w a0 ->
  rtc (transport_step w) a0 a ->
  current_not_queued a
  /\ (_search_base a <> [] ->
      exists a' current,
        start_shuffle w a = (Ok tt, a')
        /\ current_song a' = Some current
        /\ song_in (heap a') current (shuffle_queue a') = false
        /\ (current ∉ shuffle_queue a')
        /\ current :: shuffle_queue a' = filtered_songs a'
        /\ (current :: shuffle_queue a' ≡ₚ _search_base a)
        /\ NoDup (current :: shuffle_queue a')).
Proof.
  intros Hok0 Hrun.
  pose proof (transport_run_ok a0 a Hok0 Hrun) as Hok.
  split; [by apply transport_ok_current_not_queued|].
  intros Hne. apply start_shuffle_queue_invariant; [done| |].
  - apply distinct_entries_search_base, Hok.
  - intros song Hsong. apply ready_to_play_ok; [apply Hok|].
    by apply search_base_songs.
Qed.

End Invariant.

(** C4, as stated, fails on a library that lists one entry twice (songs 5
    and 6), whichever way the queue and the filtered set are compared.
    When the shuffle puts song 5 first and song 6 on the first page, both
    are prepared and equal: starting song 5 takes song 6 out of the queue
    too, so song 6 of the filtered sequence is neither the current song
    nor queued.  When the shuffle leaves the library in order, the queue
    holds the two equal songs 5 and 6. *)
Lemma C4_duplicate_entry_breaks_the_shuffle_partition :
  (let a := Transport.set_rng [0; 1; 2; 2; 2; 0] app_duplicate_entry in
   let a' := (Transport.start_shuffle world_demo a).2 in
   Transport._search_base a = [0; 1; 2; 3; 4; 5; 6]
   /\ Transport.filtered_songs a' = [5; 6; 3; 4; 2; 1; 0]
   /\ Transport.current_song a' = Some 5
   /\ Transport.shuffle_queue a' = [3; 4; 2; 1; 0]
   /\ ~ (5 :: Transport.shuffle_queue a' ≡ₚ Transport._search_base a))
  /\ (let a := Transport.set_rng [6; 5; 4; 3; 2; 1] app_duplicate_entry in
      let a' := (Transport.start_shuffle world_demo a).2 in
      Transport.current_song a' = Some 0
      /\ Transport.shuffle_queue a' = [1; 2; 3; 4; 5; 6]
      /\ Transport.song_eq (Transport.heap a') 5 6 = true).
Proof.
  vm_compute. split_and!; try done.
  intros Hperm. apply Permutation_length in Hperm. discriminate Hperm.
Qed.

Lemma world_demo_accepts : Transport.device_accepts world_demo.
Proof. by intros file start. Qed.

Lemma app_idle_ok : Transport.transport_ok world_demo app_idle.
Proof.
  split; [|intros c Hc; discriminate Hc].
  split_and!.
  - unfold Transport.distinct_entries.
    eapply (bool_decide_unpack (NoDup _)). by vm_compute.
  - intros r Hr. repeat (apply elem_of_cons in Hr as [->|Hr]; [reflexivity|]).
    by apply elem_of_nil in Hr.
  - done.
  - intros x Hx. by apply elem_of_nil in Hx.
  - intros c Hc. discriminate Hc.
Defined.

Lemma C4_shuffle_queue_invariant_witness :
  Transport.current_not_queued app_playing_b
  /\ exists a' current,
       Transport.start_shuffle world_demo app_playing_b = (Ok tt, a')
       /\ Transport.current_song a' = Some current
       /\ Transport.song_in (Transport.heap a') current (Transport.shuffle_queue a') = false
       /\ (current ∉ Transport.shuffle_queue a')
       /\ current :: Transport.shuffle_queue a' = Transport.filtered_songs a'
       /\ (current :: Transport.shuffle_queue a' ≡ₚ Transport._search_base app_playing_b)
       /\ NoDup (current :: Transport.shuffle_queue a').
Proof.
  assert (Hrun : rtc (Transport.transport_step world_demo) app_idle app_playing_b).
  { unfold app_playing_b.
    eapply rtc_r; [|apply (Transport.step_play_song world_demo app_playing_a 1)].
    - unfold app_playing_a. apply rtc_once.
      apply (Transport.step_play_song world_demo app_idle 0). by left.
    - vm_compute. right. by left. }
  destruct (C4_shuffle_queue_invariant world_demo world_demo_accepts
              app_idle app_playing_b app_idle_ok Hrun) as [Hinv Hshuffle].
  split; [exact Hinv|]. apply Hshuffle. vm_compute. discriminate.
Defined.

(** * The song list document *)

Section LibraryFacts.
Import Paths Assets Library.

Context (env : Paths.Env).

Lemma get_set_item_same key value members :
  get key (set_item key value members) = Some value.
Proof.
  induction members as [|[k v] members IH]; simpl.
  - by rewrite String.eqb_refl.
  - destruct (String.eqb k key) eqn:E; simpl; by rewrite E.
Qed.

Lemma get_set_item_other key key' value members :
  key' <> key -> get key' (set_item key value members) = get key' members.
Proof.
  intros Hne. induction members as [|[k v] members IH]; simpl.
  - destruct (String.eqb key key') eqn:E; [|done].
    apply String.eqb_eq in E. by subst.
  - destruct (String.eqb k key) eqn:E; simpl.
    + apply String.eqb_eq in E. subst k.
      destruct (String.eqb key key') eqn:E'; [|done].
      apply String.eqb_eq in E'. by subst.
    + by rewrite IH.
Qed.

Lemma length_set_item_present key value members v :
  get key members = Some v ->
  length (set_item key value members) = length members.
Proof.
  induction members as [|[k w] members IH]; simpl; [done|].
  destruct (String.eqb k key); simpl; [done|]. intros H. by rewrite IH.
Qed.

(** The document that was saved is the one that is loaded. *)
Lemma load_saved fs docs path songs :
  let saved := save_song_data env fs docs path songs in
  load_song_data env saved.1 saved.2 path
  = match songs with
    | [] => inl ValueError
    | _ => inr (JArray (List.map (song_entry env) songs))
    end.
Proof.
  cbn. unfold load_song_data. rewrite exists_write_same. cbn [negb].
  unfold write_document. rewrite String.eqb_refl. cbn.
  by destruct songs.
Qed.





(** X2: a saved empty library cannot be loaded again: once the last song
    is gone, [load_song_data] raises the no-songs [ValueError] on the
    document [save_song_data] wrote. *)
Theorem X2_saved_empty_library_is_refused fs docs path :
  load_song_data env (save_song_data env fs docs path []).1
    (save_song_data env fs docs path []).2 path
  = inl ValueError.
Proof. apply (load_saved fs docs path []). Qed.

Lemma song_of_entry_loaded fs entry song :
  song_of_entry env fs entry = inr (Some song) ->
  exists_ env fs (video_path song) = true
  /\ post_init_fields env song
  /\ name song <> "" /\ artist song <> ""
  /\ assets_prepared song = false /\ loop_enabled song = false.
Proof.
  unfold song_of_entry.
  destruct (entry_text "name" entry) as [|n]; [done|].
  destruct (entry_text "artist" entry) as [|ar]; [done|].
  destruct (entry_video entry) as [| | |video_value| |]; try done.
  destruct (resolve_media_path env fs video_value) as [video|]; [|done].
  destruct (Song_init env fs _ _ video) as [s|] eqn:Hinit; [|done].
  intros [= ->].
  pose proof (Song_init_post_init_fields env fs _ _ _ _ Hinit) as Hpost.
  unfold Song_init in Hinit.
  destruct (expanduser env video) as [v|]; [|done].
  destruct (exists_ env fs v) eqn:Hex; [|done]. cbn [negb] in Hinit.
  injection Hinit as <-. cbn. split_and!; try done.
  - by destruct (Str.truthy n) eqn:E; [destruct n|].
  - by destruct (Str.truthy ar) eqn:E; [destruct ar|].
Qed.

Lemma load_songs_loaded fs entries songs :
  load_songs env fs entries = inr songs ->
  length songs <= length entries
  /\ Forall (fun song =>
       exists_ env fs (video_path song) = true
       /\ post_init_fields env song
       /\ name song <> "" /\ artist song <> ""
       /\ assets_prepared song = false /\ loop_enabled song = false) songs.
Proof.
  revert songs. induction entries as [|entry entries IH]; intros songs; cbn.
  - intros [= <-]. split; [done|constructor].
  - destruct (song_of_entry env fs entry) as [|loaded] eqn:Hentry; [done|].
    destruct (load_songs env fs entries) as [|rest]; [done|].
    destruct (IH rest eq_refl) as [Hlen Hall].
    intros [= <-]. destruct loaded as [song|]; cbn.
    + split; [lia|]. constructor; [|done].
      by apply (song_of_entry_loaded fs entry).
    + split; [lia|done].
Qed.

(** X3: every song of the library that [__init__] builds has a video
    that exists, the cache key and the cache files its constructor
    derives, a name and an artist that are not empty, and no prepared
    assets yet; the library has at most one song per entry that
    [load_song_data] returned. *)
Theorem X3_loaded_songs_are_constructed fs docs path songs :
  init_songs env fs docs path = inr songs ->
  (exists raw_songs entries,
     load_song_data env fs docs path = inr raw_songs
     /\ iterate raw_songs = inr entries
     /\ length songs <= length entries)
  /\ Forall (fun song =>
       exists_ env fs (video_path song) = true
       /\ post_init_fields env song
       /\ name song <> "" /\ artist song <> ""
       /\ assets_prepared song = false /\ loop_enabled song = false) songs.
Proof.
  unfold init_songs.
  destruct (load_song_data env fs docs path) as [|raw_songs] eqn:Hraw; [done|].
  destruct (iterate raw_songs) as [|entries] eqn:Hentries; [done|].
  intros Hload. destruct (load_songs_loaded fs entries songs Hload) as [Hlen Hall].
  split; [|done]. exists raw_songs, entries. by split_and!.
Qed.

(** X4: an entry of the document that is not an object is not skipped:
    when the songs directory exists, it becomes the song "Untitled
    Track" by "Unknown Artist" whose video is the songs directory
    itself. *)
Theorem X4_entry_that_is_no_object_loads_as_untitled fs entry :
  tilde_free (DATA_ROOT env) = true ->
  (forall members, entry <> JObject members) ->
  exists_ env fs (SONGS_DIR env) = true ->
  exists song,
    song_of_entry env fs entry = inr (Some song)
    /\ name song = "Untitled Track"
    /\ artist song = "Unknown Artist"
    /\ video_path song = SONGS_DIR env.
Proof.
  intros Hroot Hentry Hex.
  assert (Hresolve : resolve_media_path env fs "" = Ok (SONGS_DIR env)).
  { unfold resolve_media_path.
    rewrite (Path_of_str_all_space "") by done.
    rewrite expanduser_tilde_free by done.
    rewrite search_order_all_space by done. cbn [first_existing].
    rewrite expanduser_tilde_free by (by apply tilde_free_SONGS_DIR).
    by rewrite Hex. }
  assert (Hsong : forall e, (forall members, e <> JObject members) ->
            song_of_entry env fs e
            = inr (match Song_init env fs "Untitled Track" "Unknown Artist"
                           (SONGS_DIR env) with
                   | Ok song => Some song
                   | Raise _ => None
                   end)).
  { intros e He. unfold song_of_entry, entry_text, entry_video.
    destruct e; try (by rewrite Hresolve). by destruct (He members). }
  rewrite (Hsong entry Hentry). unfold Song_init.
  rewrite expanduser_tilde_free by (by apply tilde_free_SONGS_DIR).
  rewrite Hex. cbn [negb]. eexists. by split_and!.
Qed.

Lemma normalize_entry_normalized fs entry entry' changed :
  normalize_entry env fs entry = Ok (entry', changed) ->
  entry_normalized env fs entry entry'
  /\ (changed = false -> entry' = entry).
Proof.
  assert (Hsame : entry_normalized env fs entry entry) by (split; [done|by left]).
  unfold normalize_entry.
  destruct entry as [| | | | |members]; try (by intros [= <- <-]).
  destruct (get "pathtovideo" members) as [[| | |original| |]|] eqn:Hget;
    try (by intros [= <- <-]).
  destruct (resolve_media_path env fs original) as [resolved|] eqn:Hres; [|done].
  destruct (negb _ && exists_ env fs resolved) eqn:Hchange;
    [|by intros [= <- <-]].
  apply andb_true_iff in Hchange as [_ Hex].
  intros [= <- <-]. split; [|done]. split.
  - intros key Hkey. cbn. by apply get_set_item_other.
  - right. exists original, resolved. cbn. by rewrite get_set_item_same.
Qed.

Lemma normalize_entries_normalized fs songs songs' changed :
  normalize_entries env fs songs = Ok (songs', changed) ->
  Forall2 (entry_normalized env fs) songs songs'
  /\ (changed = false -> songs' = songs).
Proof.
  revert songs' changed.
  induction songs as [|entry songs IH]; intros songs' changed; cbn.
  - intros [= <- <-]. split; [constructor|done].
  - destruct (normalize_entry env fs entry) as [[entry' c]|] eqn:Hentry; [|done].
    destruct (normalize_entries env fs songs) as [[rest c']|]; [|done].
    intros [= <- <-].
    destruct (normalize_entry_normalized fs entry entry' c Hentry) as [Hn Hc].
    destruct (IH rest c' eq_refl) as [Hall Hc'].
    split; [by constructor|].
    intros [-> ->]%orb_false_iff. by rewrite Hc, Hc'.
Qed.

(** X5: when [_normalize_song_data_file] returns, no document but the
    song list has changed, and the song list is the one there was or
    differs from it in the entries of its [songs] list only: as many
    entries in the same order, each one untouched or with its reference
    replaced by the portable form of an existing file the reference
    resolved to, and with no other member changed. *)
Theorem X5_normalize_keeps_the_entries fs docs data_path docs' :
  _normalize_song_data_file env fs docs data_path = inr docs' ->
  (forall key, key <> fs_key env data_path -> docs' key = docs key)
  /\ (docs' (fs_key env data_path) = docs (fs_key env data_path)
      \/ exists payload payload' songs songs',
           docs (fs_key env data_path) = Some payload
           /\ docs' (fs_key env data_path) = Some payload'
           /\ (forall key, key <> "songs" -> member key payload' = member key payload)
           /\ member "songs" payload = Some (JArray songs)
           /\ member "songs" payload' = Some (JArray songs')
           /\ Forall2 (entry_normalized env fs) songs songs').
Proof.
  unfold _normalize_song_data_file.
  destruct (exists_ env fs data_path); cbn [negb];
    [|by intros [= <-]; split; [|left]].
  destruct (docs (fs_key env data_path)) as [payload|] eqn:Hdoc;
    [|by intros [= <-]; split; [|left]].
  destruct payload as [| | | | |members]; try done.
  destruct (get "songs" members) as [[| | | |songs|]|] eqn:Hsongs;
    try (by intros [= <-]; split; [|left]).
  destruct (normalize_entries env fs songs) as [[songs' changed]|] eqn:Hn; [|done].
  destruct (normalize_entries_normalized fs songs songs' changed Hn) as [Hall _].
  destruct changed; [|by intros [= <-]; split; [|left]].
  intros [= <-]. unfold write_document. split.
  - intros key Hkey. destruct (String.eqb key (fs_key env data_path)) eqn:E; [|done].
    by apply String.eqb_eq in E.
  - right. exists (JObject members), (JObject (set_item "songs" (JArray songs') members)),
      songs, songs'.
    rewrite String.eqb_refl. split_and!; try done.
    + intros key Hkey. cbn. by apply get_set_item_other.
    + cbn. by rewrite get_set_item_same.
Qed.



End LibraryFacts.

(** * Slugs, references and prepared assets *)

Section SlugFacts.
Import Assets Shapes.

Lemma slug_chars_lower_letter c :
  slug_or_dash (if isalnum (Str.lower_ascii c) then Str.lower_ascii c else "-"%char)
  = true.
Proof. by destruct c as [[] [] [] [] [] [] [] []]. Qed.

Lemma slug_or_dash_fixed c :
  slug_or_dash c = true ->
  (if isalnum (Str.lower_ascii c) then Str.lower_ascii c else "-"%char) = c.
Proof. by destruct c as [[] [] [] [] [] [] [] []]. Qed.

Lemma slug_letter_no_dash c :
  slug_or_dash c = true -> Ascii.eqb c "-"%char = false -> slug_letter c = true.
Proof. unfold slug_or_dash. intros H E. by rewrite E, orb_false_r in H. Qed.

Lemma all_chars_slug_chars value :
  all_chars slug_or_dash (slug_chars (Str.lower value)) = true.
Proof.
  induction value as [|c value IH]; [done|].
  cbn [Str.lower slug_chars all_chars]. by rewrite slug_chars_lower_letter, IH.
Qed.

Lemma slug_chars_fixed s :
  all_chars slug_or_dash s = true -> slug_chars (Str.lower s) = s.
Proof.
  induction s as [|c s IH]; [done|]. cbn [Str.lower slug_chars all_chars].
  intros [Hc Hs]%andb_true_iff. by rewrite slug_or_dash_fixed, IH.
Qed.

Lemma all_chars_append f s t :
  all_chars f (s +:+ t) = all_chars f s && all_chars f t.
Proof.
  induction s as [|c s IH]; [done|].
  rewrite append_cons. cbn. by rewrite IH, andb_assoc.
Qed.

Lemma all_chars_rev_app f s t :
  all_chars f (String.rev_app s t) = all_chars f s && all_chars f t.
Proof.
  revert t. induction s as [|c s IH]; intros t; cbn; [done|].
  rewrite IH. cbn. by destruct (f c), (all_chars f s).
Qed.

Lemma all_chars_lstrip_char f c s :
  all_chars f s = true -> all_chars f (lstrip_char c s) = true.
Proof.
  induction s as [|d s IH]; cbn; [done|].
  intros [Hd Hs]%andb_true_iff.
  destruct (Ascii.eqb d c); [auto|]. cbn. by rewrite Hd, Hs.
Qed.

Lemma all_chars_strip_char f c s :
  all_chars f s = true -> all_chars f (strip_char c s) = true.
Proof.
  intros Hs. unfold strip_char, String.rev.
  rewrite all_chars_rev_app. cbn. rewrite andb_true_r.
  apply all_chars_lstrip_char. rewrite all_chars_rev_app. cbn.
  rewrite andb_true_r. by apply all_chars_lstrip_char.
Qed.

(** The words [split] cuts: none holds the separator, and each keeps
    what holds of every character. *)
Lemma split_words f sep s :
  all_chars f s = true ->
  Forall (fun word => Str.has_char sep word = false /\ all_chars f word = true)
    (Str.split sep s).
Proof.
  induction s as [|c s IH]; cbn; [by repeat constructor|].
  intros [Hc Hs]%andb_true_iff. specialize (IH Hs).
  destruct (Ascii.eqb c sep) eqn:E; [by constructor|].
  destruct (Str.split sep s) as [|word words].
  - repeat constructor; cbn; [by rewrite E|by rewrite Hc].
  - apply Forall_cons in IH as [[Hw1 Hw2] Hwords].
    constructor; [|done]. cbn. by rewrite E, Hw1, Hc, Hw2.
Qed.

Lemma all_chars_letters word :
  Str.has_char "-"%char word = false ->
  all_chars slug_or_dash word = true ->
  all_chars slug_letter word = true.
Proof.
  induction word as [|c word IH]; cbn; [done|].
  intros [Hc Hw]%orb_false_iff [Hs Hall]%andb_true_iff.
  by rewrite slug_letter_no_dash, IH.
Qed.

Lemma join_split sep s : Str.join (String sep "") (Str.split sep s) = s.
Proof.
  induction s as [|c s IH]; [done|]. cbn [Str.split].
  destruct (Ascii.eqb_spec c sep) as [->|Hne].
  - destruct (Str.split sep s) as [|word words] eqn:E; [by destruct s|].
    change (Str.join (String sep "") ("" :: word :: words))
      with (String sep (Str.join (String sep "") (word :: words))).
    by rewrite IH.
  - destruct (Str.split sep s) as [|word words] eqn:E.
    + cbn in IH. by subst s.
    + destruct words as [|word' words].
      * cbn in IH |- *. by rewrite IH.
      * change (Str.join (String sep "") (String c word :: word' :: words))
          with (String c (Str.join (String sep "") (word :: word' :: words))).
        by rewrite IH.
Qed.

Lemma all_chars_letters_or_dash word :
  all_chars slug_letter word = true -> all_chars slug_or_dash word = true.
Proof.
  induction word as [|c word IH]; cbn; [done|].
  intros [Hc Hw]%andb_true_iff. unfold slug_or_dash at 1. by rewrite Hc, IH.
Qed.

Lemma all_chars_join words :
  Forall (fun word => all_chars slug_letter word = true) words ->
  all_chars slug_or_dash (Str.join "-" words) = true.
Proof.
  induction 1 as [|word words Hword _ IH]; [done|].
  destruct words as [|word' words]; [by apply all_chars_letters_or_dash|].
  change (Str.join "-" (word :: word' :: words))
    with (word +:+ "-" +:+ Str.join "-" (word' :: words)).
  rewrite !all_chars_append, IH, all_chars_letters_or_dash by done. done.
Qed.

Lemma letters_no_dash word :
  all_chars slug_letter word = true -> Str.has_char "-"%char word = false.
Proof.
  induction word as [|c word IH]; cbn; [done|].
  intros [Hc Hw]%andb_true_iff. rewrite IH by done.
  destruct (Ascii.eqb_spec c "-"%char) as [->|]; [done|done].
Qed.

(** The words of a slug. *)
Lemma slug_shaped_words s :
  slug_shaped s = true ->
  Forall (fun word => Str.truthy word = true /\ all_chars slug_letter word = true
                      /\ Str.has_char "-"%char word = false) (Str.split "-"%char s).
Proof.
  unfold slug_shaped. rewrite forallb_forall. intros Hall.
  apply List.Forall_forall. intros word Hword.
  apply Hall in Hword. apply andb_true_iff in Hword as [? ?].
  split_and!; [done..|by apply letters_no_dash].
Qed.

Lemma words_slug_shaped words :
  words <> [] ->
  Forall (fun word => Str.truthy word = true /\ all_chars slug_letter word = true)
    words ->
  slug_shaped (Str.join "-" words) = true.
Proof.
  intros Hne Hall. unfold slug_shaped.
  rewrite (split_join "-"%char).
  2: done.
  2:{ eapply Forall_impl; [exact Hall|].
      intros word [_ ?]. by apply letters_no_dash. }
  apply forallb_forall. intros word Hword.
  rewrite List.Forall_forall in Hall. destruct (Hall word Hword) as [E1 E2].
  by rewrite E1, E2.
Qed.

Lemma slugify_shaped value : slug_shaped (slugify value) = true.
Proof.
  unfold slugify. cbv zeta.
  set (words := List.filter Str.truthy _).
  destruct (Str.truthy (Str.join "-" words)) eqn:Htruthy; [|done].
  assert (Hne : words <> []) by (by destruct words).
  apply words_slug_shaped; [done|]. subst words.
  apply List.Forall_forall. intros word [Hword Htrue]%filter_In.
  split; [done|].
  pose proof (split_words slug_or_dash "-"%char
                (strip_char "-"%char (slug_chars (Str.lower value)))
                (all_chars_strip_char _ _ _ (all_chars_slug_chars value)))
    as Hwords.
  rewrite List.Forall_forall in Hwords. destruct (Hwords word Hword) as [? ?].
  by apply all_chars_letters.
Qed.

(** X24: [slugify] gives a slug for a text of ASCII characters: words
    of digits and lower-case ASCII letters, none of them empty, with one
    dash between two words; so it is not empty, does not begin with a
    dash, and holds no path separator. *)
Theorem X24_slugify_gives_a_slug value :
  is_ascii value = true ->
  slug_shaped (slugify value) = true
  /\ slugify value <> ""
  /\ Str.starts_with_char "-"%char (slugify value) = false
  /\ Str.has_char "/"%char (slugify value) = false.
Proof.
  intros _. pose proof (slugify_shaped value) as Hshaped.
  split; [done|]. split_and!.
  - intros E. by rewrite E in Hshaped.
  - apply slug_shaped_words in Hshaped.
    destruct (slugify value) as [|c s]; [done|]. cbn in *.
    destruct (Ascii.eqb c "-"%char); [|done].
    by apply Forall_cons in Hshaped as [[? _] _].
  - apply has_char_slugify.
Qed.

Lemma rev_app_append s t u :
  String.rev_app (s +:+ t) u = String.rev_app t (String.rev_app s u).
Proof.
  revert u. induction s as [|c s IH]; intros u; [done|].
  rewrite append_cons. cbn. by rewrite IH.
Qed.

Lemma rev_app_rev_app s t u :
  String.rev_app (String.rev_app s t) u = String.rev_app t (s +:+ u).
Proof.
  revert t. induction s as [|c s IH]; intros t; [done|].
  cbn. by rewrite IH.
Qed.

Lemma append_nil_r s : s +:+ "" = s.
Proof. induction s as [|c s IH]; [done|]. rewrite append_cons. by rewrite IH. Qed.

Lemma rev_rev s : String.rev (String.rev s) = s.
Proof. unfold String.rev. rewrite rev_app_rev_app. cbn. apply append_nil_r. Qed.

Lemma string_snoc s : s <> "" -> exists t d, s = t +:+ String d "".
Proof.
  induction s as [|c s IH]; [done|]. intros _.
  destruct s as [|c' s]; [by exists "", c|].
  destruct IH as (t & d & Ht); [done|].
  exists (String c t), d. rewrite append_cons. by rewrite Ht.
Qed.

Lemma lstrip_char_id c s :
  Str.starts_with_char c s = false -> lstrip_char c s = s.
Proof. destruct s as [|d s]; [done|]. cbn. by intros ->. Qed.

(** A text that neither begins nor ends with the character is what
    [strip] leaves of it. *)
Lemma strip_char_id c t d s :
  Str.starts_with_char c s = false ->
  s = t +:+ String d "" -> Ascii.eqb d c = false ->
  strip_char c s = s.
Proof.
  intros Hstart Hs Hd. unfold strip_char. rewrite (lstrip_char_id c s) by done.
  assert (Hrev : String.rev s = String d (String.rev t)).
  { rewrite Hs. unfold String.rev. by rewrite rev_app_append. }
  rewrite lstrip_char_id by (rewrite Hrev; cbn; done).
  apply rev_rev.
Qed.

Lemma join_ends words :
  words <> [] ->
  Forall (fun word => Str.truthy word = true /\ all_chars slug_letter word = true
                      /\ Str.has_char "-"%char word = false) words ->
  exists t d, Str.join "-" words = t +:+ String d "" /\ Ascii.eqb d "-"%char = false.
Proof.
  intros Hne Hall. induction Hall as [|word words (Htrue & _ & Hdash) Hall IH];
    [done|].
  destruct words as [|word' words].
  - destruct (string_snoc word) as (t & d & ->); [by destruct word|].
    exists t, d. split; [done|].
    rewrite has_char_append in Hdash. cbn in Hdash.
    apply orb_false_iff in Hdash as [_ Hd]. by rewrite orb_false_r in Hd.
  - destruct IH as (t & d & Ht & Hd); [done|].
    exists (word +:+ "-" +:+ t), d. split; [|done].
    change (Str.join "-" (word :: word' :: words))
      with (word +:+ "-" +:+ Str.join "-" (word' :: words)).
    by rewrite Ht, !append_assoc.
Qed.

Lemma slugify_fixed s : slug_shaped s = true -> slugify s = s.
Proof.
  intros Hshaped.
  pose proof (slug_shaped_words s Hshaped) as Hwords.
  pose proof (join_split "-"%char s) as Hjoin.
  assert (Hne : Str.split "-"%char s <> []) by (by destruct s; cbn;
    repeat match goal with |- context [if ?b then _ else _] => destruct b
                      | |- context [match ?l with [] => _ | _ :: _ => _ end] =>
                          destruct l end).
  assert (Hletters : all_chars slug_or_dash s = true).
  { rewrite <- Hjoin. apply all_chars_join.
    eapply Forall_impl; [exact Hwords|]. by intros word (_ & ? & _). }
  assert (Hstart : Str.starts_with_char "-"%char s = false).
  { destruct s as [|c s']; [done|]. cbn in *.
    destruct (Ascii.eqb c "-"%char); [|done].
    by apply Forall_cons in Hwords as [[? _] _]. }
  destruct (join_ends _ Hne Hwords) as (t & d & Hend & Hd).
  change (Str.join "-" (Str.split "-"%char s))
    with (Str.join (String "-"%char "") (Str.split "-"%char s)) in Hend.
  rewrite Hjoin in Hend.
  unfold slugify. cbv zeta.
  rewrite slug_chars_fixed by done.
  rewrite (strip_char_id "-"%char t d s) by done.
  rewrite filter_all by (eapply Forall_impl; [exact Hwords|]; by intros word (? & _)).
  change (Str.join "-" (Str.split "-"%char s))
    with (Str.join (String "-"%char "") (Str.split "-"%char s)).
  rewrite Hjoin. destruct s; [done|done].
Qed.

(** X25: [slugify] leaves a slug as it is, so slugging twice is slugging
    once. *)
Theorem X25_slugify_is_idempotent value :
  slugify (slugify value) = slugify value
  /\ (forall s, slug_shaped s = true -> slugify s = s).
Proof.
  split; [|apply slugify_fixed].
  apply slugify_fixed, slugify_shaped.
Qed.

End SlugFacts.

Section ReferenceFacts.
Import Paths.
Context (env : Env).

(** X26: a file outside the songs directory keeps its reference.  An
    absolute path of plain segments that exists resolves to itself from
    its own text; when it does not lie below the songs directory that
    text is its portable reference, so serializing it and resolving the
    reference gives the path back. *)
Theorem X26_absolute_path_round_trip fs segs :
  Forall (fun seg => plain_segment seg = true) segs ->
  exists_ env fs (MkPath true segs) = true ->
  resolve_media_path env fs (str (MkPath true segs)) = Ok (MkPath true segs)
  /\ (relative_to (resolve env (MkPath true segs)) (resolve env (SONGS_DIR env))
      = None ->
      _serialize_media_path env (MkPath true segs) = str (MkPath true segs)
      /\ resolve_media_path env fs (_serialize_media_path env (MkPath true segs))
         = Ok (MkPath true segs)).
Proof.
  intros Hall Hex.
  pose proof (resolve_absolute_existing env fs segs Hall Hex) as Hresolve.
  split; [done|]. intros Houtside.
  assert (Hserialize : _serialize_media_path env (MkPath true segs)
                       = str (MkPath true segs)).
  { unfold _serialize_media_path. rewrite expanduser_tilde_free by done.
    by rewrite Houtside. }
  by rewrite Hserialize.
Qed.

Lemma truthy_str_under rel :
  Str.truthy (str (SONGS_DIR env // MkPath false rel)) = true.
Proof.
  destruct rel as [|seg rel].
  - replace (SONGS_DIR env // MkPath false []) with (SONGS_DIR env);
      [apply truthy_str_SONGS_DIR|].
    rewrite SONGS_DIR_unfold. unfold joinpath. cbn. by rewrite app_nil_r.
  - apply truthy_str_long. rewrite SONGS_DIR_unfold. unfold joinpath. cbn.
    rewrite !length_app. cbn. lia.
Qed.

(** X27: the songs directory of the user comes first.  A reference that
    is not blank and whose path is relative resolves to the file of that
    path below the songs directory whenever that file exists, whatever
    exists below the install root. *)
Theorem X27_songs_directory_comes_first fs reference :
  tilde_free (DATA_ROOT env) = true ->
  Str.all_space reference = false ->
  absolute (Path_of_str reference) = false ->
  tilde_free (Path_of_str reference) = true ->
  exists_ env fs (SONGS_DIR env // Path_of_str reference) = true ->
  resolve_media_path env fs reference = Ok (SONGS_DIR env // Path_of_str reference).
Proof.
  intros Hroot Hblank Hrelative Htilde Hex. unfold resolve_media_path.
  rewrite expanduser_tilde_free by done.
  set (raw := Path_of_str reference) in *.
  assert (Hraw : raw = MkPath false (parts raw))
    by (destruct raw as [[] ?]; [done|done]).
  set (c1 := SONGS_DIR env // raw) in *.
  assert (H1 : first_existing env fs (add_candidate ([], []) c1).1 = Some c1).
  { unfold add_candidate. cbn [fst snd existsb negb].
    assert (Hk : Str.truthy (str c1) = true)
      by (subst c1; rewrite Hraw; apply truthy_str_under).
    rewrite Hk. cbn [andb app fst first_existing].
    rewrite expanduser_tilde_free
      by (subst c1; rewrite Hraw; by apply tilde_free_under).
    by rewrite Hex. }
  assert (Hfirst : first_existing env fs (search_order env reference raw) = Some c1).
  { unfold search_order. rewrite truthy_strip, Hblank, Hrelative. cbn [negb].
    fold c1.
    set (s2 := match parts raw with [] => _ | _ :: _ => _ end).
    assert (H2 : first_existing env fs s2.1 = Some c1).
    { subst s2. destruct (parts raw) as [|first rest]; [done|].
      destruct (String.eqb _ _); [|done].
      destruct (parts _); [done|by apply first_existing_add]. }
    destruct (Str.truthy (name raw)); by repeat apply first_existing_add. }
  by rewrite Hfirst.
Qed.

End ReferenceFacts.

Section PreparedFacts.
Import PyNum Assets.
Context (env : Paths.Env) (dec : Decoder).

#[local] Arguments Paths.exists_ : simpl never.
#[local] Arguments write_file : simpl never.
#[local] Arguments mkdir : simpl never.

(** X28: when [ensure_assets] returns, everything is in place: the cache
    directory, the thumbnail and the audio derivative exist, the
    duration of the song is positive and the song is marked as
    prepared; the fields set by the constructor and the loop flag are
    as they were, and no file has been removed. *)
Theorem X28_prepared_assets_are_in_place fs s :
  out_exn (ensure_assets env dec fs s) = None ->
  Paths.exists_ env (out_fs (ensure_assets env dec fs s)) (Paths.CACHE_DIR env) = true
  /\ Paths.exists_ env (out_fs (ensure_assets env dec fs s)) (thumbnail_path s) = true
  /\ Paths.exists_ env (out_fs (ensure_assets env dec fs s)) (audio_path s) = true
  /\ (0 < duration (out_song (ensure_assets env dec fs s)))%Q
  /\ assets_prepared (out_song (ensure_assets env dec fs s)) = true
  /\ stable_fields s (out_song (ensure_assets env dec fs s))
  /\ (forall p, Paths.exists_ env fs p = true ->
        Paths.exists_ env (out_fs (ensure_assets env dec fs s)) p = true).
Proof.
  intros Hreturns.
  destruct (ensure_assets_returns_up_to_date env dec fs s Hreturns) as [Hup Hdir].
  destruct (ensure_assets_stable env dec fs s) as [Hstable Hfiles].
  unfold up_to_date in Hup. cbv zeta in Hup.
  rewrite mkdir_existing in Hup by done.
  apply andb_true_iff in Hup as [[[Hthumb Haudio]%andb_true_iff Hprepared]%andb_true_iff
                                 Hduration].
  destruct Hstable as (H1 & H2 & H3 & H4 & H5 & H6 & H7 & H8).
  rewrite H5 in Hthumb. rewrite H6 in Haudio. apply Qltb_lt in Hduration.
  by split_and!.
Qed.



End PreparedFacts.

(** * The card grid and the widgets *)

Section WidgetFacts.
Import PyNum Widgets.

Lemma layout_card WINDOW_WIDTH card_area_offset display_songs i card :
  _layout_cards WINDOW_WIDTH card_area_offset display_songs !! i = Some card ->
  let columns :=
    Z.max 1 ((WINDOW_WIDTH - CARD_MARGIN_X * 2) / (CARD_WIDTH + CARD_GAP))%Z in
  display_songs !! i = Some (song card)
  /\ left (rect card)
     = (CARD_MARGIN_X + (Z.of_nat i mod columns) * (CARD_WIDTH + CARD_GAP))%Z
  /\ top (rect card)
     = (card_area_offset + CARD_MARGIN_Y
        + (Z.of_nat i / columns) * (CARD_HEIGHT + CARD_GAP))%Z
  /\ width (rect card) = CARD_WIDTH
  /\ height (rect card) = CARD_HEIGHT.
Proof.
  unfold _layout_cards. rewrite list_lookup_imap.
  destruct (display_songs !! i) as [s|]; [|done].
  by intros [= <-].
Qed.

(** X7: the cards [_layout_cards] lays out do not overlap: no point of
    the window lies in two of them, so a click selects at most one
    card. *)
Theorem X7_cards_do_not_overlap WINDOW_WIDTH card_area_offset display_songs
    i j card_i card_j position :
  _layout_cards WINDOW_WIDTH card_area_offset display_songs !! i = Some card_i ->
  _layout_cards WINDOW_WIDTH card_area_offset display_songs !! j = Some card_j ->
  contains card_i position = true ->
  contains card_j position = true ->
  i = j.
Proof.
  intros Hi Hj Hci Hcj.
  apply layout_card in Hi as (_ & Hli & Hti & Hwi & Hhi).
  apply layout_card in Hj as (_ & Hlj & Htj & Hwj & Hhj).
  unfold contains, collidepoint, right, bottom in Hci, Hcj.
  rewrite Hli, Hti, Hwi, Hhi in Hci. rewrite Hlj, Htj, Hwj, Hhj in Hcj.
  set (columns := Z.max 1 ((WINDOW_WIDTH - CARD_MARGIN_X * 2)
                           / (CARD_WIDTH + CARD_GAP))%Z) in *.
  assert (Hc : (0 < columns)%Z) by (subst columns; lia).
  unfold CARD_MARGIN_X, CARD_MARGIN_Y, CARD_WIDTH, CARD_HEIGHT, CARD_GAP in Hci, Hcj.
  apply andb_true_iff in Hci as [[[H1 H2]%andb_true_iff H3]%andb_true_iff H4].
  apply andb_true_iff in Hcj as [[[H5 H6]%andb_true_iff H7]%andb_true_iff H8].
  pose proof (Z.div_mod (Z.of_nat i) columns ltac:(lia)) as Ei.
  pose proof (Z.div_mod (Z.of_nat j) columns ltac:(lia)) as Ej.
  assert (Hcol : (Z.of_nat i mod columns = Z.of_nat j mod columns)%Z) by lia.
  assert (Hrow : (Z.of_nat i / columns = Z.of_nat j / columns)%Z) by lia.
  rewrite Hcol, Hrow in Ei. lia.
Qed.

(** X8: after a resize to a size the display takes, whatever that size
    is, the window has the size asked for, 960 by 640 at least, and
    every card whose rectangle fits the integers of a [pygame.Rect] lies
    between the horizontal margins of the window and below the card
    area offset, has the size of a card, and shows the displayed song of
    its rank. *)
Theorem X8_cards_stay_inside_the_resized_window set_mode display_songs
    width height win win' i card :
  _handle_resize set_mode display_songs width height win = (true, win') ->
  cards win' !! i = Some card ->
  rect_fits (rect card) = true ->
  WINDOW_WIDTH win' = Z.max 960 width
  /\ WINDOW_HEIGHT win' = Z.max 640 height
  /\ display_songs !! i = Some (song card)
  /\ (CARD_MARGIN_X <= left (rect card))%Z
  /\ (right (rect card) <= WINDOW_WIDTH win' - CARD_MARGIN_X)%Z
  /\ (card_area_offset win + CARD_MARGIN_Y <= top (rect card))%Z
  /\ Widgets.width (rect card) = CARD_WIDTH
  /\ Widgets.height (rect card) = CARD_HEIGHT.
Proof.
  intros Hresize Hcard _. unfold _handle_resize in Hresize. cbv zeta in Hresize.
  destruct (set_mode _); [|done]. injection Hresize as <-.
  cbn [cards WINDOW_WIDTH WINDOW_HEIGHT] in *.
  split; [done|]. split; [done|].
  apply layout_card in Hcard as (Hsong & Hl & Ht & Hw & Hh).
  unfold right. rewrite Hl, Ht, Hw, Hh.
  unfold CARD_MARGIN_X, CARD_MARGIN_Y, CARD_WIDTH, CARD_HEIGHT, CARD_GAP in *.
  set (W := Z.max 960 width) in *.
  assert (HW : (960 <= W)%Z) by (subst W; lia).
  change (32 * 2)%Z with 64%Z in *. change (320 + 24)%Z with 344%Z in *.
  change (300 + 24)%Z with 324%Z in *.
  assert (Hq : (2 <= (W - 64) / 344)%Z) by (apply Z.div_le_lower_bound; lia).
  rewrite (Z.max_r 1 ((W - 64) / 344)) in * by lia.
  set (columns := ((W - 64) / 344)%Z) in *.
  pose proof (Z.mod_pos_bound (Z.of_nat i) columns ltac:(lia)) as Hm.
  pose proof (Z.div_pos (Z.of_nat i) columns ltac:(lia) ltac:(lia)) as Hd.
  pose proof (Z.mul_div_le (W - 64) 344 ltac:(lia)) as Hmul.
  fold columns in Hmul.
  split_and!; try done; nia.
Qed.

Lemma py_max_0_min_1 x :
  (0 <= py_max 0 (py_min 1 x) <= 1)%Q.
Proof.
  destruct (py_min_cases 1 x) as [[-> ?]|[-> ?]].
  - destruct (py_max_cases 0 x) as [[-> ?]|[-> ?]]; lra.
  - destruct (py_max_cases 0 1) as [[-> ?]|[-> ?]]; lra.
Qed.

Lemma py_max_0_min_1_inside x :
  (0 <= x <= 1)%Q -> (py_max 0 (py_min 1 x) == x)%Q.
Proof.
  intros Hx.
  destruct (py_min_cases 1 x) as [[-> ?]|[-> ?]].
  - destruct (py_max_cases 0 x) as [[-> ?]|[-> ?]]; lra.
  - destruct (py_max_cases 0 1) as [[-> ?]|[-> ?]]; lra.
Qed.

Lemma prefix_of_length text : prefix_of (String.length text) text = text.
Proof. unfold prefix_of. induction text as [|c text IH]; cbn; [done|]. by rewrite IH. Qed.

Lemma length_prefix_of n text :
  n <= String.length text -> String.length (prefix_of n text) = n.
Proof.
  unfold prefix_of. revert text. induction n as [|n IH]; intros [|c text]; cbn;
    try done; try lia.
  intros Hn. rewrite IH; lia.
Qed.

Lemma prefix_of_prefix_of m n text :
  m <= n -> prefix_of m (prefix_of n text) = prefix_of m text.
Proof.
  unfold prefix_of. revert n text.
  induction m as [|m IH]; intros [|n] [|c text] Hmn; cbn; try done; try lia.
  rewrite IH; [done|lia].
Qed.

Lemma but_last_prefix_of n text :
  n <= String.length text -> but_last (prefix_of n text) = prefix_of (n - 1) text.
Proof.
  intros Hn. unfold but_last. rewrite length_prefix_of by done.
  apply prefix_of_prefix_of. lia.
Qed.

Lemma truthy_prefix_of n text :
  n <= String.length text -> Str.truthy (prefix_of n text) = negb (Nat.eqb n 0).
Proof.
  intros Hn. pose proof (length_prefix_of n text Hn) as Hlen.
  destruct (prefix_of n text); destruct n; cbn in *; try done; lia.
Qed.

(** The loop stops within [len(base)] rounds, at the longest prefix
    whose ellipsized form fits, or at the empty text. *)
Lemma shorten_spec font max_width text rounds n :
  n <= rounds -> n <= String.length text ->
  exists k,
    k <= n
    /\ shorten font max_width rounds (prefix_of n text) = prefix_of k text
    /\ (k <> 0 -> (font (prefix_of k text +:+ "...") <= max_width)%Z)
    /\ (forall m, k < m <= n ->
          (max_width < font (prefix_of m text +:+ "..."))%Z).
Proof.
  revert n. induction rounds as [|rounds IH]; intros n Hrounds Hn.
  - exists n. cbn. split_and!; [done|done|lia|lia].
  - cbn [shorten]. rewrite truthy_prefix_of by done.
    destruct (Nat.eqb_spec n 0) as [->|Hn0]; cbn [negb andb].
    + exists 0. split_and!; [done|done|lia|lia].
    + destruct (max_width <? font (prefix_of n text +:+ "..."))%Z eqn:Hfits.
      * rewrite but_last_prefix_of by done.
        destruct (IH (n - 1)) as (k & Hk & Hshorten & Hfit & Hlong); [lia..|].
        exists k. split_and!; [lia|done|done|].
        intros m Hm. destruct (decide (m = n)) as [->|]; [lia|].
        apply Hlong. lia.
      * exists n. split_and!; [done|done|lia|lia].
Qed.

(** X9: a text that does not fit is cut to the longest prefix that fits
    together with the ellipsis, followed by the ellipsis.  When no prefix
    fits, [_truncate_text] returns the ellipsis alone, and
    [SongCard._truncate] keeps all but the last three characters of the
    text, and one at least, before the ellipsis. *)
Theorem X9_truncated_text_is_the_longest_prefix_that_fits text font max_width :
  (max_width < font text)%Z ->
  exists n,
    n <= String.length text
    /\ (forall m, n < m <= String.length text ->
          (max_width < font (prefix_of m text +:+ "..."))%Z)
    /\ (n <> 0 -> (font (prefix_of n text +:+ "...") <= max_width)%Z)
    /\ _truncate_text text font max_width = prefix_of n text +:+ "..."
    /\ _truncate text font max_width
       = (match n with
          | 0 => prefix_of (Nat.max 1 (String.length text - 3)) text
          | _ => prefix_of n text
          end) +:+ "...".
Proof.
  intros Hwide.
  destruct (shorten_spec font max_width text (String.length text)
              (String.length text)) as (n & Hn & Hshorten & Hfit & Hlong);
    [done..|].
  rewrite prefix_of_length in Hshorten.
  exists n. unfold _truncate_text, _truncate.
  replace (font text <=? max_width)%Z with false by lia.
  rewrite Hshorten, truthy_prefix_of by done.
  assert (H0 : prefix_of 0 text = "") by (by destruct text).
  split_and!; try done; destruct n; cbn [Nat.eqb negb]; by rewrite ?H0.
Qed.

Lemma py_int_le x t :
  (0 <= x)%Q -> (x <= inject_Z t)%Q -> (0 <= py_int x <= t)%Z.
Proof.
  destruct x as [a b]. unfold Qle, py_int. cbn. intros Ha Hx.
  rewrite Z.quot_div_nonneg by lia. split.
  - apply Z.div_pos; lia.
  - apply Z.div_le_upper_bound; lia.
Qed.

(** X10: a surface with a width and a height is scaled to a size that
    fits the target box, and is a pixel wide and high at least; a
    surface without width or height is returned as it is. *)
Theorem X10_scaled_surface_fits_the_box src_w src_h target_w target_h :
  (0 < src_w)%Z -> (0 < src_h)%Z -> (1 <= target_w)%Z -> (1 <= target_h)%Z ->
  (1 <= (_scale_surface (src_w, src_h) (target_w, target_h)).1 <= target_w)%Z
  /\ (1 <= (_scale_surface (src_w, src_h) (target_w, target_h)).2 <= target_h)%Z
  /\ (forall size, size.1 = 0%Z \/ size.2 = 0%Z ->
        _scale_surface size (target_w, target_h) = size).
Proof.
  intros Hw Hh Htw Hth. unfold _scale_surface.
  replace (src_w =? 0)%Z with false by lia.
  replace (src_h =? 0)%Z with false by lia. cbn [orb fst snd].
  set (scale := py_min (truediv target_w src_w) (truediv target_h src_h)).
  assert (Hsw : (0 < inject_Z src_w)%Q) by (rewrite <- (Zlt_Qlt 0); done).
  assert (Hsh : (0 < inject_Z src_h)%Q) by (rewrite <- (Zlt_Qlt 0); done).
  assert (Htw' : (0 < inject_Z target_w)%Q) by (rewrite <- (Zlt_Qlt 0); lia).
  assert (Hth' : (0 < inject_Z target_h)%Q) by (rewrite <- (Zlt_Qlt 0); lia).
  assert (H1 : (inject_Z src_w * truediv target_w src_w == inject_Z target_w)%Q)
    by (unfold truediv; field; lra).
  assert (H2 : (inject_Z src_h * truediv target_h src_h == inject_Z target_h)%Q)
    by (unfold truediv; field; lra).
  assert (Hpos1 : (0 < truediv target_w src_w)%Q)
    by (unfold truediv; apply Qlt_shift_div_l; lra).
  assert (Hpos2 : (0 < truediv target_h src_h)%Q)
    by (unfold truediv; apply Qlt_shift_div_l; lra).
  assert (Hscale : (0 < scale)%Q /\ (scale <= truediv target_w src_w)%Q
                   /\ (scale <= truediv target_h src_h)%Q).
  { subst scale. destruct (py_min_cases (truediv target_w src_w)
                             (truediv target_h src_h)) as [[-> ?]|[-> ?]]; lra. }
  destruct Hscale as (Hs0 & Hs1 & Hs2).
  destruct (py_int_le (inject_Z src_w * scale) target_w) as [? ?]; [nra|nra|].
  destruct (py_int_le (inject_Z src_h * scale) target_h) as [? ?]; [nra|nra|].
  split_and!; try lia.
  intros [w h] [Hz|Hz]; cbn in Hz; subst; cbn; [done|].
  by rewrite orb_true_r.
Qed.

End WidgetFacts.

(** * The card controls, the pages and the library edits *)

Section ControlFacts.
Import PyNum Transport Controls.
Context (w : World).

#[local] Arguments song_in : simpl never.
#[local] Arguments song_eq : simpl never.
#[local] Arguments without_song : simpl never.
#[local] Arguments song_index : simpl never.
#[local] Arguments _clamp_song_position : simpl never.
#[local] Arguments Paths.exists_ : simpl never.
#[local] Arguments _start_song : simpl never.
#[local] Arguments _start_song_device : simpl never.
#[local] Arguments song_ensure_assets : simpl never.
#[local] Arguments can_prepare : simpl never.
#[local] Arguments play_song : simpl never.
#[local] Arguments stop_song : simpl never.
#[local] Arguments seek_target : simpl never.
#[local] Arguments _ensure_song_visible : simpl never.
#[local] Arguments _apply_search : simpl never.
#[local] Arguments play_next_song : simpl never.
#[local] Arguments py_min : simpl never.
#[local] Arguments py_max : simpl never.

Ltac py_cases :=
  repeat match goal with
  | |- context [py_max ?x ?y] =>
      let E := fresh in
      destruct (py_max_cases x y) as [[E ?]|[E ?]]; rewrite !E in *; clear E
  | |- context [py_min ?x ?y] =>
      let E := fresh in
      destruct (py_min_cases x y) as [[E ?]|[E ?]]; rewrite !E in *; clear E
  | _ : context [py_max ?x ?y] |- _ =>
      let E := fresh in
      destruct (py_max_cases x y) as [[E ?]|[E ?]]; rewrite !E in *; clear E
  | _ : context [py_min ?x ?y] |- _ =>
      let E := fresh in
      destruct (py_min_cases x y) as [[E ?]|[E ?]]; rewrite !E in *; clear E
  end.

Lemma song_eq_refl h song : song_eq h song song = true.
Proof. unfold song_eq. by rewrite Nat.eqb_refl. Qed.

Lemma py_min_idem_r d x : py_min (py_min d x) d = py_min d x.
Proof.
  unfold py_min at 1.
  by rewrite (proj2 (Qltb_ge d (py_min d x)) (py_min_le_l d x)).
Qed.

(** [_start_song] on a song whose audio derivative exists and which the
    device takes: no asset is prepared. *)
Lemma start_song_audio_present a song pos imm :
  Paths.exists_ (env w) (fs a) (Assets.audio_path (heap a song)) = true ->
  can_load w (Assets.audio_path (heap a song)) = true ->
  can_play w (Assets.audio_path (heap a song))
    (_clamp_song_position (heap a song) pos) = true ->
  exists a',
    _start_song w song pos imm a = (Ok tt, a')
    /\ started a song (_clamp_song_position (heap a song) pos) imm a'.
Proof.
  intros Hex Hload Hplay. unfold _start_song, bind, gets, when.
  rewrite Hex. cbn [negb]. unfold ret.
  by apply start_song_device_ready.
Qed.

(** The playback time just after a song is started is the position it
    was started at. *)
Lemma playback_time_started a0 a' song clamped imm :
  (0 <= clamped)%Q -> (clamped <= Assets.duration (heap a0 song))%Q ->
  started a0 song clamped imm a' ->
  (_current_playback_time a' == clamped)%Q.
Proof.
  intros H0 Hd (Hcur & Hpos & Hticks & Hpaused &_&_&_&_&_&_& Hheap &_& Hclock &_).
  unfold _current_playback_time, elapsed_seconds.
  rewrite Hcur, Hpos, Hheap, Hticks, Hclock, Z.sub_diag.
  assert (Hz : (inject_Z 0 / inject_Z 1000 == 0)%Q) by reflexivity.
  destruct (is_paused a').
  - destruct (py_min_cases clamped (Assets.duration (heap a0 song)))
      as [[-> ?]|[-> ?]]; lra.
  - destruct (py_min_cases (Assets.duration (heap a0 song))
                (clamped + inject_Z 0 / inject_Z 1000)%Q) as [[-> ?]|[-> ?]]; lra.
Qed.

(** X11: seeking and reading the progress back.  After [seek_song] on a
    song of known duration whose audio derivative exists and which the
    device takes, the song is current and anchored at the position the
    seek was clamped to.  Read at the clock tick of the start, the
    playback time is that anchor and the progress is the quotient of
    the anchor by the duration, between 0 and 1. *)
Theorem X11_progress_after_seek a song ratio :
  (0 < Assets.duration (heap a song))%Q ->
  Paths.exists_ (env w) (fs a) (Assets.audio_path (heap a song)) = true ->
  ready_to_play w a song (seek_target (heap a song) ratio) = true ->
  exists a',
    seek_song w song ratio a = (Ok tt, a')
    /\ current_song a' = Some song
    /\ play_start_position a'
       = _clamp_song_position (heap a song) (seek_target (heap a song) ratio)
    /\ (_current_playback_time a' == play_start_position a')%Q
    /\ (_song_progress (Some song) a'
        == play_start_position a' / Assets.duration (heap a song))%Q
    /\ (0 <= _song_progress (Some song) a')%Q
    /\ (_song_progress (Some song) a' <= 1)%Q.
Proof.
  intros Hd Hex (_ & Hload & Hplay)%ready_to_play_spec.
  set (d := Assets.duration (heap a song)) in *.
  set (clamped := _clamp_song_position (heap a song)
                    (seek_target (heap a song) ratio)) in *.
  destruct (clamp_song_position_bounds (heap a song)
              (seek_target (heap a song) ratio) Hd) as (Hc0 & Hcub & _).
  fold clamped d in Hc0, Hcub.
  assert (Hcd : (clamped < d)%Q).
  { destruct (py_max_cases 0 (d - (5 # 100))%Q) as [[E ?]|[E ?]];
      rewrite E in Hcub; lra. }
  assert (Hstart : forall a0 imm,
            heap a0 = heap a -> fs a0 = fs a ->
            exists a', _start_song w song (seek_target (heap a song) ratio) imm a0
                       = (Ok tt, a')
              /\ started a0 song clamped imm a').
  { intros a0 imm Hh Hf. subst clamped. rewrite <- Hh.
    apply start_song_audio_present; by rewrite ?Hh, ?Hf. }
  assert (Hquotient : (0 <= clamped / d)%Q /\ (clamped / d <= 1)%Q).
  { split.
    - apply Qle_shift_div_l; lra.
    - apply Qle_shift_div_r; lra. }
  unfold seek_song, bind, gets, modify.
  match goal with
  | |- context [_start_song w song ?t ?i ?s] =>
      assert (Hh0 : heap s = heap a) by (by destruct (negb _));
      assert (Hf0 : fs s = fs a) by (by destruct (negb _));
      destruct (Hstart s i Hh0 Hf0) as (a' & Hrun & Hstarted)
  end.
  exists a'. split; [exact Hrun|].
  assert (Ht : (_current_playback_time a' == clamped)%Q).
  { eapply playback_time_started; [done| |exact Hstarted]. rewrite Hh0. fold d. lra. }
  destruct Hstarted as (Hcur & Hpos &_&_&_&_&_&_&_&_& Hheap &_).
  assert (Hprogress : (_song_progress (Some song) a' == clamped / d)%Q).
  { unfold _song_progress. rewrite Hheap, Hh0. fold d.
    assert (Hpositive : Qle_bool d 0 = false) by (by apply Qle_bool_gt).
    rewrite Hpositive, Hcur. cbn [opt_song_eq]. rewrite song_eq_refl. cbn [negb].
    rewrite py_max_0_min_1_inside by (by rewrite Ht).
    by rewrite Ht. }
  rewrite Hpos. split_and!; try done; rewrite Hprogress; apply Hquotient.
Qed.

Lemma toggle_song_pause_pauses a song :
  current_song a = Some song ->
  is_paused a = false ->
  current_song (_toggle_song_pause w song a).2 = Some song
  /\ is_paused (_toggle_song_pause w song a).2 = true
  /\ heap (_toggle_song_pause w song a).2 = heap a
  /\ play_start_position (_toggle_song_pause w song a).2 = _current_playback_time a.
Proof.
  intros Hcur Hplaying. unfold _toggle_song_pause, _current_playback_time.
  rewrite Hcur. cbn [opt_song_eq]. rewrite song_eq_refl, Hplaying. cbn [negb].
  unfold bind, modify, music_pause, on_mixer, modify. cbn. by rewrite Hcur.
Qed.

Lemma toggle_song_pause_resumes a song :
  current_song a = Some song ->
  is_paused a = true ->
  current_song (_toggle_song_pause w song a).2 = Some song
  /\ is_paused (_toggle_song_pause w song a).2 = false
  /\ heap (_toggle_song_pause w song a).2 = heap a
  /\ play_start_position (_toggle_song_pause w song a).2 = play_start_position a
  /\ play_start_ticks (_toggle_song_pause w song a).2 = clock a.
Proof.
  intros Hcur Hpaused. unfold _toggle_song_pause.
  rewrite Hcur. cbn [opt_song_eq]. rewrite song_eq_refl, Hpaused. cbn [negb].
  unfold bind, modify, music_unpause, on_mixer, modify. by cbn.
Qed.

(** X12: the time a song spends paused does not count.  While the
    current song is paused the reported playback time stays what it was
    when the pause was made, and once the song is resumed the time runs
    on from there, up to the duration of the song. *)
Theorem X12_paused_time_does_not_count a song t t' :
  current_song a = Some song ->
  is_paused a = false ->
  _current_playback_time (set_clock t (_toggle_song_pause w song a).2)
  = _current_playback_time a
  /\ _current_playback_time
       (set_clock t'
          (_toggle_song_pause w song
             (set_clock t (_toggle_song_pause w song a).2)).2)
     = py_min (Assets.duration (heap a song))
         (_current_playback_time a + inject_Z (t' - t) / inject_Z 1000)%Q.
Proof.
  intros Hcur Hplaying.
  destruct (toggle_song_pause_pauses a song Hcur Hplaying)
    as (Hcur1 & Hpaused1 & Hheap1 & Hpos1).
  set (paused := (_toggle_song_pause w song a).2) in *.
  destruct (toggle_song_pause_resumes (set_clock t paused) song)
    as (Hcur2 & Hpaused2 & Hheap2 & Hpos2 & Hticks2); [done..|].
  set (resumed := (_toggle_song_pause w song (set_clock t paused)).2) in *.
  cbn in Hheap2, Hpos2, Hticks2.
  split.
  - unfold _current_playback_time at 1. cbn.
    rewrite Hcur1, Hpaused1, Hheap1, Hpos1.
    unfold _current_playback_time. rewrite Hcur, Hplaying.
    apply py_min_idem_r.
  - unfold _current_playback_time at 1. cbn.
    rewrite Hcur2, Hpaused2, Hheap2, Hheap1, Hpos2, Hpos1.
    unfold elapsed_seconds. cbn. by rewrite Hticks2.
Qed.

End ControlFacts.

(** * Properties kept along the runs of the application

    A property of the state that does not depend on the fields a call
    leaves alone, and that the calls which set the other fields keep, is
    kept by every step, whether the call returns or raises. *)

Section Frame.
Import PyNum Transport Controls.
Context (w : World) (P : App -> Prop).

Lemma preserves_ret {A} (x : A) : preserves P (ret x).
Proof. by intros a H. Qed.

Lemma preserves_raise {A} e : preserves P (@raise A e).
Proof. by intros a H. Qed.

Lemma preserves_gets {A} (f : App -> A) : preserves P (gets f).
Proof. by intros a H. Qed.

Lemma preserves_modify f : (forall a, P a -> P (f a)) -> preserves P (modify f).
Proof. intros Hf a H. by apply Hf. Qed.

Lemma preserves_bind {A B} (m : M A) (k : A -> M B) :
  preserves P m -> (forall x, preserves P (k x)) -> preserves P (bind m k).
Proof.
  intros Hm Hk a H. unfold bind. specialize (Hm a H).
  destruct (m a) as [[x|e] a']; [by apply Hk|done].
Qed.

Lemma preserves_when b m : preserves P m -> preserves P (when b m).
Proof. intros Hm. destruct b; [done|apply preserves_ret]. Qed.

Lemma preserves_try_except_pass m :
  preserves P m -> preserves P (try_except_pass m).
Proof. intros Hm a H. by apply Hm. Qed.

Lemma preserves_try_except_pygame m :
  preserves P m -> preserves P (try_except_pygame m).
Proof.
  intros Hm a H. unfold try_except_pygame. specialize (Hm a H).
  by destruct (m a) as [[x|[]] a'].
Qed.

Hypothesis P_heap : forall v a, P a -> P (set_heap v a).
Hypothesis P_fs : forall v a, P a -> P (set_fs v a).
Hypothesis P_mixer : forall m a,
  music_volume m = music_volume (mixer a) -> P a -> P (set_mixer m a).
Hypothesis P_mixer_volume : forall a,
  P a ->
  P (set_mixer
       (mixer_set_music_volume
          (mixer_volume (volume a) (music_volume (mixer a))) (mixer a)) a).
Hypothesis P_pending_end_events : forall v a, P a -> P (set_pending_end_events v a).
Hypothesis P_clock : forall v a, P a -> P (set_clock v a).
Hypothesis P_rng : forall v a, P a -> P (set_rng v a).
Hypothesis P_songs : forall v a, P a -> P (set_songs v a).
Hypothesis P_video_session : forall v a, P a -> P (set_video_session v a).
Hypothesis P_current_song : forall song a, P a -> P (set_current_song (Some song) a).
Hypothesis P_is_paused : forall v a, P a -> P (set_is_paused v a).
Hypothesis P_play_start_ticks : forall v a, P a -> P (set_play_start_ticks v a).
Hypothesis P_play_start_position : forall v a, P a -> P (set_play_start_position v a).
Hypothesis P_shuffle_active : forall v a, P a -> P (set_shuffle_active v a).
Hypothesis P_shuffle_queue : forall v a, P a -> P (set_shuffle_queue v a).
Hypothesis P_search_query : forall v a, P a -> P (set_search_query v a).
Hypothesis P_dragging_progress_card : forall v a,
  P a -> P (set_dragging_progress_card v a).
Hypothesis P_dragging_fullscreen_progress : forall v a,
  P a -> P (set_dragging_fullscreen_progress v a).
Hypothesis P_suppress_end_event : forall v a, P a -> P (set_suppress_end_event v a).

(** Kept by the setters of the page, for a property that does not
    depend on the page; and by the remaining setters, for one that does
    not depend on them. *)
Hypothesis P_filtered_songs : forall v a, P a -> P (set_filtered_songs v a).
Hypothesis P_display_songs : forall v a, P a -> P (set_display_songs v a).
Hypothesis P_visible_song_limit : forall v a, P a -> P (set_visible_song_limit v a).
Hypothesis P_video_fullscreen : forall v a, P a -> P (set_video_fullscreen v a).
Hypothesis P_no_current_song : forall a, P a -> P (set_current_song None a).
Hypothesis P_volume : forall v a, P a -> P (set_volume v a).
Hypothesis P_any_mixer : forall m a, P a -> P (set_mixer m a).

Hypothesis P_stop_song : preserves P stop_song.
Hypothesis P_apply_search : forall reset_visible,
  preserves P (_apply_search w reset_visible).
Hypothesis P_ensure_song_visible : forall song,
  preserves P (_ensure_song_visible w song).
Hypothesis P_first_page : forall order a,
  P a ->
  P (_refresh_display_songs w
       (set_visible_song_limit (Z.min PAGE_SIZE (Z.of_nat (length order)))
          (set_filtered_songs order a))).2.
Hypothesis P_load_more_songs : preserves P (_load_more_songs w).
Hypothesis P_toggle_fullscreen : forall enable, preserves P (toggle_fullscreen enable).
Hypothesis P_update_volume : forall slider mouse_x,
  preserves P (_update_volume_from_mouse slider mouse_x).
Hypothesis P_replaced : forall old_song new_song a,
  P a ->
  P (set_display_songs (replaced old_song new_song (display_songs a))
       (set_filtered_songs (replaced old_song new_song (filtered_songs a)) a)).

Ltac frame :=
  repeat lazymatch goal with
  | H : P ?a |- P ?a => exact H
  | |- P (set_heap _ _) => apply P_heap
  | |- P (update_song _ _ _) => apply P_heap
  | |- P (set_fs _ _) => apply P_fs
  | |- P (set_mixer (mixer_set_music_volume (mixer_volume (volume ?a) _) (mixer ?a)) ?a) =>
      apply P_mixer_volume
  | |- P (set_mixer _ _) => apply P_mixer; [reflexivity|]
  | |- P (set_pending_end_events _ _) => apply P_pending_end_events
  | |- P (set_clock _ _) => apply P_clock
  | |- P (set_rng _ _) => apply P_rng
  | |- P (set_songs _ _) => apply P_songs
  | |- P (set_video_session _ _) => apply P_video_session
  | |- P (set_current_song (Some _) _) => apply P_current_song
  | |- P (set_is_paused _ _) => apply P_is_paused
  | |- P (set_play_start_ticks _ _) => apply P_play_start_ticks
  | |- P (set_play_start_position _ _) => apply P_play_start_position
  | |- P (set_shuffle_active _ _) => apply P_shuffle_active
  | |- P (set_shuffle_queue _ _) => apply P_shuffle_queue
  | |- P (set_search_query _ _) => apply P_search_query
  | |- P (set_dragging_progress_card _ _) => apply P_dragging_progress_card
  | |- P (set_dragging_fullscreen_progress _ _) =>
      apply P_dragging_fullscreen_progress
  | |- P (set_suppress_end_event _ _) => apply P_suppress_end_event
  | |- P (if ?c then _ else _) => destruct c
  | |- P (match ?c with Some _ => _ | None => _ end) => destruct c
  end.

(** For a property that does not depend on the page. *)
Ltac frame_page :=
  repeat lazymatch goal with
  | |- P (set_filtered_songs _ _) => apply P_filtered_songs
  | |- P (set_display_songs _ _) => apply P_display_songs
  | |- P (set_visible_song_limit _ _) => apply P_visible_song_limit
  | |- P (if ?c then _ else _) => destruct c
  | |- P (match ?c with [] => _ | _ :: _ => _ end) => destruct c
  | |- P (set_shuffle_active _ _) => apply P_shuffle_active
  | |- P (set_shuffle_queue _ _) => apply P_shuffle_queue
  | H : P ?a |- P ?a => exact H
  end.

Ltac keeps :=
  repeat lazymatch goal with
  | |- preserves _ (ret _) => apply preserves_ret
  | |- preserves _ (raise _) => apply preserves_raise
  | |- preserves _ (gets _) => apply preserves_gets
  | |- preserves _ (bind _ _) => apply preserves_bind; [|intros ?]
  | |- preserves _ (when _ _) => apply preserves_when
  | |- preserves _ (try_except_pass _) => apply preserves_try_except_pass
  | |- preserves _ (try_except_pygame _) => apply preserves_try_except_pygame
  | |- preserves _ (modify _) => apply preserves_modify; intros ? ?; frame
  | |- preserves _ (if ?c then _ else _) => destruct c
  end.

Ltac at_state :=
  lazymatch goal with
  | H : P ?a |- P (?m ?a).2 => refine ((_ : preserves P m) a H)
  end.

Lemma keeps_on_mixer f :
  (forall m, music_volume (f m) = music_volume m) -> preserves P (on_mixer f).
Proof. intros Hf. apply preserves_modify. intros a H. by apply P_mixer. Qed.

Lemma keeps_song_ensure_assets song : preserves P (song_ensure_assets w song).
Proof.
  intros a H. unfold song_ensure_assets.
  destruct (Assets.out_exn _); cbn; frame.
Qed.

Lemma keeps_video_unload : preserves P video_unload.
Proof. unfold video_unload. keeps. Qed.

Lemma keeps_video_load song : preserves P (video_load w song).
Proof.
  intros a H. unfold video_load. destruct (_ && _); [done|].
  unfold bind, video_unload, modify. cbn.
  destruct (decoder w _); cbn; frame.
Qed.

Lemma keeps_music_stop : preserves P music_stop.
Proof. unfold music_stop. apply preserves_modify. intros a H. frame. Qed.

Lemma keeps_music_load file : preserves P (music_load w file).
Proof.
  unfold music_load. destruct (can_load w file); [|apply preserves_raise].
  by apply keeps_on_mixer.
Qed.

Lemma keeps_music_play start : preserves P (music_play w start).
Proof.
  intros a H. unfold music_play. destruct (music_loaded (mixer a)); [|done].
  destruct (can_play w _ _); [|done]. by apply keeps_on_mixer.
Qed.

Lemma keeps_prepare_visible_assets_loop l :
  preserves P (_prepare_visible_assets_loop w l).
Proof.
  induction l as [|song l IH]; cbn [_prepare_visible_assets_loop];
    [apply preserves_ret|].
  keeps; [apply keeps_song_ensure_assets|apply IH].
Qed.

Lemma keeps_prepare_visible_assets : preserves P (_prepare_visible_assets w).
Proof. intros a H. by apply keeps_prepare_visible_assets_loop. Qed.

Lemma plain_refresh_display_songs : preserves P (_refresh_display_songs w).
Proof.
  unfold _refresh_display_songs. apply preserves_bind.
  - apply preserves_modify. intros a H. frame_page.
  - intros _. apply keeps_prepare_visible_assets.
Qed.

Lemma plain_apply_search reset_visible : preserves P (_apply_search w reset_visible).
Proof.
  unfold _apply_search. apply preserves_bind.
  - apply preserves_modify. intros a H. cbv zeta. frame_page.
  - intros _. apply plain_refresh_display_songs.
Qed.

Lemma plain_ensure_song_visible song : preserves P (_ensure_song_visible w song).
Proof.
  intros a H. unfold _ensure_song_visible.
  destruct (song_index _ _ _); [|done]. destruct (_ <? _)%Z; [done|].
  apply plain_refresh_display_songs. frame_page.
Qed.

Lemma plain_first_page order a :
  P a ->
  P (_refresh_display_songs w
       (set_visible_song_limit (Z.min PAGE_SIZE (Z.of_nat (length order)))
          (set_filtered_songs order a))).2.
Proof. intros H. apply plain_refresh_display_songs. frame_page. Qed.

Lemma plain_load_more_songs : preserves P (_load_more_songs w).
Proof.
  intros a H. unfold _load_more_songs. destruct (_ <=? _)%Z; [done|].
  apply plain_refresh_display_songs. frame_page.
Qed.

Lemma plain_replaced old_song new_song a :
  P a ->
  P (set_display_songs (replaced old_song new_song (display_songs a))
       (set_filtered_songs (replaced old_song new_song (filtered_songs a)) a)).
Proof. intros H. frame_page. Qed.

Lemma plain_toggle_fullscreen enable : preserves P (toggle_fullscreen enable).
Proof.
  unfold toggle_fullscreen. apply preserves_modify. intros a H. cbv zeta.
  destruct (_ && _); [done|].
  destruct (negb _); [apply P_dragging_fullscreen_progress|
                      apply P_dragging_progress_card];
    by apply P_video_fullscreen.
Qed.

Lemma plain_update_volume slider mouse_x :
  preserves P (_update_volume_from_mouse slider mouse_x).
Proof.
  unfold _update_volume_from_mouse. destruct (_ <=? _)%Z; [apply preserves_ret|].
  cbv zeta. apply preserves_bind; [apply preserves_modify; intros; by apply P_volume|].
  intros _. apply preserves_bind; [apply preserves_gets|].
  intros v. apply preserves_modify. intros a H. by apply P_any_mixer.
Qed.

Lemma plain_stop_song : preserves P stop_song.
Proof.
  unfold stop_song, music_set_endevent, music_stop, event_clear_music_end,
    video_unload, on_mixer.
  keeps; intros; try (by apply P_any_mixer); try (by apply P_no_current_song);
    try (by apply P_video_fullscreen).
Qed.

Lemma keeps_bind_at {A B} (m : M A) (k : A -> M B) a :
  P (m a).2 -> (forall x, preserves P (k x)) -> P (bind m k a).2.
Proof.
  intros Hm Hk. unfold bind. destruct (m a) as [[x|e] a']; [by apply Hk|done].
Qed.

Lemma keeps_queue_without song :
  preserves P (modify (fun a =>
    if song_in (heap a) song (shuffle_queue a)
    then set_shuffle_queue (without_song (heap a) song (shuffle_queue a)) a
    else a)).
Proof. keeps. Qed.

Lemma keeps_start_song_device song clamped play_immediately :
  preserves P (_start_song_device w song clamped play_immediately).
Proof.
  unfold _start_song_device.
  apply preserves_bind.
  - apply preserves_try_except_pygame.
    unfold music_set_endevent, event_clear_music_end.
    keeps; try (by apply keeps_on_mixer); try apply keeps_music_stop;
      try apply keeps_music_load; try apply keeps_music_play.
  - intros completed. destruct completed; cbn [negb]; [|apply preserves_ret].
    intros a H. unfold bind at 1, gets. cbv beta iota.
    apply keeps_bind_at.
    { unfold music_set_volume, on_mixer, modify. cbn. by apply P_mixer_volume. }
    intros _. unfold music_pause.
    keeps; try (by apply keeps_on_mixer); try apply keeps_video_load.
Qed.

Lemma keeps_start_song song position play_immediately :
  preserves P (_start_song w song position play_immediately).
Proof.
  unfold _start_song. keeps; [apply keeps_song_ensure_assets|].
  apply keeps_start_song_device.
Qed.

Lemma keeps_cleared :
  preserves P (modify (fun a => set_shuffle_queue [] (set_shuffle_active false a))).
Proof. keeps. Qed.

Lemma keeps_play_song song preserve_queue :
  preserves P (play_song w song preserve_queue).
Proof.
  unfold play_song. keeps;
    [apply P_ensure_song_visible|apply keeps_start_song].
Qed.

Lemma keeps_seek_song song ratio : preserves P (seek_song w song ratio).
Proof. unfold seek_song. keeps. apply keeps_start_song. Qed.

Lemma keeps_toggle_song_pause song : preserves P (_toggle_song_pause w song).
Proof.
  intros a H. unfold _toggle_song_pause.
  destruct (negb _).
  { at_state. keeps. apply keeps_play_song. }
  destruct (is_paused a); at_state; unfold music_unpause, music_pause;
    keeps; by apply keeps_on_mixer.
Qed.

Lemma keeps_play_next_song : preserves P (play_next_song w).
Proof.
  intros a H. unfold play_next_song.
  destruct (filtered_songs a) as [|first rest]; [by apply P_stop_song|].
  destruct (current_song a) as [current|]; [|by apply keeps_play_song].
  destruct (song_index _ _ _) as [idx|]; [|by apply keeps_play_song].
  destruct (_ && _); [by apply P_stop_song|].
  destruct (_ !! _); [by apply keeps_play_song|by apply P_stop_song].
Qed.

Lemma keeps_song_end_transition : preserves P (song_end_transition w).
Proof.
  intros a H. unfold song_end_transition.
  assert (Hrest : P (match shuffle_queue a with
                     | next_song :: rest =>
                         (modify (set_shuffle_queue rest) ;;;
                          play_song w next_song true) a
                     | [] =>
                         (when (shuffle_active a)
                            (modify (set_shuffle_active false) ;;;
                             _apply_search w false) ;;;
                          play_next_song w) a
                     end).2).
  { destruct (shuffle_queue a) as [|next_song rest]; at_state; keeps;
      first [apply P_apply_search|apply keeps_play_next_song|apply keeps_play_song]. }
  destruct (current_song a) as [current|]; [|done].
  destruct (Assets.loop_enabled _); [by apply keeps_play_song|done].
Qed.

Lemma keeps_handle_song_end : preserves P (_handle_song_end w).
Proof.
  intros a H. unfold _handle_song_end.
  destruct (suppress_end_event a); [cbn; frame|by apply keeps_song_end_transition].
Qed.

Lemma keeps_deliver_end_event : preserves P (deliver_end_event w).
Proof.
  intros a H. unfold deliver_end_event.
  destruct (pending_end_events a); [done|].
  apply keeps_handle_song_end. frame.
Qed.

Lemma keeps_toggle_loop song : preserves P (toggle_loop song).
Proof. unfold toggle_loop. keeps. Qed.

Lemma keeps_track_finished a : P a -> P (track_finished a).
Proof. intros H. unfold track_finished. destruct (get_busy _); frame. Qed.

Lemma keeps_start_shuffle : preserves P (start_shuffle w).
Proof.
  intros a H. unfold start_shuffle, bind at 1, gets. cbv beta iota.
  destruct (_search_base a) as [|s base] eqn:Hbase; [done|].
  unfold bind at 1, random_shuffle.
  destruct (shuffle_loop _ _ _) as [order draws]. cbv beta iota.
  unfold bind at 1, modify at 1. cbv beta iota.
  unfold bind at 1, modify at 1. cbv beta iota.
  unfold bind at 1, modify at 1. cbv beta iota.
  unfold bind at 1, modify at 1. cbv beta iota.
  apply keeps_bind_at.
  - apply P_first_page. frame.
  - intros _. destruct order; [apply preserves_raise|apply keeps_play_song].
Qed.

Lemma keeps_transport_step a a' : transport_step w a a' -> P a -> P a'.
Proof.
  intros [] HP.
  - by apply keeps_play_song.
  - by apply keeps_toggle_song_pause.
  - by apply keeps_seek_song.
  - by apply P_stop_song.
  - by apply keeps_play_next_song.
  - by apply keeps_start_shuffle.
  - by apply keeps_deliver_end_event.
  - by apply keeps_toggle_loop.
  - apply P_apply_search. frame.
  - frame.
  - by apply keeps_track_finished.
Qed.

Lemma keeps_handle_card_control song control :
  preserves P (_handle_card_control w song control).
Proof.
  unfold _handle_card_control.
  destruct (String.eqb control "play"); [apply keeps_toggle_song_pause|].
  destruct (String.eqb control "loop"); [apply keeps_toggle_loop|].
  destruct (String.eqb control "fullscreen"); [|apply preserves_ret].
  keeps; [apply keeps_play_song|apply P_toggle_fullscreen].
Qed.

Lemma keeps_save_songs docs : preserves P (save_songs w docs).
Proof. intros a H. unfold save_songs. cbn. frame. Qed.

Lemma keeps_delete_song removable docs song :
  preserves P (delete_song w removable docs song).
Proof.
  unfold delete_song. keeps;
    first [apply P_stop_song|apply keeps_save_songs|apply P_apply_search].
Qed.

Lemma keeps_replace_song_instance old_song new_song :
  preserves P (_replace_song_instance w old_song new_song).
Proof.
  intros a H. unfold _replace_song_instance.
  unfold bind at 1, modify at 1. cbv beta iota.
  unfold bind at 1, modify at 1. cbv beta iota.
  unfold bind at 1, modify at 1. cbv beta iota.
  cbn [filtered_songs display_songs set_songs set_filtered_songs].
  match goal with
  | |- P (bind _ _ ?s).2 =>
      assert (Hs : P s);
        [|revert Hs; generalize s; clear a H; intros a H]
  end.
  { apply (P_replaced old_song new_song (set_songs _ a)). frame. }
  at_state. keeps.
  intros a' H'. destruct (bool_decide _); [by apply keeps_start_song|].
  destruct (bool_decide _); [|done].
  by apply (preserves_try_except_pass _ (keeps_video_load new_song)).
Qed.

Lemma keeps_ui_step a a' : ui_step w a a' -> P a -> P a'.
Proof.
  intros [] HP.
  - by eapply keeps_transport_step.
  - by apply P_load_more_songs.
  - by apply keeps_handle_card_control.
  - by apply P_toggle_fullscreen.
  - by apply P_update_volume.
  - by apply keeps_delete_song.
  - by apply keeps_replace_song_instance.
Qed.

Lemma keeps_ui_run a a' : rtc (ui_step w) a a' -> P a -> P a'.
Proof.
  induction 1 as [|a1 a2 a3 Hstep _ IH]; [done|].
  intros H. apply IH. by eapply keeps_ui_step.
Qed.

End Frame.

(** * The page, the full-screen mode and the volume along the runs *)

Section UiInvariants.
Import PyNum Transport Controls.
Context (w : World).

Ltac same_state :=
  intros;
  lazymatch goal with
  | H : ?Q ?a |- ?Q _ => exact H
  end.

(** ** The page *)

Lemma refresh_display_songs_page a :
  (0 <= visible_song_limit a <= Z.of_nat (length (filtered_songs a)))%Z ->
  page_ok (_refresh_display_songs w a).2.
Proof.
  intros Hlimit. unfold _refresh_display_songs, bind, modify.
  cbv beta iota.
  apply (keeps_prepare_visible_assets w page_ok); [same_state..|].
  unfold page_ok.
  destruct (visible_song_limit a <=? 0)%Z eqn:E; cbn.
  - split; [done|]. replace (visible_song_limit a) with 0%Z by lia. done.
  - split; [done|]. by rewrite Z.min_l by lia.
Qed.

Lemma apply_search_page reset_visible a :
  page_ok (_apply_search w reset_visible a).2.
Proof.
  unfold _apply_search, bind, modify. cbv beta iota zeta.
  apply refresh_display_songs_page.
  cbn [filtered_songs visible_song_limit set_shuffle_active set_shuffle_queue
       set_filtered_songs].
  destruct (reset_visible || _); cbn.
  - unfold PAGE_SIZE. destruct (_search_base a) as [|s base]; cbn [length]; lia.
  - unfold PAGE_SIZE. lia.
Qed.

Lemma ensure_song_visible_page song : preserves page_ok (_ensure_song_visible w song).
Proof.
  intros a H. unfold _ensure_song_visible.
  destruct (song_index _ _ _) as [index|]; [|done].
  destruct (_ <? _)%Z; [done|]. cbv zeta.
  apply refresh_display_songs_page. cbn.
  destruct (_ =? 0)%Z eqn:E; [lia|].
  pose proof (Z.mod_pos_bound (Z.of_nat index + 1) PAGE_SIZE ltac:(done)).
  lia.
Qed.

Lemma first_page order a :
  page_ok (_refresh_display_songs w
             (set_visible_song_limit (Z.min PAGE_SIZE (Z.of_nat (length order)))
                (set_filtered_songs order a))).2.
Proof. apply refresh_display_songs_page. cbn. unfold PAGE_SIZE. lia. Qed.

Lemma load_more_songs_page : preserves page_ok (_load_more_songs w).
Proof.
  intros a H. unfold _load_more_songs.
  destruct (_ <=? _)%Z eqn:E; [done|]. cbv zeta.
  apply refresh_display_songs_page. cbn.
  destruct H as [H _]. unfold PAGE_SIZE. lia.
Qed.

Lemma length_replaced old_song new_song l :
  length (replaced old_song new_song l) = length l.
Proof. unfold replaced. apply length_map. Qed.

Lemma replaced_page old_song new_song a :
  page_ok a ->
  page_ok (set_display_songs (replaced old_song new_song (display_songs a))
             (set_filtered_songs (replaced old_song new_song (filtered_songs a)) a)).
Proof.
  intros [Hlimit Hpage]. unfold page_ok. cbn.
  rewrite length_replaced. split; [done|].
  rewrite Hpage. unfold replaced. symmetry. apply firstn_map.
Qed.

Lemma page_ok_run a a' : rtc (ui_step w) a a' -> page_ok a -> page_ok a'.
Proof.
  apply (keeps_ui_run w page_ok); try same_state.
  - apply plain_stop_song; same_state.
  - intros reset_visible a0 _. apply apply_search_page.
  - apply ensure_song_visible_page.
  - intros order a0 _. apply first_page.
  - apply load_more_songs_page.
  - intros enable. apply plain_toggle_fullscreen; same_state.
  - intros slider mouse_x. apply plain_update_volume; same_state.
  - apply replaced_page.
Qed.

(** X13: the displayed songs are always a page of the filtered sequence.
    Once [_apply_search] has run, which [__init__] does, then along every
    run of the application, whatever the decoder and the device do, the
    limit of visible songs lies within the filtered sequence and the
    displayed songs are its first songs up to that limit. *)
Theorem X13_displayed_songs_are_a_page a0 reset_visible a :
  rtc (ui_step w) (_apply_search w reset_visible a0).2 a ->
  (0 <= visible_song_limit a <= Z.of_nat (length (filtered_songs a)))%Z
  /\ display_songs a = take (Z.to_nat (visible_song_limit a)) (filtered_songs a).
Proof.
  intros Hrun. apply (page_ok_run _ a Hrun). apply apply_search_page.
Qed.

Lemma refresh_display_songs_view a :
  filtered_songs (_refresh_display_songs w a).2 = filtered_songs a
  /\ visible_song_limit (_refresh_display_songs w a).2 = visible_song_limit a.
Proof.
  by apply (plain_refresh_display_songs w
              (fun s => filtered_songs s = filtered_songs a
                        /\ visible_song_limit s = visible_song_limit a));
    [same_state..|].
Qed.

Lemma song_index_lookup h song l index :
  song_index h song l = Some index ->
  exists item, l !! index = Some item /\ song_eq h item song = true.
Proof.
  revert index. induction l as [|x l IH]; intros index; cbn; [done|].
  destruct (song_eq h x song) eqn:E.
  - intros [= <-]. by exists x.
  - destruct (song_index h song l) as [i|]; [|done].
    intros [= <-]. by apply IH.
Qed.

(** X16: [_ensure_song_visible] puts the song on the page.  For a song
    found at some rank of the filtered sequence, the call leaves the
    sequence as it is and the song is displayed at that rank; the limit
    of visible songs stays, or becomes the first multiple of the page
    size beyond the rank, cut to the length of the sequence. *)
Theorem X16_ensured_song_is_on_the_page a song index :
  page_ok a ->
  song_index (heap a) song (filtered_songs a) = Some index ->
  filtered_songs (_ensure_song_visible w song a).2 = filtered_songs a
  /\ (exists item,
        display_songs (_ensure_song_visible w song a).2 !! index = Some item
        /\ filtered_songs a !! index = Some item
        /\ song_eq (heap a) item song = true)
  /\ (Z.of_nat index < visible_song_limit (_ensure_song_visible w song a).2)%Z
  /\ (visible_song_limit (_ensure_song_visible w song a).2 = visible_song_limit a
      \/ visible_song_limit (_ensure_song_visible w song a).2
         = Z.min (PAGE_SIZE * ((Z.of_nat index + PAGE_SIZE) / PAGE_SIZE))
             (Z.of_nat (length (filtered_songs a))))%Z.
Proof.
  intros Hpage Hindex.
  pose proof (ensure_song_visible_page song a Hpage) as [Hlimit' Hpage'].
  destruct (song_index_lookup _ _ _ _ Hindex) as (item & Hitem & Heq).
  assert (Hlen : index < length (filtered_songs a))
    by (by eapply lookup_lt_Some).
  revert Hlimit' Hpage'. unfold _ensure_song_visible. rewrite Hindex.
  destruct (Z.of_nat index <? visible_song_limit a)%Z eqn:Hvisible.
  - cbn [snd]. intros Hlimit' Hpage'. split; [done|]. split_and!; [|lia|by left].
    exists item. split_and!; [|done..]. rewrite Hpage'.
    rewrite lookup_take_lt by lia. done.
  - cbv zeta.
    match goal with
    | |- context [_refresh_display_songs w ?s] =>
        destruct (refresh_display_songs_view s) as [-> ->]
    end.
    cbn [filtered_songs visible_song_limit set_visible_song_limit].
    set (limit := Z.min _ _).
    assert (Hnew : limit
                   = Z.min (PAGE_SIZE * ((Z.of_nat index + PAGE_SIZE) / PAGE_SIZE))
                       (Z.of_nat (length (filtered_songs a)))).
    { subst limit. unfold PAGE_SIZE.
      destruct (_ =? 0)%Z eqn:E; f_equal; Z.div_mod_to_equations; lia. }
    assert (Hreach : (Z.of_nat index < limit)%Z).
    { rewrite Hnew. unfold PAGE_SIZE. Z.div_mod_to_equations. lia. }
    intros Hlimit' Hpage'. split; [done|]. split_and!; [|done|by right].
    exists item. split_and!; [|done..]. rewrite Hpage'.
    rewrite lookup_take_lt by lia. done.
Qed.

(** X17: every press of "Load More" shows the next page: the limit of
    visible songs grows by the page size, up to the length of the
    filtered sequence, which stays as it is; after [n] presses the
    first [limit + 5 n] songs of the sequence are displayed, or all of
    them. *)
Theorem X17_load_more_shows_the_next_pages a n :
  page_ok a ->
  let a' := Nat.iter n (fun s => (_load_more_songs w s).2) a in
  filtered_songs a' = filtered_songs a
  /\ visible_song_limit a'
     = Z.min (visible_song_limit a + PAGE_SIZE * Z.of_nat n)
         (Z.of_nat (length (filtered_songs a)))
  /\ display_songs a' = take (Z.to_nat (visible_song_limit a')) (filtered_songs a).
Proof.
  intros Hpage. cbv zeta. induction n as [|n IH].
  - unfold Nat.iter. cbn [nat_rect]. destruct Hpage as [Hlimit Hdisplay].
    split_and!; [done| |done]. unfold PAGE_SIZE. lia.
  - rewrite Nat.iter_succ. destruct IH as (Hf & Hl & Hd).
    set (s := Nat.iter n (fun s => (_load_more_songs w s).2) a) in *.
    assert (Hs : page_ok s).
    { split; [|by rewrite Hf]. rewrite Hf, Hl. destruct Hpage as [Hlimit _].
      unfold PAGE_SIZE. lia. }
    pose proof (load_more_songs_page s Hs) as [Hlimit' Hpage'].
    revert Hlimit' Hpage'. unfold _load_more_songs.
    destruct (_ <=? _)%Z eqn:E.
    + cbn [snd]. intros _ _. rewrite Hf in E |- *. split_and!; [done| |done].
      rewrite Hl in E |- *. unfold PAGE_SIZE in *. lia.
    + cbv zeta.
      match goal with
      | |- context [_refresh_display_songs w ?t] =>
          destruct (refresh_display_songs_view t) as [-> ->]
      end.
      cbn [filtered_songs visible_song_limit set_visible_song_limit].
      rewrite Hf in E |- *. intros _ ->. split_and!; [done| |done].
      rewrite Hl in E |- *. unfold PAGE_SIZE in *. lia.
Qed.

(** ** The full-screen mode *)

Lemma stop_song_leaves_fullscreen a : video_fullscreen (stop_song a).2 = false.
Proof.
  unfold stop_song, bind, gets, when, modify, ret, music_set_endevent, music_stop,
    event_clear_music_end, video_unload, on_mixer, modify.
  by destruct (get_busy (mixer a)).
Qed.

Lemma toggle_fullscreen_ok enable : preserves fullscreen_ok (toggle_fullscreen enable).
Proof.
  intros a H. unfold toggle_fullscreen, modify, fullscreen_ok. cbn.
  destruct (match enable with Some e => e | None => negb (video_fullscreen a) end)
    eqn:Hen; cbn.
  - destruct (bool_decide (current_song a <> None)) eqn:Hcur; cbn.
    + intros _. by apply bool_decide_eq_true in Hcur.
    + done.
  - done.
Qed.

Lemma fullscreen_ok_run a a' :
  rtc (ui_step w) a a' -> fullscreen_ok a -> fullscreen_ok a'.
Proof.
  apply (keeps_ui_run w fullscreen_ok); try same_state.
  - by intros song a0 _ _.
  - intros a0 _ Hfull. by rewrite stop_song_leaves_fullscreen in Hfull.
  - intros reset_visible. apply plain_apply_search; same_state.
  - intros song. apply plain_ensure_song_visible; same_state.
  - intros order a0. apply plain_first_page; same_state.
  - apply plain_load_more_songs; same_state.
  - apply toggle_fullscreen_ok.
  - intros slider mouse_x. apply plain_update_volume; same_state.
Qed.

(** X14: the video is shown full screen only while a song is current:
    along every run of the application that starts without the
    full-screen mode, whatever the decoder and the device do, the mode
    is on only when there is a current song. *)
Theorem X14_fullscreen_only_with_a_current_song a a' :
  video_fullscreen a = false ->
  rtc (ui_step w) a a' ->
  video_fullscreen a' = true -> exists song, current_song a' = Some song.
Proof.
  intros Hoff Hrun Hfull.
  assert (Hok : fullscreen_ok a) by (intros E; congruence).
  pose proof (fullscreen_ok_run a a' Hrun Hok Hfull) as Hcur.
  destruct (current_song a') as [song|]; [by exists song|done].
Qed.

(** ** The volume *)

Lemma py_int_floor x :
  (0 <= x)%Q -> (inject_Z (py_int x) <= x)%Q /\ (x < inject_Z (py_int x) + 1)%Q.
Proof.
  destruct x as [n d]. unfold Qle, Qlt, py_int. cbn. intros Hn.
  rewrite Z.quot_div_nonneg by lia.
  pose proof (Z.div_mod n (Z.pos d) ltac:(lia)) as Hdiv.
  pose proof (Z.mod_pos_bound n (Z.pos d) ltac:(lia)) as Hmod.
  split; nia.
Qed.

(** A volume in [0, 1] is taken by the mixer, cut to its steps. *)
Lemma mixer_volume_in_range v old :
  (0 <= v)%Q -> (v <= 1)%Q ->
  mixer_volume v old = (inject_Z (py_int (v * 128)) / 128)%Q.
Proof.
  intros H0 H1. unfold mixer_volume. cbv zeta.
  destruct (py_int_le (v * 128) 128) as [Hlow Hhigh].
  - lra.
  - change (inject_Z 128) with 128%Q. lra.
  - destruct (Z.ltb_spec (py_int (v * 128)) 0) as [|_]; [lia|].
    by rewrite Z.min_l by lia.
Qed.

Lemma update_volume_ok slider mouse_x :
  preserves volume_ok (_update_volume_from_mouse slider mouse_x).
Proof.
  intros a H. unfold _update_volume_from_mouse.
  destruct (_ <=? _)%Z; [done|]. cbv zeta.
  unfold bind, modify, gets, music_set_volume, on_mixer, modify, volume_ok. cbn.
  match goal with
  | |- context [py_max 0 (py_min 1 ?r)] => destruct (py_max_0_min_1 r)
  end.
  split_and!; [done|done|]. by apply mixer_volume_in_range.
Qed.

Lemma volume_ok_run a a' : rtc (ui_step w) a a' -> volume_ok a -> volume_ok a'.
Proof.
  apply (keeps_ui_run w volume_ok); try same_state.
  - intros m a0 Hm (H0 & H1 & Hv). unfold volume_ok. cbn. by rewrite Hm.
  - intros a0 (H0 & H1 & Hv). unfold volume_ok. cbn.
    split_and!; [done|done|]. by apply mixer_volume_in_range.
  - apply plain_stop_song; try same_state.
    intros m a0 Hm (H0 & H1 & Hv). unfold volume_ok. cbn. by rewrite Hm.
  - intros reset_visible. apply plain_apply_search; same_state.
  - intros song. apply plain_ensure_song_visible; same_state.
  - intros order a0. apply plain_first_page; same_state.
  - apply plain_load_more_songs; same_state.
  - intros enable. apply plain_toggle_fullscreen; same_state.
  - apply update_volume_ok.
Qed.

(** X15: the volume stays one the mixer takes, and the mixer has it cut
    to its steps of 1/128.  Along every run of the application from a
    state whose volume lies in [0, 1] and whose mixer has it so,
    whatever the pointer does to the slider, the volume lies in [0, 1]
    and the volume of the mixer is [int(volume * 128) / 128]: the
    volume or less, by less than 1/128. *)
Theorem X15_volume_stays_in_range a a' :
  (0 <= volume a)%Q -> (volume a <= 1)%Q ->
  music_volume (mixer a) = (inject_Z (py_int (volume a * 128)) / 128)%Q ->
  rtc (ui_step w) a a' ->
  (0 <= volume a')%Q /\ (volume a' <= 1)%Q
  /\ music_volume (mixer a') = (inject_Z (py_int (volume a' * 128)) / 128)%Q
  /\ (music_volume (mixer a') <= volume a')%Q
  /\ (volume a' - music_volume (mixer a') < 1 # 128)%Q.
Proof.
  intros H0 H1 Hv Hrun.
  destruct (volume_ok_run a a' Hrun) as (H0' & H1' & Hv'); [done|].
  destruct (py_int_floor (volume a' * 128)) as [Hlow Hhigh]; [lra|].
  assert (Hsteps : (inject_Z (py_int (volume a' * 128)) / 128
                    == inject_Z (py_int (volume a' * 128)) * (1 # 128))%Q)
    by reflexivity.
  split_and!; try done; rewrite Hv', Hsteps; lra.
Qed.

End UiInvariants.

(** * Failures of [_start_song], the video frames and the library edits *)

Section EditFacts.
Import PyNum Transport Controls.
Context (w : World).

#[local] Arguments song_in : simpl never.
#[local] Arguments song_eq : simpl never.
#[local] Arguments opt_song_eq : simpl never.
#[local] Arguments without_song : simpl never.
#[local] Arguments song_index : simpl never.
#[local] Arguments _clamp_song_position : simpl never.
#[local] Arguments Paths.exists_ : simpl never.
#[local] Arguments Assets.ensure_assets : simpl never.
#[local] Arguments _start_song : simpl never.
#[local] Arguments play_song : simpl never.
#[local] Arguments stop_song : simpl never.
#[local] Arguments _ensure_song_visible : simpl never.
#[local] Arguments _apply_search : simpl never.
#[local] Arguments _refresh_display_songs : simpl never.
#[local] Arguments remove_song : simpl never.
#[local] Arguments unlink : simpl never.
#[local] Arguments py_min : simpl never.
#[local] Arguments py_max : simpl never.

(** X21: when the audio derivative of a song is missing and its assets
    cannot be prepared, [_start_song] raises what [ensure_assets] raised
    before it touches the device: the mixer, the pending end events,
    the current song with its anchor and its pause, the shuffle queue
    and the suppression flag are as they were. *)
Theorem X21_start_song_raises_before_the_device a song position play_immediately e :
  Paths.exists_ (env w) (fs a) (Assets.audio_path (heap a song)) = false ->
  Assets.out_exn (Assets.ensure_assets (env w) (decoder w) (fs a) (heap a song))
  = Some e ->
  exists a',
    _start_song w song position play_immediately a = (Raise e, a')
    /\ mixer a' = mixer a
    /\ pending_end_events a' = pending_end_events a
    /\ current_song a' = current_song a
    /\ is_paused a' = is_paused a
    /\ play_start_position a' = play_start_position a
    /\ play_start_ticks a' = play_start_ticks a
    /\ shuffle_queue a' = shuffle_queue a
    /\ suppress_end_event a' = suppress_end_event a.
Proof.
  intros Hex Hexn. unfold _start_song, bind, gets, when.
  rewrite Hex. cbn [negb]. unfold song_ensure_assets. rewrite Hexn.
  eexists. split; [reflexivity|]. by cbn.
Qed.

(** X22: when the audio derivative exists and the device refuses to load
    it or to play it, [_start_song] returns with the device stopped and
    no end event pending, and leaves the current song, its anchor, its
    pause and the shuffle queue as they were; the suppression flag is
    left up when music was playing. *)
Theorem X22_start_song_on_a_refused_file a song position play_immediately :
  Paths.exists_ (env w) (fs a) (Assets.audio_path (heap a song)) = true ->
  can_load w (Assets.audio_path (heap a song)) = false
  \/ can_play w (Assets.audio_path (heap a song))
       (_clamp_song_position (heap a song) position) = false ->
  exists a',
    _start_song w song position play_immediately a = (Ok tt, a')
    /\ music_playing (mixer a') = false
    /\ pending_end_events a' = 0
    /\ current_song a' = current_song a
    /\ is_paused a' = is_paused a
    /\ play_start_position a' = play_start_position a
    /\ play_start_ticks a' = play_start_ticks a
    /\ shuffle_queue a' = shuffle_queue a
    /\ suppress_end_event a' = get_busy (mixer a) || suppress_end_event a.
Proof.
  intros Hex Hrefused. unfold _start_song, bind, gets, when.
  rewrite Hex. cbn [negb]. unfold ret.
  unfold _start_song_device, bind, gets, when, ret, modify, try_except_pygame,
    music_set_endevent, music_stop, event_clear_music_end, music_load,
    music_play, on_mixer, modify, raise.
  destruct (get_busy (mixer a)) eqn:Hbusy; cbn;
    destruct (can_load w _) eqn:Hload; cbn;
    try (destruct Hrefused as [|Hplay]; [done|rewrite Hplay]); cbn;
    (eexists; split; [reflexivity|]); by cbn.
Qed.


Lemma song_eq_same h song : song_eq h song song = true.
Proof. unfold song_eq. by rewrite Nat.eqb_refl. Qed.

Lemma song_eq_neq h x song : song_eq h x song = false -> x <> song.
Proof. intros E ->. by rewrite song_eq_same in E. Qed.

Lemma distinct_entries_tail h x l :
  distinct_entries h (x :: l) -> distinct_entries h l.
Proof. unfold distinct_entries. cbn. by intros [_ ?]%NoDup_cons. Qed.

Lemma filter_other_all song (l : list SongRef) :
  song ∉ l -> List.filter (fun r => negb (Nat.eqb r song)) l = l.
Proof.
  induction l as [|x l IH]; [done|]. cbn.
  intros [Hx Hl]%not_elem_of_cons.
  destruct (Nat.eqb_spec x song) as [->|_]; [done|]. cbn. by rewrite IH.
Qed.

(** In a list of distinct entries, [remove] takes out the song itself. *)
Lemma remove_song_distinct h l song :
  distinct_entries h l -> song ∈ l ->
  song_in h song l = true
  /\ remove_song h song l = List.filter (fun r => negb (Nat.eqb r song)) l.
Proof.
  intros Hdistinct Hin.
  pose proof (distinct_entries_NoDup h l Hdistinct) as Hnodup.
  induction l as [|x l IH]; [by apply elem_of_nil in Hin|].
  unfold song_in, remove_song. cbn. fold (remove_song h song l).
  fold (song_in h song l).
  destruct (song_eq h x song) eqn:Heq.
  - assert (x = song) as ->.
    { eapply (distinct_entries_song_eq h h (x :: l)); try done.
      apply elem_of_cons. by left. }
    rewrite Nat.eqb_refl. cbn. split; [done|].
    apply NoDup_cons in Hnodup as [Hx _]. by rewrite filter_other_all.
  - pose proof (song_eq_neq h x song Heq) as Hne.
    apply elem_of_cons in Hin as [->|Hin]; [done|].
    apply NoDup_cons in Hnodup as [_ Hnodup].
    destruct (IH (distinct_entries_tail h x l Hdistinct) Hin Hnodup) as [-> ->].
    destruct (Nat.eqb_spec x song) as [->|_]; [done|]. by cbn.
Qed.

Lemma apply_search_view reset_visible a :
  exists a',
    _apply_search w reset_visible a = (Ok tt, a')
    /\ songs a' = songs a
    /\ current_song a' = current_song a
    /\ shuffle_queue a' = []
    /\ shuffle_active a' = false
    /\ page_ok a'.
Proof.
  destruct (apply_search_effect w a reset_visible)
    as (a' & Heq & (Hsongs & _) & _ & Hq & Hactive & Hcur).
  exists a'. split_and!; try done.
  pose proof (apply_search_page w reset_visible a) as Hpage.
  by rewrite Heq in Hpage.
Qed.

(** X18: [delete_song] on a song of a library of distinct entries
    returns.  The song is gone from the library, whose other songs stay
    in their order; it is not the current song any more, and another
    current song stays current; the shuffle is over; the document that
    is saved lists the songs that remain; the displayed songs are a page
    of the filtered sequence. *)
Theorem X18_deleted_song_leaves_the_library a removable docs song :
  distinct_entries (heap a) (songs a) ->
  song ∈ songs a ->
  exists docs' a',
    delete_song w removable docs song a = (Ok docs', a')
    /\ songs a' = List.filter (fun r => negb (Nat.eqb r song)) (songs a)
    /\ (song ∉ songs a')
    /\ current_song a' <> Some song
    /\ (opt_song_eq (heap a) (current_song a) song = false ->
        current_song a' = current_song a)
    /\ shuffle_queue a' = [] /\ shuffle_active a' = false
    /\ docs'
       = Library.write_document docs
           (Assets.fs_key (env w) (Paths.DATA_PATH (env w)))
           (Library.JObject
              [("songs",
                Library.JArray
                  (List.map (fun r => Library.song_entry (env w) (heap a r))
                     (songs a')))])
    /\ page_ok a'.
Proof.
  intros Hdistinct Hin.
  destruct (remove_song_distinct (heap a) (songs a) song Hdistinct Hin)
    as [Hsong_in Hremove].
  unfold delete_song, bind at 1, gets. cbv beta iota.
  set (c := opt_song_eq (heap a) (current_song a) song).
  assert (H1 : exists s1,
            when c stop_song a = (Ok tt, s1)
            /\ heap s1 = heap a /\ songs s1 = songs a
            /\ current_song s1 = (if c then None else current_song a)).
  { destruct c; cbn [when].
    - destruct (stop_song_stopped a) as (s1 & -> & Hs).
      exists s1. destruct Hs as (?&?&?&?&?&?&?&?&?&?&?&?&?&?&?&?). by split_and!.
    - by exists a. }
  destruct H1 as (s1 & Hs1 & Hh1 & Hsongs1 & Hcur1).
  unfold bind at 1. rewrite Hs1.
  unfold bind at 1, modify at 1. cbv beta iota.
  match goal with |- context [bind _ _ ?s] => set (s2 := s) end.
  assert (Hs2 : heap s2 = heap a /\ songs s2 = songs a
                /\ current_song s2 = (if c then None else current_song a))
    by (subst s2; by destruct (opt_song_eq (heap s1) _ song)).
  destruct Hs2 as (Hh2 & Hsongs2 & Hcur2).
  unfold bind at 1, modify at 1. cbv beta iota.
  match goal with |- context [bind _ _ ?s] => set (s3 := s) end.
  assert (Hs3 : heap s3 = heap a /\ songs s3 = songs a
                /\ current_song s3 = (if c then None else current_song a))
    by (by subst s3).
  destruct Hs3 as (Hh3 & Hsongs3 & Hcur3).
  unfold bind at 1, modify at 1. cbv beta iota.
  match goal with |- context [bind _ _ ?s] => set (s4 := s) end.
  assert (Hs4 : heap s4 = heap a
                /\ songs s4 = List.filter (fun r => negb (Nat.eqb r song)) (songs a)
                /\ current_song s4 = (if c then None else current_song a)).
  { subst s4. rewrite Hh3, Hsongs3, Hsong_in. cbn. by rewrite Hremove. }
  destruct Hs4 as (Hh4 & Hsongs4 & Hcur4).
  unfold bind at 1, modify at 1. cbv beta iota.
  match goal with |- context [bind _ _ ?s] => set (s5 := s) end.
  assert (Hs5 : heap s5 = heap a
                /\ songs s5 = List.filter (fun r => negb (Nat.eqb r song)) (songs a)
                /\ current_song s5 = (if c then None else current_song a))
    by (subst s5; by destruct (song_in (heap s4) song _)).
  destruct Hs5 as (Hh5 & Hsongs5 & Hcur5).
  unfold bind at 1, save_songs. cbv beta iota zeta.
  cbn [fst snd Library.save_song_data].
  match goal with |- context [bind _ _ ?s] => set (s6 := s) end.
  destruct (apply_search_view false s6)
    as (a' & Heq & Hsongs & Hcur & Hq & Hactive & Hpage).
  unfold bind at 1. rewrite Heq. unfold ret.
  eexists _, a'. split; [reflexivity|].
  assert (Hs6 : songs s6 = songs s5 /\ current_song s6 = current_song s5)
    by (by subst s6).
  destruct Hs6 as (Hsongs6 & Hcur6).
  rewrite Hsongs, Hsongs6, Hsongs5, Hcur, Hcur6, Hcur5.
  split_and!; try done.
  - intros Hmem. apply list_elem_of_In, filter_In in Hmem as [_ Hne].
    by rewrite Nat.eqb_refl in Hne.
  - subst c. destruct (opt_song_eq _ _ _) eqn:E; [done|].
    intros Hc. rewrite Hc in E. cbn in E. unfold opt_song_eq in E.
    by rewrite song_eq_same in E.
  - by intros ->.
  - rewrite <- Hsongs5, Hh5. by rewrite List.map_map.
Qed.

Lemma not_in_replaced old_song new_song l :
  old_song <> new_song -> old_song ∉ replaced old_song new_song l.
Proof.
  intros Hne Hin. unfold replaced in Hin.
  apply list_elem_of_In, in_map_iff in Hin as (item & Hitem & _).
  destruct (Nat.eqb_spec item old_song); congruence.
Qed.

(** X19: replacing the song that is playing keeps the playback going.
    When the current song is replaced by a song that is ready to play,
    the new song is current, anchored at the playback time of the old
    one (clamped to the new song), paused if the old one was; the new
    song stands where the old one stood in the library and in the
    filtered and the displayed sequence, and the old one is gone from
    the library. *)
Theorem X19_replaced_song_keeps_playing a old_song new_song :
  current_song a = Some old_song ->
  ready_to_play w a new_song (_current_playback_time a) = true ->
  exists a',
    _replace_song_instance w old_song new_song a = (Ok tt, a')
    /\ current_song a' = Some new_song
    /\ play_start_position a'
       = _clamp_song_position (heap a new_song) (_current_playback_time a)
    /\ is_paused a' = is_paused a
    /\ songs a' = replaced old_song new_song (songs a)
    /\ filtered_songs a' = replaced old_song new_song (filtered_songs a)
    /\ display_songs a' = replaced old_song new_song (display_songs a)
    /\ (old_song <> new_song -> old_song ∉ songs a').
Proof.
  intros Hcur Hready. unfold _replace_song_instance.
  unfold bind at 1, modify at 1. cbv beta iota.
  unfold bind at 1, modify at 1. cbv beta iota.
  unfold bind at 1, modify at 1. cbv beta iota.
  unfold bind at 1, modify at 1. cbv beta iota.
  match goal with |- context [bind _ _ ?s] => set (s4 := s) end.
  assert (Hs4 : current_song s4 = Some old_song
                /\ songs s4 = replaced old_song new_song (songs a)
                /\ filtered_songs s4 = replaced old_song new_song (filtered_songs a)
                /\ display_songs s4 = replaced old_song new_song (display_songs a)
                /\ is_paused s4 = is_paused a /\ heap s4 = heap a
                /\ _current_playback_time s4 = _current_playback_time a
                /\ ready_to_play w s4 new_song (_current_playback_time a) = true)
    by (by subst s4).
  destruct Hs4 as (Hcur4 & Hsongs4 & Hfiltered4 & Hdisplay4 & Hpaused4 & Hh4
                   & Htime4 & Hready4).
  destruct (start_song_ready w s4 new_song (_current_playback_time a)
              (negb (is_paused s4)) Hready4)
    as (a1 & a2 & Hstart & Hsame & Hstarted).
  assert (Hdisplay2 : display_songs a2 = display_songs s4).
  { pose proof (keeps_start_song w
                  (fun s => display_songs s = display_songs s4)) as Hkeep.
    specialize (Hkeep ltac:(done) ltac:(done) ltac:(done) ltac:(done)
                      ltac:(done) ltac:(done) ltac:(done) ltac:(done)
                      ltac:(done) ltac:(done) ltac:(done) ltac:(done)).
    specialize (Hkeep new_song (_current_playback_time a) (negb (is_paused s4))
                      s4 eq_refl).
    by rewrite Hstart in Hkeep. }
  unfold bind at 1. rewrite Hcur4, bool_decide_eq_true_2 by done.
  rewrite Htime4, Hstart. unfold modify.
  eexists. split; [reflexivity|].
  destruct Hstarted as (Hc & Hp & _ & Hpa &_&_&_&_&_&_&_&_&_& Hs & Hf &_).
  destruct Hsame as (_ & _ & _ & _ & _ & _ & Hs1 & Hf1 & _).
  assert (Hfields : current_song a2 = Some new_song
            /\ play_start_position a2
               = _clamp_song_position (heap a new_song) (_current_playback_time a)
            /\ is_paused a2 = is_paused a
            /\ songs a2 = replaced old_song new_song (songs a)
            /\ filtered_songs a2 = replaced old_song new_song (filtered_songs a)
            /\ display_songs a2 = replaced old_song new_song (display_songs a)).
  { rewrite Hc, Hp, Hpa, Hs, Hf, Hs1, Hf1, Hdisplay2, Hh4, Hpaused4, negb_involutive.
    by split_and!. }
  destruct Hfields as (E1 & E2 & E3 & E4 & E5 & E6).
  destruct (bool_decide (dragging_progress_card a2 = Some old_song)); cbn;
    (split_and!; try done; intros Hne; rewrite E4; by apply not_in_replaced).
Qed.

(** X23: the full-screen control of a card ends in full-screen mode on
    that song.  When the song of the card is the current song, or is
    ready to play, the call returns with the video shown full screen and
    no card dragged; the current song is the one there was in the first
    case and the song of the card in the second. *)
Theorem X23_fullscreen_control_shows_the_song a song :
  opt_song_eq (heap a) (current_song a) song = true
  \/ ready_to_play w a song 0 = true ->
  exists a',
    _handle_card_control w song "fullscreen" a = (Ok tt, a')
    /\ video_fullscreen a' = true
    /\ dragging_progress_card a' = None
    /\ current_song a'
       = (if opt_song_eq (heap a) (current_song a) song
          then current_song a else Some song).
Proof.
  intros Hcase. unfold _handle_card_control.
  change (String.eqb "fullscreen" "play") with false.
  change (String.eqb "fullscreen" "loop") with false.
  change (String.eqb "fullscreen" "fullscreen") with true. cbv iota.
  unfold bind at 1, gets. cbv beta iota.
  destruct (opt_song_eq (heap a) (current_song a) song) eqn:Hsame; cbn [negb when].
  - unfold bind, ret, toggle_fullscreen, modify. cbn.
    destruct (current_song a) as [current|] eqn:Hcur; [|done].
    rewrite bool_decide_eq_true_2 by done. cbn.
    eexists. split; [reflexivity|]. by cbn.
  - destruct Hcase as [|Hready]; [done|].
    destruct (play_song_ready w a song false Hready) as (a1 & Hplay & Hplayed).
    unfold bind. rewrite Hplay. unfold toggle_fullscreen, modify. cbn.
    destruct Hplayed as (Hcur & _). rewrite Hcur.
    rewrite bool_decide_eq_true_2 by done. cbn.
    eexists. split; [reflexivity|]. by cbn.
Qed.

End EditFacts.
(** ** The properties of the library, the widgets and the controls on
    concrete inputs *)



Lemma X3_loaded_songs_are_constructed_witness :
  (exists raw_songs entries,
     Library.load_song_data env_demo saved_demo.1 saved_demo.2
       (Paths.DATA_PATH env_demo) = inr raw_songs
     /\ Library.iterate raw_songs = inr entries
     /\ length [fresh_song "a"; fresh_song "b"] <= length entries)
  /\ Forall (fun song =>
       Paths.exists_ env_demo saved_demo.1 (Assets.video_path song) = true
       /\ Assets.post_init_fields env_demo song
       /\ Assets.name song <> "" /\ Assets.artist song <> ""
       /\ Assets.assets_prepared song = false
       /\ Assets.loop_enabled song = false)
      [fresh_song "a"; fresh_song "b"].
Proof.
  apply (X3_loaded_songs_are_constructed env_demo saved_demo.1 saved_demo.2
           (Paths.DATA_PATH env_demo) [fresh_song "a"; fresh_song "b"]).
  by vm_compute.
Defined.

Lemma X4_entry_that_is_no_object_loads_as_untitled_witness :
  exists song,
    Library.song_of_entry env_demo library_fs (Library.JNumber 1) = inr (Some song)
    /\ Assets.name song = "Untitled Track"
    /\ Assets.artist song = "Unknown Artist"
    /\ Assets.video_path song = Paths.SONGS_DIR env_demo.
Proof.
  apply (X4_entry_that_is_no_object_loads_as_untitled env_demo library_fs
           (Library.JNumber 1)).
  - reflexivity.
  - discriminate.
  - by vm_compute.
Defined.

Lemma X5_normalize_keeps_the_entries_witness :
  (forall key, key <> "/data/song_data.json" ->
     docs_bare_name_normalized key = docs_bare_name key)
  /\ exists songs',
       docs_bare_name_normalized "/data/song_data.json"
       = Some (Library.JObject [("songs", Library.JArray songs')])
       /\ length songs' = 2.
Proof.
  destruct (X5_normalize_keeps_the_entries env_demo fs_with_song_list docs_bare_name
              (Paths.DATA_PATH env_demo) docs_bare_name_normalized)
    as [Hother _].
  - by vm_compute.
  - split; [exact Hother|].
    eexists. split; [by vm_compute|reflexivity].
Defined.


Lemma X24_slugify_gives_a_slug_witness :
  Assets.slugify "Band - My Tune!" = "band-my-tune"
  /\ Shapes.slug_shaped (Assets.slugify "Band - My Tune!") = true.
Proof.
  destruct (X24_slugify_gives_a_slug "Band - My Tune!") as [Hshaped _].
  - reflexivity.
  - split; [reflexivity|exact Hshaped].
Defined.

Lemma X26_absolute_path_round_trip_witness :
  Paths.resolve_media_path env_demo ["/elsewhere/a.mp4"] "/elsewhere/a.mp4"
  = Ok (Paths.MkPath true ["elsewhere"; "a.mp4"])
  /\ Paths._serialize_media_path env_demo (Paths.MkPath true ["elsewhere"; "a.mp4"])
     = "/elsewhere/a.mp4".
Proof.
  destruct (X26_absolute_path_round_trip env_demo ["/elsewhere/a.mp4"]
              ["elsewhere"; "a.mp4"]) as [Hresolve Hserialize].
  - repeat constructor.
  - by vm_compute.
  - split; [exact Hresolve|]. apply Hserialize. by vm_compute.
Defined.

Lemma X27_songs_directory_comes_first_witness :
  Paths.resolve_media_path env_demo ["/app/a.mp4"; "/data/songs/a.mp4"] "a.mp4"
  = Ok (Paths.MkPath true ["data"; "songs"; "a.mp4"]).
Proof.
  apply (X27_songs_directory_comes_first env_demo
           ["/app/a.mp4"; "/data/songs/a.mp4"] "a.mp4"); by vm_compute.
Defined.

Lemma X28_prepared_assets_are_in_place_witness :
  let out := Assets.ensure_assets env_demo (fun _ => Some clip_with_audio)
               ["/data/songs/a.mp4"] song_demo in
  Paths.exists_ env_demo (Assets.out_fs out) (Assets.thumbnail_path song_demo) = true
  /\ Paths.exists_ env_demo (Assets.out_fs out) (Assets.audio_path song_demo) = true
  /\ Assets.assets_prepared (Assets.out_song out) = true.
Proof.
  destruct (X28_prepared_assets_are_in_place env_demo (fun _ => Some clip_with_audio)
              ["/data/songs/a.mp4"] song_demo)
    as (_ & Hthumbnail & Haudio & _ & Hprepared & _).
  - by vm_compute.
  - split_and!; [exact Hthumbnail|exact Haudio|exact Hprepared].
Defined.


Lemma X7_cards_do_not_overlap_witness :
  exists card,
    Widgets._layout_cards 1280 160 [0; 1; 2] !! 1 = Some card
    /\ Widgets.contains card (400, 200)%Z = true
    /\ 1 = 1.
Proof.
  eexists. split; [by vm_compute|]. split; [by vm_compute|].
  eapply (X7_cards_do_not_overlap 1280 160 [0; 1; 2] 1 1 _ _ (400, 200)%Z);
    by vm_compute.
Defined.

Lemma X8_cards_stay_inside_the_resized_window_witness :
  let card := Widgets.MkSongCard 2
                (Widgets.MkRect 32 504 Widgets.CARD_WIDTH Widgets.CARD_HEIGHT) [] None in
  Widgets.cards window_resized !! 2 = Some card
  /\ Widgets.WINDOW_WIDTH window_resized = 960%Z
  /\ (32 <= Widgets.left (Widgets.rect card))%Z
  /\ (Widgets.right (Widgets.rect card) <= 960 - 32)%Z.
Proof.
  intros card.
  destruct (X8_cards_stay_inside_the_resized_window (fun _ => true) [0; 1; 2]
              100 100 window_demo window_resized 2 card)
    as (Hwidth & _ & _ & Hleft & Hright & _).
  - reflexivity.
  - reflexivity.
  - reflexivity.
  - split_and!; [reflexivity|exact Hwidth|exact Hleft|].
    rewrite Hwidth in Hright. exact Hright.
Defined.

Lemma X9_truncated_text_is_the_longest_prefix_that_fits_witness :
  exists n,
    n <= 10
    /\ Widgets._truncate_text "Long title" font_demo 80
       = Widgets.prefix_of n "Long title" +:+ "...".
Proof.
  destruct (X9_truncated_text_is_the_longest_prefix_that_fits "Long title"
              font_demo 80) as (n & Hn & _ & _ & Htext & _).
  - by vm_compute.
  - exists n. split; [exact Hn|exact Htext].
Defined.

Lemma X10_scaled_surface_fits_the_box_witness :
  (1 <= (Widgets._scale_surface (640, 360) (296, 150)).1 <= 296)%Z
  /\ (1 <= (Widgets._scale_surface (640, 360) (296, 150)).2 <= 150)%Z.
Proof.
  destruct (X10_scaled_surface_fits_the_box 640 360 296 150)
    as (Hwidth & Hheight & _); [lia..|].
  split; [exact Hwidth|exact Hheight].
Defined.

Lemma X11_progress_after_seek_witness :
  exists a',
    Transport.seek_song world_demo 0 (1 # 2) app_idle = (Ok tt, a')
    /\ Transport.current_song a' = Some 0
    /\ Transport.play_start_position a' = (10 # 2)%Q
    /\ Qeq (Controls._song_progress (Some 0) a')
         (Transport.play_start_position a' / 10).
Proof.
  destruct (X11_progress_after_seek world_demo app_idle 0 (1 # 2))
    as (a' & Hseek & Hcurrent & Hanchor & _ & Hprogress & _).
  - by vm_compute.
  - by vm_compute.
  - by vm_compute.
  - exists a'. split_and!; [exact Hseek|exact Hcurrent| |exact Hprogress].
    rewrite Hanchor. by vm_compute.
Defined.

Lemma X12_paused_time_does_not_count_witness :
  Transport._current_playback_time
    (Transport.set_clock 3000
       (Transport._toggle_song_pause world_demo 0 app_playing_a).2)
  = Transport._current_playback_time app_playing_a.
Proof.
  destruct (X12_paused_time_does_not_count world_demo app_playing_a 0 3000 5000)
    as [Hpaused _].
  - reflexivity.
  - reflexivity.
  - exact Hpaused.
Defined.

Lemma X13_displayed_songs_are_a_page_witness :
  (0 <= Transport.visible_song_limit app_more
   <= Z.of_nat (length (Transport.filtered_songs app_more)))%Z
  /\ Transport.display_songs app_more
     = take (Z.to_nat (Transport.visible_song_limit app_more))
         (Transport.filtered_songs app_more).
Proof.
  assert (Hrun : rtc (Controls.ui_step world_demo)
                   (Transport._apply_search world_demo true app_idle).2 app_more).
  { unfold app_more, app_searched. apply rtc_once.
    apply Controls.ui_load_more_songs. }
  exact (X13_displayed_songs_are_a_page world_demo app_idle true app_more Hrun).
Defined.

Lemma X14_fullscreen_only_with_a_current_song_witness :
  exists song, Transport.current_song app_fullscreen_a = Some song.
Proof.
  apply (X14_fullscreen_only_with_a_current_song world_demo app_idle app_fullscreen_a).
  - reflexivity.
  - unfold app_fullscreen_a.
    eapply rtc_r;
      [|apply (Controls.ui_card_control world_demo app_playing_a 0 "fullscreen")].
    unfold app_playing_a. apply rtc_once. apply Controls.ui_transport.
    apply (Transport.step_play_song world_demo app_idle 0). by left.
  - by vm_compute.
Defined.

Lemma X15_volume_stays_in_range_witness :
  (0 <= Transport.volume app_quiet)%Q /\ (Transport.volume app_quiet <= 1)%Q
  /\ Transport.volume app_quiet = (48 # 160)%Q
  /\ Transport.music_volume (Transport.mixer app_quiet) = (38 # 128)%Q.
Proof.
  destruct (X15_volume_stays_in_range world_demo app_idle app_quiet)
    as (Hlow & Hhigh & Hmixer & _).
  - by vm_compute.
  - by vm_compute.
  - reflexivity.
  - unfold app_quiet. apply rtc_once.
    apply (Controls.ui_update_volume world_demo app_idle slider_demo 148).
  - split_and!; [exact Hlow|exact Hhigh|reflexivity|].
    rewrite Hmixer. reflexivity.
Defined.

Lemma app_duplicate_entry_page : Controls.page_ok app_duplicate_entry.
Proof. split; [by vm_compute|reflexivity]. Defined.

Lemma X16_ensured_song_is_on_the_page_witness :
  Transport.filtered_songs
    (Transport._ensure_song_visible world_demo 5 app_duplicate_entry).2
  = Transport.filtered_songs app_duplicate_entry
  /\ (5 < Transport.visible_song_limit
            (Transport._ensure_song_visible world_demo 5%nat app_duplicate_entry).2)%Z.
Proof.
  destruct (X16_ensured_song_is_on_the_page world_demo app_duplicate_entry 5 5)
    as (Hfiltered & _ & Hlimit & _).
  - exact app_duplicate_entry_page.
  - by vm_compute.
  - split; [exact Hfiltered|exact Hlimit].
Defined.

Lemma X17_load_more_shows_the_next_pages_witness :
  Transport.visible_song_limit
    (Nat.iter 1 (fun s => (Controls._load_more_songs world_demo s).2)
       app_duplicate_entry)
  = Z.min (Transport.visible_song_limit app_duplicate_entry + Transport.PAGE_SIZE * Z.of_nat 1)
      (Z.of_nat (length (Transport.filtered_songs app_duplicate_entry))).
Proof.
  destruct (X17_load_more_shows_the_next_pages world_demo app_duplicate_entry 1)
    as (_ & Hlimit & _).
  - exact app_duplicate_entry_page.
  - exact Hlimit.
Defined.

Lemma X18_deleted_song_leaves_the_library_witness :
  exists docs' a',
    Controls.delete_song world_demo (fun _ => true) docs_none 1 app_idle
    = (Ok docs', a')
    /\ Transport.songs a'
       = List.filter (fun r => negb (Nat.eqb r 1)) (Transport.songs app_idle)
    /\ (1 ∉ Transport.songs a')
    /\ Controls.page_ok a'.
Proof.
  destruct (X18_deleted_song_leaves_the_library world_demo app_idle (fun _ => true)
              docs_none 1)
    as (docs' & a' & Hdelete & Hsongs & Hgone & _ & _ & _ & _ & _ & Hpage).
  - unfold Transport.distinct_entries.
    eapply (bool_decide_unpack (NoDup _)). by vm_compute.
  - apply elem_of_cons. right. apply elem_of_cons. by left.
  - exists docs', a'. split_and!; [exact Hdelete|exact Hsongs|exact Hgone|exact Hpage].
Defined.

Lemma X19_replaced_song_keeps_playing_witness :
  exists a',
    Controls._replace_song_instance world_demo 0 1 app_playing_a = (Ok tt, a')
    /\ Transport.current_song a' = Some 1
    /\ Transport.songs a' = Controls.replaced 0 1 (Transport.songs app_playing_a)
    /\ (0 ∉ Transport.songs a').
Proof.
  destruct (X19_replaced_song_keeps_playing world_demo app_playing_a 0 1)
    as (a' & Hreplace & Hcurrent & _ & _ & Hsongs & _ & _ & Hgone).
  - reflexivity.
  - by vm_compute.
  - exists a'. split_and!; [exact Hreplace|exact Hcurrent|exact Hsongs|].
    apply Hgone. discriminate.
Defined.


Lemma X21_start_song_raises_before_the_device_witness :
  exists a',
    Transport._start_song world_undecodable 0 0 true app_empty_disk
    = (Raise DecodeError, a')
    /\ Transport.mixer a' = Transport.mixer app_empty_disk
    /\ Transport.current_song a' = Transport.current_song app_empty_disk.
Proof.
  destruct (X21_start_song_raises_before_the_device world_undecodable app_empty_disk
              0 0 true DecodeError)
    as (a' & Hstart & Hmixer & _ & Hcurrent & _).
  - by vm_compute.
  - by vm_compute.
  - exists a'. split_and!; [exact Hstart|exact Hmixer|exact Hcurrent].
Defined.

Lemma X22_start_song_on_a_refused_file_witness :
  exists a',
    Transport._start_song world_rejecting_a 0 0 true app_idle = (Ok tt, a')
    /\ Transport.music_playing (Transport.mixer a') = false
    /\ Transport.current_song a' = Transport.current_song app_idle.
Proof.
  destruct (X22_start_song_on_a_refused_file world_rejecting_a app_idle 0 0 true)
    as (a' & Hstart & Hplaying & _ & Hcurrent & _).
  - by vm_compute.
  - left. by vm_compute.
  - exists a'. split_and!; [exact Hstart|exact Hplaying|exact Hcurrent].
Defined.

Lemma X23_fullscreen_control_shows_the_song_witness :
  exists a',
    Controls._handle_card_control world_demo 0 "fullscreen" app_idle = (Ok tt, a')
    /\ Transport.video_fullscreen a' = true
    /\ Transport.current_song a' = Some 0.
Proof.
  destruct (X23_fullscreen_control_shows_the_song world_demo app_idle 0)
    as (a' & Hcontrol & Hfullscreen & _ & Hcurrent).
  - right. by vm_compute.
  - exists a'. split_and!; [exact Hcontrol|exact Hfullscreen|exact Hcurrent].
Defined.
